(** * Animaflow: raster authoring and playback engine

    A shallow embedding of the engine classes of the editor
    (src/engine/BrushEngine.ts, AnimationLoop.ts, StorageManager.ts,
    types.ts) and of the frame and history handlers of src/App.tsx,
    followed by the properties proved about them. *)

From Stdlib Require Import ZArith QArith Qround Qabs Qfield Lia List.
From Stdlib Require Import SpecFloat.
From Stdlib Require Import Ascii String.
From stdpp Require Import base tactics option list sorting gmap strings.

(** ** JavaScript numbers

    A [number] is a double: a finite value or one of the three IEEE
    specials. A finite double is kept as the rational it denotes, and
    every arithmetic result is rounded to the nearest double, a tie
    going to the even significand, or to an infinity where the doubles
    end. Zero carries no sign. *)
Module JS.

Inductive number : Type :=
| Fin (q : Q)
| PInf
| NInf
| NaN.

Definition ofZ (z : Z) : number := Fin (inject_Z z).

(** [q * 2^k] *)
Definition scale (q : Q) (k : Z) : Q :=
  match k with
  | Z0 => q
  | Zpos p => q * inject_Z (2 ^ Zpos p)
  | Zneg p => q / inject_Z (2 ^ Zpos p)
  end.

(** The exponent [e] with [2^e <= |q| < 2^(e+1)], for [q] other than
    zero. *)
Definition binade (q : Q) : Z :=
  let k := (Z.log2 (Z.abs (Qnum q)) - Z.log2 (Zpos (Qden q)))%Z in
  if Qle_bool (scale 1 k) (Qabs q) then k else (k - 1)%Z.

(** The nearest integer, a tie going to the even one. *)
Definition rne (x : Q) : Z :=
  let f := Qfloor x in
  match (x - inject_Z f ?= 1 # 2)%Q with
  | Lt => f
  | Gt => (f + 1)%Z
  | Eq => if Z.even f then f else (f + 1)%Z
  end.

(** The exponent of the last place of the doubles in the binade of
    [q]: 53 significant bits, and no exponent below that of the
    subnormal numbers. *)
Definition lastPlace (q : Q) : Z := Z.max (binade q - 52) (-1074).

(** [q] rounded to 53 significant bits, the exponent unbounded
    above. *)
Definition toPrecision (q : Q) : Q :=
  let ex := lastPlace q in
  scale (inject_Z (rne (scale q (- ex)))) ex.

(** Where the doubles end: [2^1024]. *)
Definition huge : Q := inject_Z (2 ^ 1024).

(** The double nearest to [q]. *)
Definition nearest (q : Q) : number :=
  let q := Qred q in
  if Qeq_bool q 0 then Fin 0
  else
    let r := Qred (toPrecision q) in
    if Qle_bool huge (Qabs r) then (if Qle_bool 0 r then PInf else NInf)
    else Fin r.

Definition neg (a : number) : number :=
  match a with
  | Fin q => Fin (- q)
  | PInf => NInf
  | NInf => PInf
  | NaN => NaN
  end.

Definition add (a b : number) : number :=
  match a, b with
  | NaN, _ | _, NaN => NaN
  | Fin p, Fin q => nearest (p + q)
  | PInf, NInf | NInf, PInf => NaN
  | PInf, _ | _, PInf => PInf
  | NInf, _ | _, NInf => NInf
  end.

Definition sub (a b : number) : number := add a (neg b).

(** An infinity times the finite [q]: the sign of [q] keeps or flips
    it, and infinity times zero is NaN. *)
Definition inf_times (positive : bool) (q : Q) : number :=
  match (q ?= 0)%Q with
  | Eq => NaN
  | Gt => if positive then PInf else NInf
  | Lt => if positive then NInf else PInf
  end.

Definition mul (a b : number) : number :=
  match a, b with
  | NaN, _ | _, NaN => NaN
  | Fin p, Fin q => nearest (p * q)
  | PInf, Fin q | Fin q, PInf => inf_times true q
  | NInf, Fin q | Fin q, NInf => inf_times false q
  | PInf, PInf | NInf, NInf => PInf
  | PInf, NInf | NInf, PInf => NInf
  end.

Definition div (a b : number) : number :=
  match a, b with
  | NaN, _ | _, NaN => NaN
  | Fin p, Fin q =>
      match (q ?= 0)%Q with
      | Eq => match (p ?= 0)%Q with
              | Eq => NaN
              | Gt => PInf
              | Lt => NInf
              end
      | _ => nearest (p / q)
      end
  | Fin _, (PInf | NInf) => Fin 0
  | PInf, Fin q => match (q ?= 0)%Q with Lt => NInf | _ => PInf end
  | NInf, Fin q => match (q ?= 0)%Q with Lt => PInf | _ => NInf end
  | (PInf | NInf), (PInf | NInf) => NaN
  end.

(** [a >= b] *)
Definition ge (a b : number) : bool :=
  match a, b with
  | NaN, _ | _, NaN => false
  | Fin p, Fin q => Qle_bool q p
  | PInf, _ => true
  | _, NInf => true
  | _, PInf => false
  | NInf, _ => false
  end.

(** [Math.floor]: the floor of a double is a double. *)
Definition floor (a : number) : number :=
  match a with
  | Fin q => Fin (inject_Z (Qfloor q))
  | _ => a
  end.

(** Rounding towards zero, as the remainder operator does. *)
Definition Qtrunc (q : Q) : Z :=
  match (q ?= 0)%Q with
  | Lt => Qceiling q
  | _ => Qfloor q
  end.

(** [a % b]: the remainder has the sign of the dividend. The exact
    remainder of two doubles is a double, which [nearest] returns as
    it is. *)
Definition rem (a b : number) : number :=
  match a, b with
  | NaN, _ | _, NaN => NaN
  | (PInf | NInf), _ => NaN
  | Fin p, (PInf | NInf) => Fin p
  | Fin p, Fin q =>
      match (q ?= 0)%Q with
      | Eq => NaN
      | _ => nearest (p - q * inject_Z (Qtrunc (p / q)))
      end
  end.

(** [Math.pow(a, 2)]. The language leaves the precision of
    [Math.pow] to the engine; V8 and SpiderMonkey return the product
    [a * a] for the exponent 2. *)
Definition pow2 (a : number) : number := mul a a.

(** The square root of a positive rational, rounded to 53 significant
    bits: the integer square root of [q / 4^ex] gives the significand
    below the root, and the comparison with its half-way point decides
    the last place. *)
Definition sqrtPrecision (q : Q) : Q :=
  let ex := Z.max (binade q / 2 - 52) (-1074) in
  let x := scale q (- (2 * ex)) in
  let m := Z.sqrt (Qfloor x) in
  let half := (inject_Z m + (1 # 2))%Q in
  let m' :=
    match (x ?= half * half)%Q with
    | Lt => m
    | Gt => (m + 1)%Z
    | Eq => if Z.even m then m else (m + 1)%Z
    end in
  scale (inject_Z m') ex.

(** [Math.pow(a, 0.5)]: the same engines return the square root of a
    number that is not negative; the power of a negative number is
    NaN, and that of minus infinity is plus infinity. *)
Definition pow_half (a : number) : number :=
  match a with
  | Fin q => match (q ?= 0)%Q with
             | Lt => NaN
             | Eq => Fin 0
             | Gt => Fin (Qred (sqrtPrecision (Qred q)))
             end
  | PInf | NInf => PInf
  | NaN => NaN
  end.

(** [Math.round] of a finite number, which is an integer: the nearest
    one, a tie going up. *)
Definition round (a : number) : option Z :=
  match a with
  | Fin q => Some (Qfloor (q + (1 # 2)))
  | _ => None
  end.

Definition isNaN (a : number) : bool :=
  match a with NaN => true | _ => false end.

(** Equality of numbers as values. *)
Definition eqv (a b : number) : Prop :=
  match a, b with
  | Fin p, Fin q => (p == q)%Q
  | PInf, PInf | NInf, NInf | NaN, NaN => True
  | _, _ => False
  end.

End JS.

(** ** The standard library's IEEE 754 arithmetic, for comparison *)
Module IEEE.

(** The number that a double of the standard library's specification
    of IEEE 754 arithmetic denotes; both zeros are the one zero. *)
Definition ofSpec (f : spec_float) : JS.number :=
  match f with
  | S754_zero _ => JS.Fin 0
  | S754_infinity false => JS.PInf
  | S754_infinity true => JS.NInf
  | S754_nan => JS.NaN
  | S754_finite s m e =>
      JS.Fin (Qred (JS.scale (inject_Z (if s then Zneg m else Zpos m)) e))
  end.

(** The double nearest to [m * 2^e]. *)
Definition double (m e : Z) : spec_float :=
  binary_normalize 53 1024 m e false.

Definition same (a b : JS.number) : bool :=
  match a, b with
  | JS.Fin p, JS.Fin q => Qeq_bool p q
  | JS.PInf, JS.PInf | JS.NInf, JS.NInf | JS.NaN, JS.NaN => true
  | _, _ => false
  end.

Definition isZero (f : spec_float) : bool :=
  match f with S754_zero _ => true | _ => false end.

(** The operations of the model give on [x] and [y] what the
    specification gives: sum, difference, product, and quotient by a
    divisor other than zero. *)
Definition agree (x y : spec_float) : bool :=
  same (JS.add (ofSpec x) (ofSpec y)) (ofSpec (SFadd 53 1024 x y))
  && same (JS.sub (ofSpec x) (ofSpec y)) (ofSpec (SFsub 53 1024 x y))
  && same (JS.mul (ofSpec x) (ofSpec y)) (ofSpec (SFmul 53 1024 x y))
  && (isZero y
      || same (JS.div (ofSpec x) (ofSpec y)) (ofSpec (SFdiv 53 1024 x y))).

(** So does the square root, of the absolute value of [x]. *)
Definition agreeRoot (x : spec_float) : bool :=
  same (JS.pow_half (ofSpec (SFabs x)))
    (ofSpec (SFsqrt 53 1024 (SFabs x))).

(** Doubles of the usual kinds: zero, an integer, fractions that are
    not binary, an infinity and NaN. *)
Definition samples : list spec_float :=
  [ double 0 0; double 1200 0;
    SFdiv 53 1024 (double 1 0) (double 10 0);
    SFdiv 53 1024 (double 1000 0) (double 12 0);
    SFdiv 53 1024 (double (-2) 0) (double 3 0);
    S754_infinity true; S754_nan ].

(** Pairs at the ends of the doubles: the largest double and the
    smallest one, with each other and with ordinary numbers. *)
Definition extremes : list (spec_float * spec_float) :=
  let largest := double (2 ^ 53 - 1) 971 in
  let smallest := double 1 (-1074) in
  let tenth := SFdiv 53 1024 (double 1 0) (double 10 0) in
  [ (largest, largest); (largest, double 1200 0); (largest, tenth);
    (smallest, smallest); (smallest, double 1200 0); (tenth, smallest);
    (largest, smallest); (double (2 ^ 52 + 1) (-1074), double 3 0) ].

End IEEE.

(** ** src/engine/types.ts *)

Inductive LayerType : Type := Background | Lineart | Color.

Inductive ToolType : Type := Brush | Eraser | Select | Fill.

#[global] Instance LayerType_eq_dec : EqDecision LayerType.
Proof. solve_decision. Defined.

#[global] Instance ToolType_eq_dec : EqDecision ToolType.
Proof. solve_decision. Defined.

Module Frame.

(** [layers: { [key in LayerType]: string }] *)
Record Layers : Type := {
  background : string;
  lineart : string;
  color : string
}.

Record t : Type := {
  id : string;
  index : nat;
  layers : Layers
}.

(** [frame.layers[type]] *)
Definition layer (f : t) (ty : LayerType) : string :=
  match ty with
  | Background => background (layers f)
  | Lineart => lineart (layers f)
  | Color => color (layers f)
  end.

(** [{ ...f, index: i }] *)
Definition withIndex (f : t) (i : nat) : t :=
  {| id := id f; index := i; layers := layers f |}.

#[global] Instance Layers_eq_dec : EqDecision Layers.
Proof. solve_decision. Defined.

#[global] Instance t_eq_dec : EqDecision t.
Proof. solve_decision. Defined.

End Frame.

Module Point.

Record t : Type := {
  x : JS.number;
  y : JS.number;
  pressure : JS.number;
  tiltX : JS.number;
  tiltY : JS.number;
  timestamp : JS.number
}.

End Point.

Module BrushSettings.

Record t : Type := {
  tool : ToolType;
  size : JS.number;
  color : string;
  opacity : JS.number;
  smoothing : JS.number
}.

End BrushSettings.

(** ** The 2D canvas context, as far as the brush engine drives it

    The pixel buffer is the [data] of the [ImageData] that
    [getImageData(0, 0, width, height)] returns and [putImageData]
    writes back: four bytes per pixel, row by row. Two things are the
    browser's and not the engine's: which strings the [strokeStyle]
    setter accepts as colours, and what a stroked path does to the
    pixels. The context carries both as its [host]. The model also
    records each call of [stroke()], with the path commands issued
    since [beginPath()] and the drawing state of that moment. *)
Module Canvas.

(** A call of [moveTo] or [lineTo], with its arguments as passed; the
    browser skips a command with a coordinate that is not finite when
    it rasterises the path. *)
Inductive PathCmd : Type :=
| MoveTo (x y : JS.number)
| LineTo (x y : JS.number).

(** The part of the drawing state that [save()] and [restore()] keep. *)
Record DrawState : Type := {
  lineWidth : JS.number;
  lineCap : string;
  lineJoin : string;
  strokeStyle : string;
  globalCompositeOperation : string
}.

Record StrokeCall : Type := {
  strokePath : list PathCmd;
  strokeState : DrawState
}.

(** The browser's part: [parsesColor v] tells whether [v] is a colour
    to the [strokeStyle] setter, and [rasterise call data] is the pixel
    buffer after the path of [call] is stroked over [data]. *)
Record Host : Type := {
  parsesColor : string -> bool;
  rasterise : StrokeCall -> list Z -> list Z
}.

Record t : Type := {
  host : Host;
  width : Z;
  height : Z;
  pixels : list Z;
  state : DrawState;
  saved : list DrawState;
  path : list PathCmd;
  strokes : list StrokeCall
}.

Definition withState (c : t) (s : DrawState) : t :=
  {| host := host c; width := width c; height := height c;
     pixels := pixels c;
     state := s; saved := saved c; path := path c;
     strokes := strokes c |}.

Definition withPath (c : t) (p : list PathCmd) : t :=
  {| host := host c; width := width c; height := height c;
     pixels := pixels c;
     state := state c; saved := saved c; path := p;
     strokes := strokes c |}.

Definition save (c : t) : t :=
  {| host := host c; width := width c; height := height c;
     pixels := pixels c;
     state := state c; saved := state c :: saved c; path := path c;
     strokes := strokes c |}.

Definition restore (c : t) : t :=
  match saved c with
  | [] => c
  | s :: rest =>
      {| host := host c; width := width c; height := height c;
         pixels := pixels c;
         state := s; saved := rest; path := path c;
         strokes := strokes c |}
  end.

Definition beginPath (c : t) : t := withPath c [].

Definition moveTo (px py : JS.number) (c : t) : t :=
  withPath c (path c ++ [MoveTo px py]).

Definition lineTo (px py : JS.number) (c : t) : t :=
  withPath c (path c ++ [LineTo px py]).

(** [ctx.lineWidth = w]: zero, negative, infinite and NaN values are
    ignored by the setter. *)
Definition setLineWidth (w : JS.number) (c : t) : t :=
  match w with
  | JS.Fin q =>
      match (q ?= 0)%Q with
      | Gt =>
          withState c
            {| lineWidth := w; lineCap := lineCap (state c);
               lineJoin := lineJoin (state c);
               strokeStyle := strokeStyle (state c);
               globalCompositeOperation :=
                 globalCompositeOperation (state c) |}
      | _ => c
      end
  | _ => c
  end.

Definition setLineCap (v : string) (c : t) : t :=
  withState c
    {| lineWidth := lineWidth (state c); lineCap := v;
       lineJoin := lineJoin (state c);
       strokeStyle := strokeStyle (state c);
       globalCompositeOperation := globalCompositeOperation (state c) |}.

Definition setLineJoin (v : string) (c : t) : t :=
  withState c
    {| lineWidth := lineWidth (state c); lineCap := lineCap (state c);
       lineJoin := v;
       strokeStyle := strokeStyle (state c);
       globalCompositeOperation := globalCompositeOperation (state c) |}.

(** [ctx.strokeStyle = v]: a string that the browser does not parse
    as a colour is ignored by the setter. *)
Definition setStrokeStyle (v : string) (c : t) : t :=
  if parsesColor (host c) v then
    withState c
      {| lineWidth := lineWidth (state c); lineCap := lineCap (state c);
         lineJoin := lineJoin (state c);
         strokeStyle := v;
         globalCompositeOperation := globalCompositeOperation (state c) |}
  else c.

Definition setGlobalCompositeOperation (v : string) (c : t) : t :=
  withState c
    {| lineWidth := lineWidth (state c); lineCap := lineCap (state c);
       lineJoin := lineJoin (state c);
       strokeStyle := strokeStyle (state c);
       globalCompositeOperation := v |}.

(** [ctx.stroke()]: the current path is stroked once, with the drawing
    state of this moment, and the browser paints it into the pixels. *)
Definition stroke (c : t) : t :=
  let call := {| strokePath := path c; strokeState := state c |} in
  {| host := host c; width := width c; height := height c;
     pixels := rasterise (host c) call (pixels c);
     state := state c; saved := saved c; path := path c;
     strokes := strokes c ++ [call] |}.

(** [ctx.putImageData(imageData, 0, 0)] for a full-canvas buffer. *)
Definition putImageData (d : list Z) (c : t) : t :=
  {| host := host c; width := width c; height := height c; pixels := d;
     state := state c; saved := saved c; path := path c;
     strokes := strokes c |}.

End Canvas.

(** ** src/engine/BrushEngine.ts *)
Module BrushEngine.

Record t : Type := {
  points : list Point.t;
  ctx : Canvas.t
}.

(** *** Flood fill *)

(** A colour as [getPixel] returns it: four array reads, each a byte
    or [undefined]. *)
Definition Pixel : Type :=
  (option Z * option Z * option Z * option Z)%type.

(** [data[i]] on the byte array: [undefined] outside the array. *)
Definition dataGet (data : list Z) (i : Z) : option Z :=
  if (i <? 0)%Z then None else data !! Z.to_nat i.

(** Bytes are clamped to 0..255 when stored. *)
Definition clamp (v : Z) : Z := Z.max 0 (Z.min 255 v).

(** [data[i] = v]: a write outside the array is dropped. *)
Definition dataSet (data : list Z) (i v : Z) : list Z :=
  if (i <? 0)%Z then data else <[Z.to_nat i := clamp v]> data.

Definition getPixel (data : list Z) (width : Z) (px py : Z) : Pixel :=
  let i := ((py * width + px) * 4)%Z in
  (dataGet data i, dataGet data (i + 1)%Z,
   dataGet data (i + 2)%Z, dataGet data (i + 3)%Z).

Definition colorsMatch (c1 c2 : Pixel) : bool :=
  let '(a0, a1, a2, a3) := c1 in
  let '(b0, b1, b2, b3) := c2 in
  bool_decide (a0 = b0) && bool_decide (a1 = b1)
  && bool_decide (a2 = b2) && bool_decide (a3 = b3).

(** The value of one character of the class [[a-f\d]] under the [i]
    flag. *)
Definition hexDigit (c : ascii) : option Z :=
  let n := Z.of_N (N_of_ascii c) in
  if ((48 <=? n) && (n <=? 57))%Z then Some (n - 48)%Z
  else if ((97 <=? n) && (n <=? 102))%Z then Some (n - 87)%Z
  else if ((65 <=? n) && (n <=? 70))%Z then Some (n - 55)%Z
  else None.

(** [parseInt(s, 16)] of a two-character group. *)
Definition hexPair (c1 c2 : ascii) : option Z :=
  match hexDigit c1, hexDigit c2 with
  | Some h, Some l => Some (16 * h + l)%Z
  | _, _ => None
  end.

(** [/^#?([a-f\d]{2})([a-f\d]{2})([a-f\d]{2})$/i.exec(hex)] *)
Definition hexToRgb (hex : string) : option (Z * Z * Z) :=
  let body :=
    match hex with
    | String "#"%char rest => rest
    | _ => hex
    end in
  match body with
  | String r1 (String r2 (String g1 (String g2
      (String b1 (String b2 EmptyString))))) =>
      match hexPair r1 r2, hexPair g1 g2, hexPair b1 b2 with
      | Some r, Some g, Some b => Some (r, g, b)
      | _, _, _ => None
      end
  | _ => None
  end.

(** The four byte writes of one painted pixel. *)
Definition paint (data : list Z) (width : Z) (px py : Z)
    (rgb : Z * Z * Z) : list Z :=
  let '(r, g, b) := rgb in
  let i := ((py * width + px) * 4)%Z in
  dataSet (dataSet (dataSet (dataSet data i r) (i + 1)%Z g)
             (i + 2)%Z b) (i + 3)%Z 255%Z.

(** The state of the [while] loop: the stack (its top is the head of
    the list), the byte array, and the coordinates painted so far, the
    latest first. The last component is not in the source; it records
    every pass through the four writes. *)
Record FillState : Type := {
  stack : list (Z * Z);
  data : list Z;
  painted : list (Z * Z)
}.

(** One iteration of [while (stack.length > 0)]; [None] when the
    stack is empty. *)
Definition fillStep (width height : Z) (targetColor : Pixel)
    (fillRgb : Z * Z * Z) (s : FillState) : option FillState :=
  match stack s with
  | [] => None
  | (px, py) :: rest =>
      if ((px <? 0) || (px >=? width) || (py <? 0) || (py >=? height))%Z
      then Some {| stack := rest; data := data s; painted := painted s |}
      else if negb (colorsMatch (getPixel (data s) width px py) targetColor)
      then Some {| stack := rest; data := data s; painted := painted s |}
      else
        Some {| stack :=
                  (px, py - 1)%Z :: (px, py + 1)%Z :: (px - 1, py)%Z
                  :: (px + 1, py)%Z :: rest;
                data := paint (data s) width px py fillRgb;
                painted := (px, py) :: painted s |}
  end.

(** The loop, run for at most [fuel] iterations. *)
Fixpoint fillLoop (fuel : nat) (width height : Z) (targetColor : Pixel)
    (fillRgb : Z * Z * Z) (s : FillState) : option FillState :=
  match fillStep width height targetColor fillRgb s with
  | None => Some s
  | Some s' =>
      match fuel with
      | O => None
      | S fuel' => fillLoop fuel' width height targetColor fillRgb s'
      end
  end.

(** The fully opaque fill colour as a pixel. *)
Definition opaque (rgb : Z * Z * Z) : Pixel :=
  let '(r, g, b) := rgb in (Some r, Some g, Some b, Some 255%Z).

(** [floodFill(startX, startY, fillColor)] on the buffer of the canvas:
    the buffer to put back and the coordinates painted, or [None] when
    [fuel] iterations do not empty the stack. A return before the loop
    puts nothing back. *)
Definition floodFillData (fuel : nat) (width height : Z) (data0 : list Z)
    (startX startY : Z) (fillColor : string)
    : option (list Z * list (Z * Z)) :=
  let targetColor := getPixel data0 width startX startY in
  match hexToRgb fillColor with
  | None => Some (data0, [])
  | Some fillRgb =>
      if colorsMatch targetColor (opaque fillRgb) then Some (data0, [])
      else
        match fillLoop fuel width height targetColor fillRgb
                {| stack := [(startX, startY)]; data := data0;
                   painted := [] |} with
        | Some s => Some (data s, painted s)
        | None => None
        end
  end.

Definition floodFill (fuel : nat) (startX startY : Z) (fillColor : string)
    (e : t) : option t :=
  match floodFillData fuel (Canvas.width (ctx e)) (Canvas.height (ctx e))
          (Canvas.pixels (ctx e)) startX startY fillColor with
  | Some (d, _) =>
      Some {| points := points e; ctx := Canvas.putImageData d (ctx e) |}
  | None => None
  end.

(** *** Strokes *)

(** [drawSimpleLine(settings)] *)
Definition drawSimpleLine (settings : BrushSettings.t) (e : t) : t :=
  let len := length (points e) in
  if (len <? 2)%nat then e
  else
    match points e !! (len - 2)%nat, points e !! (len - 1)%nat with
    | Some p1, Some p2 =>
        let c := Canvas.beginPath (ctx e) in
        let c := Canvas.setLineCap "round" c in
        let c := Canvas.setLineJoin "round" c in
        let c := Canvas.setStrokeStyle (BrushSettings.color settings) c in
        let c := Canvas.setLineWidth
                   (JS.mul (BrushSettings.size settings)
                      (Point.pressure p2)) c in
        let c := Canvas.moveTo (Point.x p1) (Point.y p1) c in
        let c := Canvas.lineTo (Point.x p2) (Point.y p2) c in
        let c := Canvas.stroke c in
        {| points := points e; ctx := c |}
    | _, _ => e
    end.

Definition alpha : JS.number := JS.Fin (1 # 2).

(** [getT(t, pA, pB)]; the exponent [alpha] is 0.5. *)
Definition getT (t : JS.number) (pA pB : Point.t) : JS.number :=
  let d := JS.pow_half
             (JS.add (JS.pow2 (JS.sub (Point.x pB) (Point.x pA)))
                     (JS.pow2 (JS.sub (Point.y pB) (Point.y pA)))) in
  JS.add (JS.pow_half d) t.

Definition steps : nat := 10.

(** The blend [(hi - t) / (hi - lo) * a + (t - lo) / (hi - lo) * b]. *)
Definition blend (lo hi t a b : JS.number) : JS.number :=
  JS.add (JS.mul (JS.div (JS.sub hi t) (JS.sub hi lo)) a)
         (JS.mul (JS.div (JS.sub t lo) (JS.sub hi lo)) b).

(** The knots [t0, t1, t2, t3] of the four control points. *)
Definition knots (p0 p1 p2 p3 : Point.t)
    : JS.number * JS.number * JS.number * JS.number :=
  let t0 := JS.ofZ 0 in
  let t1 := getT t0 p0 p1 in
  let t2 := getT t1 p1 p2 in
  let t3 := getT t2 p2 p3 in
  (t0, t1, t2, t3).

(** The curve point [(cx, cy)] that iteration [i] evaluates. *)
Definition splinePoint (p0 p1 p2 p3 : Point.t) (i : nat)
    : JS.number * JS.number :=
  let '(t0, t1, t2, t3) := knots p0 p1 p2 p3 in
  let frac := JS.div (JS.ofZ (Z.of_nat i)) (JS.ofZ (Z.of_nat steps)) in
  let t := JS.add t1 (JS.mul frac (JS.sub t2 t1)) in
  let a1x := blend t0 t1 t (Point.x p0) (Point.x p1) in
  let a1y := blend t0 t1 t (Point.y p0) (Point.y p1) in
  let a2x := blend t1 t2 t (Point.x p1) (Point.x p2) in
  let a2y := blend t1 t2 t (Point.y p1) (Point.y p2) in
  let a3x := blend t2 t3 t (Point.x p2) (Point.x p3) in
  let a3y := blend t2 t3 t (Point.y p2) (Point.y p3) in
  let b1x := blend t0 t2 t a1x a2x in
  let b1y := blend t0 t2 t a1y a2y in
  let b2x := blend t1 t3 t a2x a3x in
  let b2y := blend t1 t3 t a2y a3y in
  let cx := blend t1 t2 t b1x b2x in
  let cy := blend t1 t2 t b1y b2y in
  (cx, cy).

(** The width that iteration [i] assigns to [ctx.lineWidth]. *)
Definition splineWidth (settings : BrushSettings.t) (p1 p2 : Point.t)
    (i : nat) : JS.number :=
  let frac := JS.div (JS.ofZ (Z.of_nat i)) (JS.ofZ (Z.of_nat steps)) in
  let pressure :=
    JS.add (Point.pressure p1)
      (JS.mul frac (JS.sub (Point.pressure p2) (Point.pressure p1))) in
  JS.mul (BrushSettings.size settings) pressure.

(** The body of [for (let i = 0; i <= steps; i++)]. *)
Definition splineStep (settings : BrushSettings.t)
    (p0 p1 p2 p3 : Point.t) (c : Canvas.t) (i : nat) : Canvas.t :=
  let '(cx, cy) := splinePoint p0 p1 p2 p3 i in
  let c := Canvas.setLineWidth (splineWidth settings p1 p2 i) c in
  if (i =? 0)%nat then Canvas.moveTo cx cy c else Canvas.lineTo cx cy c.

(** [drawSpline(settings)]; it is called with four points or more. *)
Definition drawSpline (settings : BrushSettings.t) (e : t) : t :=
  let len := length (points e) in
  match drop (len - 4) (points e) with
  | [p0; p1; p2; p3] =>
      let c := Canvas.beginPath (ctx e) in
      let c := Canvas.setLineCap "round" c in
      let c := Canvas.setLineJoin "round" c in
      let c := Canvas.setStrokeStyle (BrushSettings.color settings) c in
      let c := fold_left (splineStep settings p0 p1 p2 p3)
                 (seq 0 (S steps)) c in
      let c := Canvas.stroke c in
      {| points := points e; ctx := c |}
  | _ => e
  end.

(** [addPoint(point, settings)] *)
Definition addPoint (point : Point.t) (settings : BrushSettings.t)
    (e : t) : t :=
  match BrushSettings.tool settings with
  | Fill | Select => e
  | _ =>
      let e := {| points := points e ++ [point]; ctx := ctx e |} in
      let e := {| points := points e; ctx := Canvas.save (ctx e) |} in
      let e :=
        if decide (BrushSettings.tool settings = Eraser)
        then {| points := points e;
                ctx := Canvas.setGlobalCompositeOperation
                         "destination-out" (ctx e) |}
        else e in
      let e :=
        if (length (points e) <? 4)%nat
        then drawSimpleLine settings e
        else drawSpline settings e in
      {| points := points e; ctx := Canvas.restore (ctx e) |}
  end.

(** A coordinate that is NaN or infinite fails or passes the bounds
    test [v < 0 || v >= bound] as the comparisons of such numbers do:
    an infinity is out of bounds, NaN is not. *)
Definition outOfBounds (v : JS.number) (bound : Z) : bool :=
  match v with
  | JS.Fin q => Qle_bool (inject_Z bound) q || negb (Qle_bool 0 q)
  | JS.PInf | JS.NInf => true
  | JS.NaN => false
  end.

(** [floodFill(startX, startY, fillColor)] at a seed with a coordinate
    that is NaN or infinite, as [Math.round] hands them on. The array
    reads at such a seed give [undefined], so the target colour is four
    times [undefined] and is not the fill colour. A seed that fails the
    bounds test is skipped and the buffer is put back as it was read.
    A seed that passes has a NaN coordinate: it matches the target, its
    four writes are dropped, and two of the four coordinates it pushes
    are the seed again, so the loop does not end: [None]. *)
Definition floodFillAstray (startX startY : JS.number)
    (fillColor : string) (e : t) : option t :=
  match hexToRgb fillColor with
  | None => Some e
  | Some _ =>
      if outOfBounds startX (Canvas.width (ctx e))
         || outOfBounds startY (Canvas.height (ctx e))
      then
        Some {| points := points e;
                ctx := Canvas.putImageData (Canvas.pixels (ctx e))
                         (ctx e) |}
      else None
  end.

(** [startStroke(point, settings)]. The fill is seeded at the rounded
    coordinates, which are integers when the sample is finite; [None]
    stands for a fill that [fuel] iterations do not finish. *)
Definition startStroke (fuel : nat) (point : Point.t)
    (settings : BrushSettings.t) (e : t) : option t :=
  let e := {| points := [point]; ctx := ctx e |} in
  match BrushSettings.tool settings with
  | Fill =>
      match JS.round (Point.x point), JS.round (Point.y point) with
      | Some sx, Some sy =>
          floodFill fuel sx sy (BrushSettings.color settings) e
      | sx, sy =>
          floodFillAstray
            (from_option JS.ofZ (Point.x point) sx)
            (from_option JS.ofZ (Point.y point) sy)
            (BrushSettings.color settings) e
      end
  | _ => Some e
  end.

(** [endStroke()] *)
Definition endStroke (e : t) : t := {| points := []; ctx := ctx e |}.

End BrushEngine.

(** ** src/engine/AnimationLoop.ts *)
Module AnimationLoop.

Record t : Type := {
  fps : JS.number;
  isPlaying : bool;
  lastTime : JS.number;
  frameInterval : JS.number;
  totalFrames : JS.number;
  currentFrame : JS.number
}.

(** What one call leaves behind besides the fields: the arguments of
    the [onFrame] calls it made, in order, and the number of
    [requestAnimationFrame] requests. *)
Record Effects : Type := {
  onFrame : list JS.number;
  requested : nat
}.

(** The fields as the class initialises them. *)
Definition create : t :=
  {| fps := JS.ofZ 12; isPlaying := false; lastTime := JS.ofZ 0;
     frameInterval := JS.div (JS.ofZ 1000) (JS.ofZ 12);
     totalFrames := JS.ofZ 0; currentFrame := JS.ofZ 0 |}.

Definition setFPS (v : JS.number) (a : t) : t :=
  {| fps := v; isPlaying := isPlaying a; lastTime := lastTime a;
     frameInterval := JS.div (JS.ofZ 1000) v;
     totalFrames := totalFrames a; currentFrame := currentFrame a |}.

Definition setTotalFrames (total : JS.number) (a : t) : t :=
  {| fps := fps a; isPlaying := isPlaying a; lastTime := lastTime a;
     frameInterval := frameInterval a;
     totalFrames := total; currentFrame := currentFrame a |}.

(** [start(startFrame)], with the value [performance.now()] returns. *)
Definition start (startFrame now : JS.number) (a : t) : t * Effects :=
  ({| fps := fps a; isPlaying := true; lastTime := now;
      frameInterval := frameInterval a;
      totalFrames := totalFrames a; currentFrame := startFrame |},
   {| onFrame := []; requested := 1 |}).

Definition stop (a : t) : t :=
  {| fps := fps a; isPlaying := false; lastTime := lastTime a;
     frameInterval := frameInterval a;
     totalFrames := totalFrames a; currentFrame := currentFrame a |}.

(** [loop(now)]: one scheduling tick. *)
Definition loop (now : JS.number) (a : t) : t * Effects :=
  if negb (isPlaying a) then (a, {| onFrame := []; requested := 0 |})
  else
    let elapsed := JS.sub now (lastTime a) in
    if JS.ge elapsed (frameInterval a) then
      let framesToAdvance := JS.floor (JS.div elapsed (frameInterval a)) in
      let cur :=
        JS.rem (JS.add (currentFrame a) framesToAdvance) (totalFrames a) in
      let last := JS.sub now (JS.rem elapsed (frameInterval a)) in
      ({| fps := fps a; isPlaying := isPlaying a; lastTime := last;
          frameInterval := frameInterval a;
          totalFrames := totalFrames a; currentFrame := cur |},
       {| onFrame := [cur]; requested := 1 |})
    else (a, {| onFrame := []; requested := 1 |}).

End AnimationLoop.

(** ** Results of operations that can throw *)

Inductive Result (A : Type) : Type :=
| Ok (a : A)
| Throw (msg : string).

Arguments Ok {A} a.
Arguments Throw {A} msg.

(** A computation over a state [S] that returns or throws; the state
    at the throw is kept. *)
Definition M (S A : Type) : Type := S -> Result A * S.

Definition ret {S A : Type} (a : A) : M S A := fun s => (Ok a, s).

Definition throw {S A : Type} (msg : string) : M S A :=
  fun s => (Throw msg, s).

Definition bind {S A B : Type} (m : M S A) (k : A -> M S B) : M S B :=
  fun s =>
    match m s with
    | (Ok a, s') => k a s'
    | (Throw msg, s') => (Throw msg, s')
    end.

Declare Scope action_scope.
Delimit Scope action_scope with action.

Notation "x <- m ;; k" := (bind m (fun x => k))
  (at level 100, m at next level, right associativity) : action_scope.
Notation "m ;;; k" := (bind m (fun _ => k))
  (at level 100, right associativity) : action_scope.

(** ** src/engine/StorageManager.ts *)
Module StorageManager.

Definition Blob : Type := list Byte.byte.

(** The database [AnimaFlowDB] of the browser: its two object stores.
    It exists whether or not a manager holds a connection to it. *)
Record IDB : Type := {
  layers : gmap string Blob;
  frames : gmap string Frame.t
}.

(** [db] tells whether [this.db] holds a connection. *)
Record t : Type := {
  db : bool;
  idb : IDB
}.

Definition notInitialized : string := "DB not initialized".

(** [init()] when the open request succeeds. *)
Definition init : M t unit :=
  fun s => (Ok tt, {| db := true; idb := idb s |}).

Definition saveLayer (id : string) (blob : Blob) : M t unit :=
  fun s =>
    if negb (db s) then (Throw notInitialized, s)
    else
      (Ok tt,
       {| db := db s;
          idb := {| layers := <[id := blob]> (layers (idb s));
                    frames := frames (idb s) |} |}).

(** [request.result || null]: a stored blob, or [None] for [null]. *)
Definition getLayer (id : string) : M t (option Blob) :=
  fun s =>
    if negb (db s) then (Throw notInitialized, s)
    else (Ok (layers (idb s) !! id), s).

Definition deleteLayer (id : string) : M t unit :=
  fun s =>
    if negb (db s) then (Throw notInitialized, s)
    else if decide (id = EmptyString) then (Ok tt, s)
    else
      (Ok tt,
       {| db := db s;
          idb := {| layers := delete id (layers (idb s));
                    frames := frames (idb s) |} |}).

Definition copyLayer (sourceId destId : string) : M t unit :=
  (blob <- getLayer sourceId ;;
   match blob with
   | Some b => saveLayer destId b
   | None => ret tt
   end)%action.

(** [store.put(frame)]: the key is the frame's [id]. *)
Definition saveFrame (frame : Frame.t) : M t unit :=
  fun s =>
    if negb (db s) then (Throw notInitialized, s)
    else
      (Ok tt,
       {| db := db s;
          idb := {| layers := layers (idb s);
                    frames := <[Frame.id frame := frame]>
                                (frames (idb s)) |} |}).

(** [store.getAll()]: the records in the order of their keys. *)
Definition getAllFrames : M t (list Frame.t) :=
  fun s =>
    if negb (db s) then (Throw notInitialized, s)
    else
      (Ok (merge_sort
             (fun a b => Is_true (String.leb (Frame.id a) (Frame.id b)))
             (snd <$> map_to_list (frames (idb s)))), s).

End StorageManager.

(** ** src/App.tsx: frame list, history and their handlers

    Each handler is run to completion before the next one starts: its
    awaits resolve in order and the component re-renders in between.
    Drawing on the canvases is outside this model; the blob that
    [toBlob] hands to [handlePointerUp] is an argument. *)
Module App.

Import StorageManager.

Record t : Type := {
  frames : list Frame.t;
  currentFrameIndex : nat;
  activeLayer : LayerType;
  isPlaying : bool;
  undoStack : list (option Blob);
  redoStack : list (option Blob);
  storageManager : StorageManager.t
}.

(** The four values [crypto.randomUUID()] returns while one frame is
    created, in the order of the calls. *)
Record UUIDs : Type := {
  frameId : string;
  backgroundId : string;
  lineartId : string;
  colorId : string
}.

Definition createNewFrame (u : UUIDs) (index : nat) : Frame.t :=
  {| Frame.id := frameId u;
     Frame.index := index;
     Frame.layers :=
       {| Frame.background := backgroundId u;
          Frame.lineart := lineartId u;
          Frame.color := colorId u |} |}.

(** [setFrames(fs)]. The new array makes [loadFrameToCanvas] a new
    callback, so the effect that depends on it runs and empties both
    history stacks. *)
Definition setFrames (fs : list Frame.t) : M t unit :=
  fun s =>
    (Ok tt,
     {| frames := fs; currentFrameIndex := currentFrameIndex s;
        activeLayer := activeLayer s; isPlaying := isPlaying s;
        undoStack := []; redoStack := [];
        storageManager := storageManager s |}).

(** [setCurrentFrameIndex(i)]. An unchanged value causes no render;
    a changed one runs the same effect. *)
Definition setCurrentFrameIndex (i : nat) : M t unit :=
  fun s =>
    if decide (i = currentFrameIndex s) then (Ok tt, s)
    else
      (Ok tt,
       {| frames := frames s; currentFrameIndex := i;
          activeLayer := activeLayer s; isPlaying := isPlaying s;
          undoStack := []; redoStack := [];
          storageManager := storageManager s |}).

Definition setUndoStack
    (f : list (option Blob) -> list (option Blob)) : M t unit :=
  fun s =>
    (Ok tt,
     {| frames := frames s; currentFrameIndex := currentFrameIndex s;
        activeLayer := activeLayer s; isPlaying := isPlaying s;
        undoStack := f (undoStack s); redoStack := redoStack s;
        storageManager := storageManager s |}).

Definition setRedoStack
    (f : list (option Blob) -> list (option Blob)) : M t unit :=
  fun s =>
    (Ok tt,
     {| frames := frames s; currentFrameIndex := currentFrameIndex s;
        activeLayer := activeLayer s; isPlaying := isPlaying s;
        undoStack := undoStack s; redoStack := f (redoStack s);
        storageManager := storageManager s |}).

(** A call on [storageManager.current]. *)
Definition storage {A : Type} (op : M StorageManager.t A) : M t A :=
  fun s =>
    let '(r, sm) := op (storageManager s) in
    (r,
     {| frames := frames s; currentFrameIndex := currentFrameIndex s;
        activeLayer := activeLayer s; isPlaying := isPlaying s;
        undoStack := undoStack s; redoStack := redoStack s;
        storageManager := sm |}).

(** [l.filter((a, i) => keep(a, i))], counting positions from [i]. *)
Fixpoint filterFrom {A : Type} (keep : A -> nat -> bool) (i : nat)
    (l : list A) : list A :=
  match l with
  | [] => []
  | a :: rest =>
      if keep a i then a :: filterFrom keep (S i) rest
      else filterFrom keep (S i) rest
  end.

(** [fs.map((f, i) => ({ ...f, index: i }))] *)
Definition reindex (fs : list Frame.t) : list Frame.t :=
  imap (fun i f => Frame.withIndex f i) fs.

(** [l.splice(i, 0, a)] on a copy of [l]. *)
Definition spliceInsert {A : Type} (i : nat) (a : A) (l : list A)
    : list A :=
  take i l ++ a :: drop i l.

Local Open Scope action_scope.

Definition addFrame (u : UUIDs) : M t unit :=
  fun s0 =>
    let newFrame := createNewFrame u (length (frames s0)) in
    let newFrames := frames s0 ++ [newFrame] in
    (setFrames newFrames ;;;
     storage (saveFrame newFrame) ;;;
     setCurrentFrameIndex (length newFrames - 1)) s0.

Definition duplicateFrame (index : nat) (u : UUIDs) : M t unit :=
  fun s0 =>
    match frames s0 !! index with
    | None => ret tt s0
    | Some sourceFrame =>
        let newFrame := createNewFrame u (index + 1) in
        (storage (copyLayer (Frame.layer sourceFrame Background)
                            (Frame.layer newFrame Background)) ;;;
         storage (copyLayer (Frame.layer sourceFrame Lineart)
                            (Frame.layer newFrame Lineart)) ;;;
         storage (copyLayer (Frame.layer sourceFrame Color)
                            (Frame.layer newFrame Color)) ;;;
         let newFrames := spliceInsert (index + 1) newFrame (frames s0) in
         let reindexedFrames := reindex newFrames in
         setFrames reindexedFrames ;;;
         storage (saveFrame newFrame) ;;;
         setCurrentFrameIndex (index + 1)) s0
    end.

Definition deleteFrame (index : nat) : M t unit :=
  fun s0 =>
    if (length (frames s0) <=? 1)%nat then ret tt s0
    else
      match frames s0 !! index with
      | None => ret tt s0
      | Some frameToDelete =>
          let newFrames :=
            reindex
              (filterFrom (fun _ i => negb (i =? index)%nat) 0
                 (frames s0)) in
          (setFrames newFrames ;;;
           storage (deleteLayer (Frame.layer frameToDelete Background)) ;;;
           storage (deleteLayer (Frame.layer frameToDelete Lineart)) ;;;
           storage (deleteLayer (Frame.layer frameToDelete Color)) ;;;
           if (length newFrames <=? currentFrameIndex s0)%nat
           then setCurrentFrameIndex (Nat.max 0 (length newFrames - 1))
           else ret tt) s0
      end.

(** [prev.slice(-n)] *)
Definition sliceLast {A : Type} (n : nat) (l : list A) : list A :=
  drop (length l - n) l.

(** [prev.slice(0, -1)] *)
Definition sliceInit {A : Type} (l : list A) : list A :=
  take (length l - 1) l.

(** The history part of [handlePointerDown]: the snapshot of the
    active layer taken at the start of a stroke. *)
Definition handlePointerDown : M t unit :=
  fun s0 =>
    if isPlaying s0 then ret tt s0
    else
      match frames s0 !! currentFrameIndex s0 with
      | None => ret tt s0
      | Some frame =>
          (currentBlob <-
             storage (getLayer (Frame.layer frame (activeLayer s0))) ;;
           setUndoStack (fun prev => sliceLast 19 prev ++ [currentBlob]) ;;;
           setRedoStack (fun _ => [])) s0
      end.

(** [handlePointerUp] with the blob that [toBlob] produced. *)
Definition handlePointerUp (blob : option Blob) : M t unit :=
  fun s0 =>
    match blob with
    | None => ret tt s0
    | Some b =>
        match frames s0 !! currentFrameIndex s0 with
        | None => ret tt s0
        | Some frame =>
            storage (saveLayer (Frame.layer frame (activeLayer s0)) b) s0
        end
    end.

(** Writing a snapshot back: the blob, or no layer for [null]. *)
Definition restoreLayer (id : string) (snapshot : option Blob)
    : M t unit :=
  match snapshot with
  | Some b => storage (saveLayer id b)
  | None => storage (deleteLayer id)
  end.

Definition undo : M t unit :=
  fun s0 =>
    match last (undoStack s0) with
    | None => ret tt s0
    | Some prevBlob =>
        match frames s0 !! currentFrameIndex s0 with
        | None => ret tt s0
        | Some frame =>
            let id := Frame.layer frame (activeLayer s0) in
            (currentBlob <- storage (getLayer id) ;;
             setRedoStack (fun prev => prev ++ [currentBlob]) ;;;
             setUndoStack sliceInit ;;;
             restoreLayer id prevBlob) s0
        end
    end.

Definition redo : M t unit :=
  fun s0 =>
    match last (redoStack s0) with
    | None => ret tt s0
    | Some nextBlob =>
        match frames s0 !! currentFrameIndex s0 with
        | None => ret tt s0
        | Some frame =>
            let id := Frame.layer frame (activeLayer s0) in
            (currentBlob <- storage (getLayer id) ;;
             setUndoStack (fun prev => prev ++ [currentBlob]) ;;;
             setRedoStack sliceInit ;;;
             restoreLayer id nextBlob) s0
        end
    end.

(** The state after a handler, whether it returned or threw. *)
Definition after {A : Type} (m : M t A) (s : t) : t := snd (m s).

(** A handler run [n] times in a row. *)
Fixpoint times (n : nat) (m : M t unit) (s : t) : t :=
  match n with
  | O => s
  | S n' => times n' m (after m s)
  end.

(** One complete stroke: pointer down, then pointer up with the
    encoded canvas. *)
Definition mutation (b : Blob) (s : t) : t :=
  after (handlePointerUp (Some b)) (after handlePointerDown s).

(** The frame operations of the timeline. *)
Inductive FrameOp : Type :=
| AddFrame (u : UUIDs)
| DuplicateFrame (index : nat) (u : UUIDs)
| DeleteFrame (index : nat).

Definition runOp (op : FrameOp) (s : t) : t :=
  match op with
  | AddFrame u => after (addFrame u) s
  | DuplicateFrame i u => after (duplicateFrame i u) s
  | DeleteFrame i => after (deleteFrame i) s
  end.

Definition runOps (ops : list FrameOp) (s : t) : t :=
  fold_left (fun st op => runOp op st) ops s.

(** [fs.sort((a, b) => a.index - b.index)]. The sort of the host is
    stable: frames are ordered by [index] and frames with the same
    [index] keep their order. Computed by insertion from the right. *)
Fixpoint insertByIndex (f : Frame.t) (sorted : list Frame.t)
    : list Frame.t :=
  match sorted with
  | [] => [f]
  | g :: rest =>
      if (Frame.index f <=? Frame.index g)%nat then f :: g :: rest
      else g :: insertByIndex f rest
  end.

Definition sortByIndex (fs : list Frame.t) : list Frame.t :=
  foldr insertByIndex [] fs.

(** The effect that runs when the component is mounted: open the
    store and load its frames, or create the first frame. *)
Definition init (u : UUIDs) : M t unit :=
  fun s0 =>
    (storage StorageManager.init ;;;
     storedFrames <- storage getAllFrames ;;
     if (length storedFrames =? 0)%nat
     then
       let firstFrame := createNewFrame u 0 in
       setFrames [firstFrame] ;;;
       storage (saveFrame firstFrame)
     else setFrames (sortByIndex storedFrames)) s0.

(** [setActiveLayer(layer)]. A changed layer runs the effect that
    empties both history stacks. *)
Definition setActiveLayer (layer : LayerType) : M t unit :=
  fun s =>
    if decide (layer = activeLayer s) then (Ok tt, s)
    else
      (Ok tt,
       {| frames := frames s; currentFrameIndex := currentFrameIndex s;
          activeLayer := layer; isPlaying := isPlaying s;
          undoStack := []; redoStack := [];
          storageManager := storageManager s |}).

End App.

(** ** Notions used to state the properties of the flood fill *)
Module Raster.

(** A coordinate of the canvas. *)
Definition inBounds (w h : Z) (p : Z * Z) : Prop :=
  (0 <= p.1 < w)%Z /\ (0 <= p.2 < h)%Z.

(** [q] is one of the four axis neighbours of [p]. *)
Definition adjacent (p q : Z * Z) : Prop :=
  q = (p.1 + 1, p.2)%Z \/ q = (p.1 - 1, p.2)%Z
  \/ q = (p.1, p.2 + 1)%Z \/ q = (p.1, p.2 - 1)%Z.

(** The buffer has four bytes for every pixel of a [w] by [h] canvas. *)
Definition wellSized (w h : Z) (data : list Z) : Prop :=
  Z.of_nat (length data) = (4 * w * h)%Z.

Definition pixelAt (data : list Z) (w : Z) (p : Z * Z)
    : BrushEngine.Pixel :=
  BrushEngine.getPixel data w p.1 p.2.

(** The 4-connected region of the seed: the pixels reached from it
    through neighbours that all have the seed's colour. *)
Inductive region (w h : Z) (data : list Z) (seed : Z * Z)
    : Z * Z -> Prop :=
| region_seed : inBounds w h seed -> region w h data seed seed
| region_step p q :
    region w h data seed p ->
    adjacent p q ->
    inBounds w h q ->
    pixelAt data w q = pixelAt data w seed ->
    region w h data seed q.

#[global] Instance inBounds_dec w h p : Decision (inBounds w h p).
Proof. unfold inBounds. apply _. Defined.

(** The three colour bytes are bytes. *)
Definition byteRgb (rgb : Z * Z * Z) : Prop :=
  let '(r, g, b) := rgb in
  (0 <= r <= 255)%Z /\ (0 <= g <= 255)%Z /\ (0 <= b <= 255)%Z.

(** What holds of the loop state before every iteration of a fill of
    the buffer [data0] seeded at [seed] with the colour [rgb]. *)
Record Inv (w h : Z) (data0 : list Z) (seed : Z * Z) (rgb : Z * Z * Z)
    (s : BrushEngine.FillState) : Prop := {
  inv_sized : wellSized w h (BrushEngine.data s);
  inv_nodup : NoDup (BrushEngine.painted s);
  inv_region : forall p,
    p ∈ BrushEngine.painted s -> region w h data0 seed p;
  inv_pixels : forall p, inBounds w h p ->
    pixelAt (BrushEngine.data s) w p =
      if decide (p ∈ BrushEngine.painted s)
      then BrushEngine.opaque rgb else pixelAt data0 w p;
  inv_frontier : forall p q,
    p ∈ BrushEngine.painted s -> adjacent p q ->
    q ∈ BrushEngine.painted s \/ q ∈ BrushEngine.stack s
    \/ ~ (inBounds w h q /\ pixelAt data0 w q = pixelAt data0 w seed);
  inv_seed : seed ∈ BrushEngine.painted s \/ seed ∈ BrushEngine.stack s;
  inv_stack : forall q, q ∈ BrushEngine.stack s ->
    q = seed \/ exists p, p ∈ BrushEngine.painted s /\ adjacent p q
}.

Arguments inv_sized {w h data0 seed rgb s} _.
Arguments inv_nodup {w h data0 seed rgb s} _.
Arguments inv_region {w h data0 seed rgb s} _ p _.
Arguments inv_pixels {w h data0 seed rgb s} _ p _.
Arguments inv_frontier {w h data0 seed rgb s} _ p q _ _.
Arguments inv_seed {w h data0 seed rgb s} _.
Arguments inv_stack {w h data0 seed rgb s} _ q _.

Definition pixelCount (w h : Z) : nat := (Z.to_nat w * Z.to_nat h)%nat.

(** The bound on the iterations left: a painted pixel pushes four
    coordinates and is never painted again. *)
Definition measure (w h : Z) (s : BrushEngine.FillState) : nat :=
  (4 * (pixelCount w h - length (BrushEngine.painted s))
   + length (BrushEngine.stack s))%nat.

(** A 2 by 2 canvas: red, red / blue, red. *)
Definition demo : list Z :=
  [255; 0; 0; 255;  255; 0; 0; 255;
   0; 0; 255; 255;  255; 0; 0; 255]%Z.

(** A browser for the examples: it takes the six-digit colours and no
    others, and a stroke paints the whole canvas opaque white. *)
Definition demoHost : Canvas.Host :=
  {| Canvas.parsesColor :=
       fun v => bool_decide (is_Some (BrushEngine.hexToRgb v));
     Canvas.rasterise := fun _ data => (fun _ => 255%Z) <$> data |}.

Definition demoEngine : BrushEngine.t :=
  {| BrushEngine.points := [];
     BrushEngine.ctx :=
       {| Canvas.host := demoHost;
          Canvas.width := 2; Canvas.height := 2; Canvas.pixels := demo;
          Canvas.state :=
            {| Canvas.lineWidth := JS.ofZ 1; Canvas.lineCap := "butt";
               Canvas.lineJoin := "miter";
               Canvas.strokeStyle := "#000000";
               Canvas.globalCompositeOperation := "source-over" |};
          Canvas.saved := []; Canvas.path := []; Canvas.strokes := [] |} |}.

End Raster.


(** ** Notions used to state the properties of the frame list and
    of the history *)
Module Editor.

Import StorageManager App.

(** The [index] fields are 0, 1, ... in list order. *)
Definition indicesOk (fs : list Frame.t) : Prop :=
  Frame.index <$> fs = seq 0 (length fs).

(** The layer a stroke, an undo or a redo works on: the active layer of
    the current frame. *)
Definition activeLayerId (s : App.t) : option string :=
  (fun f => Frame.layer f (activeLayer s)) <$>
    frames s !! currentFrameIndex s.

(** The store is initialised and the current frame exists with a
    non-empty id for the active layer, as generated ids are. *)
Definition editable (s : App.t) : Prop :=
  db (storageManager s) = true
  /\ exists id, activeLayerId s = Some id /\ id <> EmptyString.

(** The persisted blob of the layer [id]. *)
Definition storedLayer (id : string) (s : App.t) : option Blob :=
  layers (idb (storageManager s)) !! id.

(** The persisted record of the frame [id]. *)
Definition storedFrame (id : string) (s : App.t) : option Frame.t :=
  StorageManager.frames (idb (storageManager s)) !! id.

(** The [layers] collection with a snapshot written back under [id]. *)
Definition putSnapshot (id : string) (snapshot : option Blob)
    (m : gmap string Blob) : gmap string Blob :=
  match snapshot with
  | Some b => <[id := b]> m
  | None => delete id m
  end.

(** The state in which [undo] or [redo] ends on an editable state:
    the stacks are replaced and a snapshot is written back. *)
Definition restored (s : App.t) (id : string) (snapshot : option Blob)
    (undos redos : list (option Blob)) : App.t :=
  {| frames := frames s; currentFrameIndex := currentFrameIndex s;
     activeLayer := activeLayer s; isPlaying := isPlaying s;
     undoStack := undos; redoStack := redos;
     storageManager :=
       {| db := true;
          idb := {| layers :=
                      putSnapshot id snapshot
                        (layers (idb (storageManager s)));
                    StorageManager.frames :=
                      StorageManager.frames (idb (storageManager s)) |}
       |} |}.

(** Strokes made one after the other, each saving its blob. *)
Definition mutations (bs : list Blob) (s : App.t) : App.t :=
  fold_left (fun st b => mutation b st) bs s.

(** After [deleteFrame(index)], neither the record of the frame that
    was at [index] nor any of its three layer blobs is stored. *)
Definition deleteDestroysRecords (index : nat) (s : App.t) : Prop :=
  forall f, frames s !! index = Some f ->
    let s' := after (deleteFrame index) s in
    storedFrame (Frame.id f) s' = None
    /\ storedLayer (Frame.layer f Background) s' = None
    /\ storedLayer (Frame.layer f Lineart) s' = None
    /\ storedLayer (Frame.layer f Color) s' = None.

(** A handler that leaves the frame list as it finds it. *)
Definition keepsFrames {A : Type} (m : M App.t A) : Prop :=
  forall s, frames (snd (m s)) = frames s.

(** An editor with an initialised, empty store and no frame yet. *)
Definition blank : App.t :=
  {| frames := []; currentFrameIndex := 0; activeLayer := Lineart;
     isPlaying := false; undoStack := []; redoStack := [];
     storageManager :=
       {| db := true;
          idb := {| layers := ∅; StorageManager.frames := ∅ |} |} |}.

Definition uuidsA : UUIDs :=
  {| frameId := "frame-a"; backgroundId := "a-background";
     lineartId := "a-lineart"; colorId := "a-color" |}.

Definition uuidsB : UUIDs :=
  {| frameId := "frame-b"; backgroundId := "b-background";
     lineartId := "b-lineart"; colorId := "b-color" |}.

(** The editor after its first frame was added. *)
Definition oneFrame : App.t := after (addFrame uuidsA) blank.

(** Two frames were added, then a stroke was saved on the line art of
    the first one. *)
Definition twoFrames : App.t :=
  let s := after (addFrame uuidsB) (after (addFrame uuidsA) blank) in
  let s := after (setCurrentFrameIndex 0) s in
  mutation [Byte.x01] s.

(** A manager that has not run [init()]; its database holds a layer. *)
Definition notOpened : StorageManager.t :=
  {| db := false;
     idb := {| layers := {[ "a-lineart" := [Byte.x01] ]};
               StorageManager.frames := ∅ |} |}.

End Editor.

(** ** Notions used to state the properties of playback *)
Module Playback.

(** [a] modulo [b], for [b] positive: what is left of [a] after the
    whole multiples of [b]. *)
Definition Qmod (a b : Q) : Q := a - b * inject_Z (Qfloor (a / b)).

(** A loop of five frames at the default rate, started at frame 0 when
    the clock showed 1000 ms. *)
Definition fiveFrames : AnimationLoop.t :=
  fst (AnimationLoop.start (JS.ofZ 0) (JS.Fin 1000)
         (AnimationLoop.setTotalFrames (JS.ofZ 5) AnimationLoop.create)).

(** Ticks delivered one after the other: the loop after the last one
    and the arguments of all [onFrame] calls, in order. *)
Fixpoint ticks (nows : list JS.number) (a : AnimationLoop.t)
    : AnimationLoop.t * list JS.number :=
  match nows with
  | [] => (a, [])
  | now :: rest =>
      let '(a1, effects) := AnimationLoop.loop now a in
      let '(a2, calls) := ticks rest a1 in
      (a2, AnimationLoop.onFrame effects ++ calls)
  end.





End Playback.

(** ** Notions used to state the properties of strokes *)
Module Stroke.

(** A pointer sample with finite coordinates and pressure. *)
Definition sample (px py pr : Q) : Point.t :=
  {| Point.x := JS.Fin px; Point.y := JS.Fin py;
     Point.pressure := JS.Fin pr;
     Point.tiltX := JS.ofZ 0; Point.tiltY := JS.ofZ 0;
     Point.timestamp := JS.ofZ 0 |}.

(** The coordinates of a sample are finite. *)
Definition finiteXY (p : Point.t) : Prop :=
  exists px py, Point.x p = JS.Fin px /\ Point.y p = JS.Fin py.

(** The coordinates that a path command names. *)
Definition target (c : Canvas.PathCmd) : JS.number * JS.number :=
  match c with
  | Canvas.MoveTo px py => (px, py)
  | Canvas.LineTo px py => (px, py)
  end.

(** The path command that iteration [i] of the spline loop appends. *)
Definition splineCmd (p0 p1 p2 p3 : Point.t) (i : nat) : Canvas.PathCmd :=
  let '(cx, cy) := BrushEngine.splinePoint p0 p1 p2 p3 i in
  if (i =? 0)%nat then Canvas.MoveTo cx cy else Canvas.LineTo cx cy.

Definition brush (sz : Q) : BrushSettings.t :=
  {| BrushSettings.tool := Brush; BrushSettings.size := JS.Fin sz;
     BrushSettings.color := "#000000";
     BrushSettings.opacity := JS.ofZ 1;
     BrushSettings.smoothing := JS.Fin (1 # 2) |}.

(** An engine on the canvas of [Raster.demoEngine] holding the given
    samples. *)
Definition engineWith (pts : list Point.t) : BrushEngine.t :=
  {| BrushEngine.points := pts;
     BrushEngine.ctx := BrushEngine.ctx Raster.demoEngine |}.

(** Three samples along a line, the pen pressing harder at the end. *)
Definition threeSamples : list Point.t :=
  [sample 0 0 (1 # 4); sample 1 0 (1 # 4); sample 2 0 (3 # 4)].

(** Four samples, the pen resting between the second and the third. *)
Definition restingSamples : list Point.t :=
  [sample 0 0 (1 # 2); sample 1 0 (1 # 2); sample 1 0 (1 # 2);
   sample 2 0 (1 # 2)].


End Stroke.

(** ** Notions used to state the properties of the store *)
Module Store.

Import StorageManager.

(** Every record of the [frames] collection is stored under its own
    [id], as the key path of the object store has it. *)
Definition keyed (sm : StorageManager.t) : Prop :=
  forall k f, frames (idb sm) !! k = Some f -> Frame.id f = k.

(** The order of [getAllFrames]: by key. *)
Definition byId (a b : Frame.t) : Prop :=
  Is_true (String.leb (Frame.id a) (Frame.id b)).

(** An initialised manager over an empty database. *)
Definition opened : StorageManager.t :=
  {| db := true; idb := {| layers := ∅; frames := ∅ |} |}.

(** A manager whose database holds one blob under the empty key. *)
Definition withEmptyKey : StorageManager.t :=
  {| db := true;
     idb := {| layers := {[ EmptyString := [Byte.x09] ]};
               frames := ∅ |} |}.

(** A manager whose database holds a blob under ["a"]. *)
Definition withLayer : StorageManager.t :=
  {| db := true;
     idb := {| layers := {[ "a"%string := [Byte.x01] ]};
               frames := ∅ |} |}.

(** A frame record with the given id and index. *)
Definition record (id : string) (index : nat) : Frame.t :=
  {| Frame.id := id; Frame.index := index;
     Frame.layers :=
       {| Frame.background := id +:+ "-background";
          Frame.lineart := id +:+ "-lineart";
          Frame.color := id +:+ "-color" |} |}.

End Store.

(** ** Notions used to state the properties of colour strings *)
Module Colour.

(** The character of the hexadecimal digit [n], in upper or in lower
    case. *)
Definition hexChar (upper : bool) (n : Z) : ascii :=
  ascii_of_N
    (Z.to_N (if (n <? 10)%Z then 48 + n
             else if upper then 55 + n else 87 + n)%Z).

(** The two digits of the byte [v], each in its own case, put before
    [rest]. *)
Definition hexByte (upper1 upper2 : bool) (v : Z) (rest : string)
    : string :=
  String (hexChar upper1 (v / 16)%Z)
    (String (hexChar upper2 (v mod 16)%Z) rest).

(** A spelling of a colour: its six hexadecimal digits, the digit at
    each of the places 0 to 5 in upper case where [upper] says so and
    in lower case elsewhere, with or without the [#]. *)
Definition formatHex (hash : bool) (upper : nat -> bool)
    (rgb : Z * Z * Z) : string :=
  let '(r, g, b) := rgb in
  let body :=
    hexByte (upper 0%nat) (upper 1%nat) r
      (hexByte (upper 2%nat) (upper 3%nat) g
         (hexByte (upper 4%nat) (upper 5%nat) b EmptyString)) in
  if hash then String "#"%char body else body.

End Colour.

(** ** Notions used to state the properties of a session *)
Module Session.

Import StorageManager App.

(** What the user does in the editor. *)
Inductive Event : Type :=
| Stroke (blob : Blob)
| Undo
| Redo
| SelectLayer (layer : LayerType)
| SelectFrame (index : nat)
| Frames (op : FrameOp).

Definition runEvent (ev : Event) (s : App.t) : App.t :=
  match ev with
  | Stroke b => mutation b s
  | Undo => after undo s
  | Redo => after redo s
  | SelectLayer l => after (setActiveLayer l) s
  | SelectFrame i => after (setCurrentFrameIndex i) s
  | Frames op => runOp op s
  end.

Definition runEvents (evs : list Event) (s : App.t) : App.t :=
  fold_left (fun st ev => runEvent ev st) evs s.

(** The event is a stroke, an undo or a redo. *)
Definition isEdit (ev : Event) : Prop :=
  match ev with
  | Stroke _ | Undo | Redo => True
  | _ => False
  end.

(** The number of snapshots the history holds. *)
Definition snapshots (s : App.t) : nat :=
  (length (undoStack s) + length (redoStack s))%nat.

(** The manager after a snapshot is written back under [id]. *)
Definition writeBack (id : string) (snapshot : option Blob)
    (sm : StorageManager.t) : StorageManager.t :=
  snd (match snapshot with
       | Some b => saveLayer id b
       | None => deleteLayer id
       end sm).

(** The editor [s] with other history stacks and another manager. *)
Definition withHistory (s : App.t) (undos redos : list (option Blob))
    (sm : StorageManager.t) : App.t :=
  {| frames := frames s; currentFrameIndex := currentFrameIndex s;
     activeLayer := activeLayer s; isPlaying := isPlaying s;
     undoStack := undos; redoStack := redos; storageManager := sm |}.

(** A handler that leaves both history stacks as they are or empties
    both. *)
Definition tame {A : Type} (m : M App.t A) : Prop :=
  forall s,
    (undoStack (snd (m s)) = undoStack s
     /\ redoStack (snd (m s)) = redoStack s)
    \/ (undoStack (snd (m s)) = [] /\ redoStack (snd (m s)) = []).

(** What an edit leaves alone. *)
Definition untouched (id' : string) (s s' : App.t) : Prop :=
  Editor.storedLayer id' s' = Editor.storedLayer id' s
  /\ StorageManager.frames (idb (storageManager s'))
     = StorageManager.frames (idb (storageManager s))
  /\ frames s' = frames s
  /\ currentFrameIndex s' = currentFrameIndex s
  /\ activeLayer s' = activeLayer s.

(** [togglePlayback()], as far as the editor goes: [isPlaying] flips;
    that makes [loadFrameToCanvas] a new callback, so the effect that
    depends on it runs and empties both history stacks. Starting and
    stopping the animation loop is the loop's part. *)
Definition togglePlayback (s : App.t) : App.t :=
  {| frames := frames s; currentFrameIndex := currentFrameIndex s;
     activeLayer := activeLayer s; isPlaying := negb (isPlaying s);
     undoStack := []; redoStack := [];
     storageManager := storageManager s |}.

(** The [layers] collection after [copyLayer(sourceId, destId)]. *)
Definition copied (sourceId destId : string) (m : gmap string Blob)
    : gmap string Blob :=
  match m !! sourceId with
  | Some b => <[destId := b]> m
  | None => m
  end.

(** The state a frame operation ends in when the store is initialised:
    a new frame list and current frame, an empty history, and new
    collections. *)
Definition settled (s : App.t) (fs : list Frame.t) (current : nat)
    (ls : gmap string Blob) (frs : gmap string Frame.t) : App.t :=
  {| frames := fs; currentFrameIndex := current;
     activeLayer := activeLayer s; isPlaying := isPlaying s;
     undoStack := []; redoStack := [];
     storageManager :=
       {| db := true;
          idb := {| layers := ls; StorageManager.frames := frs |} |} |}.

(** The layer ids of a new frame are unused: none of them holds a blob
    or is a layer id of the frame [src], and they differ from each
    other. *)
Definition freshLayers (u : UUIDs) (src : Frame.t)
    (m : gmap string Blob) : Prop :=
  m !! backgroundId u = None /\ m !! lineartId u = None
  /\ m !! colorId u = None
  /\ NoDup [backgroundId u; lineartId u; colorId u]
  /\ Forall (fun id => id ∉ [backgroundId u; lineartId u; colorId u])
       [Frame.layer src Background; Frame.layer src Lineart;
        Frame.layer src Color].

(** The frame list and the [frames] collection agree: every frame of
    the list is stored under its id as it is in the list, nothing else
    is stored, and no two frames share an id. *)
Definition inSync (s : App.t) : Prop :=
  StorageManager.frames (idb (storageManager s))
  = list_to_map ((fun f => (Frame.id f, f)) <$> frames s)
  /\ NoDup (Frame.id <$> frames s).

(** The editor before it is mounted, over an empty database. *)
Definition unmounted : App.t :=
  {| frames := []; currentFrameIndex := 0; activeLayer := Lineart;
     isPlaying := false; undoStack := []; redoStack := [];
     storageManager :=
       {| db := false;
          idb := {| layers := ∅; StorageManager.frames := ∅ |} |} |}.

(** The page is loaded again: the editor is unmounted and the database
    is the one the session [s] left. *)
Definition reopened (s : App.t) : App.t :=
  {| frames := []; currentFrameIndex := 0; activeLayer := Lineart;
     isPlaying := false; undoStack := []; redoStack := [];
     storageManager := {| db := false; idb := idb (storageManager s) |} |}.

(** A session that mounts the editor and then adds one frame for each
    of [us]. *)
Definition addingSession (u0 : UUIDs) (us : list UUIDs) : App.t :=
  fold_left (fun st u => after (addFrame u) st) us
    (after (init u0) unmounted).

Definition uuidsC : UUIDs :=
  {| frameId := "frame-c"; backgroundId := "c-background";
     lineartId := "c-lineart"; colorId := "c-color" |}.

End Session.

(** * Properties *)

(** Reduce the projections of the editor and store records. *)
Ltac fields :=
  cbn [App.storageManager StorageManager.db StorageManager.idb
       StorageManager.layers StorageManager.frames App.frames
       App.currentFrameIndex App.activeLayer App.isPlaying
       App.undoStack App.redoStack negb fst snd Editor.putSnapshot].

(** ** Flood fill *)
Module FloodFillProofs.

Import BrushEngine Raster.

Local Open Scope Z_scope.

Lemma colorsMatch_true c1 c2 : colorsMatch c1 c2 = true <-> c1 = c2.
Proof.
  destruct c1 as [[[a0 a1] a2] a3], c2 as [[[b0 b1] b2] b3].
  unfold colorsMatch.
  rewrite !andb_true_iff, !bool_decide_eq_true.
  split; [intros [[[-> ->] ->] ->]; reflexivity | intros [= -> -> -> ->]; auto].
Qed.

Lemma colorsMatch_false c1 c2 : colorsMatch c1 c2 = false <-> c1 <> c2.
Proof.
  rewrite <- colorsMatch_true. destruct (colorsMatch c1 c2); split; congruence.
Qed.

Lemma hexDigit_range c d : hexDigit c = Some d -> 0 <= d <= 15.
Proof.
  unfold hexDigit. intros H.
  repeat case_match; simplify_eq; lia.
Qed.

Lemma hexPair_range c1 c2 v : hexPair c1 c2 = Some v -> 0 <= v <= 255.
Proof.
  unfold hexPair. intros H.
  destruct (hexDigit c1) as [h|] eqn:E1; [|discriminate].
  destruct (hexDigit c2) as [l|] eqn:E2; [|discriminate].
  apply hexDigit_range in E1, E2. simplify_eq. lia.
Qed.

Lemma hexToRgb_range s rgb : hexToRgb s = Some rgb -> byteRgb rgb.
Proof.
  unfold hexToRgb. intros H.
  repeat case_match; simplify_eq;
    repeat match goal with
           | E : hexPair _ _ = Some _ |- _ => apply hexPair_range in E
           end; unfold byteRgb; auto.
Qed.

Lemma clamp_byte v : 0 <= v <= 255 -> clamp v = v.
Proof. unfold clamp. lia. Qed.

Lemma length_dataSet d i v : length (dataSet d i v) = length d.
Proof. unfold dataSet. case_match; [done|]. apply length_insert. Qed.

Lemma dataGet_dataSet_eq d i v :
  0 <= i < Z.of_nat (length d) ->
  dataGet (dataSet d i v) i = Some (clamp v).
Proof.
  intros Hi. unfold dataGet, dataSet.
  destruct (Z.ltb_spec i 0); [lia|].
  apply list_lookup_insert_eq. lia.
Qed.

Lemma dataGet_dataSet_ne d i j v :
  i <> j -> dataGet (dataSet d i v) j = dataGet d j.
Proof.
  intros Hij. unfold dataGet, dataSet.
  destruct (Z.ltb_spec j 0); [done|].
  destruct (Z.ltb_spec i 0); [done|].
  apply list_lookup_insert_ne. lia.
Qed.

Lemma length_paint d w q rgb :
  length (paint d w q.1 q.2 rgb) = length d.
Proof.
  destruct rgb as [[r g] b]. unfold paint.
  rewrite !length_dataSet. reflexivity.
Qed.

(** Distinct coordinates of the canvas have distinct offsets. *)
Lemma offset_inj w h p q :
  inBounds w h p -> inBounds w h q ->
  p.2 * w + p.1 = q.2 * w + q.1 -> p = q.
Proof.
  destruct p as [px py], q as [qx qy]. unfold inBounds. simpl.
  intros [Hpx Hpy] [Hqx Hqy] Heq.
  assert (py = qy) as ->.
  { destruct (Z.lt_trichotomy py qy) as [Hlt | [-> | Hlt]]; [|done|]; nia. }
  f_equal. lia.
Qed.

Lemma offset_range w h p :
  inBounds w h p -> 0 <= p.2 * w + p.1 < w * h.
Proof.
  destruct p as [px py]. unfold inBounds. simpl. intros [Hx Hy]. nia.
Qed.

Lemma pixelAt_paint_same w h d q rgb :
  wellSized w h d -> inBounds w h q -> byteRgb rgb ->
  pixelAt (paint d w q.1 q.2 rgb) w q = opaque rgb.
Proof.
  intros Hsz Hq Hrgb. destruct rgb as [[r g] b].
  destruct Hrgb as (Hr & Hg & Hb).
  pose proof (offset_range _ _ _ Hq) as Ho.
  unfold wellSized in Hsz.
  unfold pixelAt, getPixel, paint, opaque.
  set (i := (q.2 * w + q.1) * 4).
  repeat f_equal.
  - rewrite !dataGet_dataSet_ne by lia.
    rewrite dataGet_dataSet_eq by lia. by rewrite clamp_byte.
  - rewrite !dataGet_dataSet_ne by lia.
    rewrite dataGet_dataSet_eq by (rewrite ?length_dataSet; lia).
    by rewrite clamp_byte.
  - rewrite !dataGet_dataSet_ne by lia.
    rewrite dataGet_dataSet_eq by (rewrite ?length_dataSet; lia).
    by rewrite clamp_byte.
  - rewrite dataGet_dataSet_eq by (rewrite ?length_dataSet; lia).
    by rewrite clamp_byte.
Qed.

Lemma pixelAt_paint_other w h d p q rgb :
  inBounds w h p -> inBounds w h q -> p <> q ->
  pixelAt (paint d w q.1 q.2 rgb) w p = pixelAt d w p.
Proof.
  intros Hp Hq Hne. destruct rgb as [[r g] b].
  assert (p.2 * w + p.1 <> q.2 * w + q.1) as Hoff.
  { intros Heq. apply Hne. eapply offset_inj; eauto. }
  unfold pixelAt, getPixel, paint.
  rewrite !dataGet_dataSet_ne by lia. reflexivity.
Qed.

Lemma outside_spec w h px py :
  ((px <? 0) || (px >=? w) || (py <? 0) || (py >=? h)) = false
  <-> inBounds w h (px, py).
Proof.
  unfold inBounds. simpl.
  rewrite !orb_false_iff, !Z.ltb_ge, !Z.geb_leb, !Z.leb_gt. lia.
Qed.

(** More fuel does not change a result. *)
Lemma fillLoop_more_fuel w h target rgb n m s r :
  (n <= m)%nat ->
  fillLoop n w h target rgb s = Some r ->
  fillLoop m w h target rgb s = Some r.
Proof.
  revert m s. induction n as [|n IH]; intros m s Hle Hrun.
  - destruct m; simpl in *; destruct (fillStep w h target rgb s); done.
  - destruct m as [|m]; [lia|]. simpl in *.
    destruct (fillStep w h target rgb s); [|done].
    apply IH; [lia | done].
Qed.

Section Fill.

Variables (w h : Z) (data0 : list Z) (seed : Z * Z) (rgb : Z * Z * Z).

Hypothesis Hsized : wellSized w h data0.
Hypothesis Hseed : inBounds w h seed.
Hypothesis Hrgb : byteRgb rgb.
Hypothesis Hdistinct : pixelAt data0 w seed <> opaque rgb.

Let target : Pixel := pixelAt data0 w seed.

Local Abbreviation Inv := (Raster.Inv w h data0 seed rgb).
Local Abbreviation measure := (Raster.measure w h).
Local Abbreviation pixelCount := (Raster.pixelCount w h).

Lemma region_inBounds p : region w h data0 seed p -> inBounds w h p.
Proof. by destruct 1. Qed.

Lemma region_color p :
  region w h data0 seed p -> pixelAt data0 w p = target.
Proof. by destruct 1. Qed.

Lemma painted_bound s : Inv s -> (length (painted s) <= pixelCount)%nat.
Proof.
  intros HI.
  assert (painted s ⊆+ cprod (seqZ 0 w) (seqZ 0 h)) as Hsub.
  { apply NoDup_submseteq; [apply HI|].
    intros p Hp. apply (inv_region HI), region_inBounds in Hp.
    destruct Hp as [Hx Hy].
    apply list_elem_of_cprod. rewrite !elem_of_seqZ. lia. }
  apply submseteq_length in Hsub.
  rewrite list_cprod_list_prod, length_prod, !length_seqZ in Hsub.
  exact Hsub.
Qed.

Lemma Inv_init :
  Inv {| stack := [seed]; data := data0; painted := [] |}.
Proof.
  split; cbn [stack data painted].
  - exact Hsized.
  - constructor.
  - intros p Hp. by apply not_elem_of_nil in Hp.
  - intros p _. by rewrite decide_False by apply not_elem_of_nil.
  - intros p q Hp. by apply not_elem_of_nil in Hp.
  - right. apply list_elem_of_singleton. reflexivity.
  - intros q Hq. left. by apply list_elem_of_singleton in Hq.
Qed.

(** A pixel of the current buffer has the target colour exactly when
    it had it at the start and has not been painted. *)
Lemma current_target s p :
  Inv s -> inBounds w h p ->
  pixelAt (data s) w p = target <->
  (p ∉ painted s) /\ pixelAt data0 w p = target.
Proof.
  intros HI Hp. rewrite (inv_pixels HI p Hp).
  destruct (decide (p ∈ painted s)) as [Hin | Hout].
  - split; [|tauto]. intros Heq. exfalso. apply Hdistinct.
    symmetry. exact Heq.
  - tauto.
Qed.

Lemma step_skip s q rest :
  Inv s -> stack s = q :: rest ->
  ~ (inBounds w h q /\ pixelAt (data s) w q = target) ->
  Inv {| stack := rest; data := data s; painted := painted s |}.
Proof.
  intros HI Hst Hskip.
  assert (q ∈ painted s \/
          ~ (inBounds w h q /\ pixelAt data0 w q = target)) as Hq.
  { destruct (decide (q ∈ painted s)) as [|Hout]; [by left | right].
    intros [Hb Hc]. apply Hskip. split; [done|].
    apply current_target; auto. }
  split; cbn [stack data painted]; try apply HI.
  - intros p r Hp Hadj.
    destruct (inv_frontier HI p r Hp Hadj) as [?|[Hin|?]]; auto.
    rewrite Hst in Hin. apply elem_of_cons in Hin as [-> | Hin]; auto.
    destruct Hq; auto.
  - destruct (inv_seed HI) as [?|Hin]; auto.
    rewrite Hst in Hin. apply elem_of_cons in Hin as [<- | Hin]; auto.
    destruct Hq as [? | Hn]; auto.
    exfalso. apply Hn. split; [exact Hseed | reflexivity].
  - intros r Hr. apply (inv_stack HI). rewrite Hst. by right.
Qed.

Lemma step_paint s q rest :
  Inv s -> stack s = q :: rest ->
  inBounds w h q -> pixelAt (data s) w q = target ->
  Inv {| stack := (q.1, q.2 - 1) :: (q.1, q.2 + 1) :: (q.1 - 1, q.2)
                    :: (q.1 + 1, q.2) :: rest;
         data := paint (data s) w q.1 q.2 rgb;
         painted := q :: painted s |}.
Proof.
  intros HI Hst Hb Hc.
  apply current_target in Hc as [Hfresh Hc0]; [|done..].
  assert (region w h data0 seed q) as Hreg.
  { destruct (inv_stack HI q) as [-> | (p & Hp & Hadj)].
    - rewrite Hst. by left.
    - by constructor.
    - eapply region_step; eauto. by apply (inv_region HI). }
  split; cbn [stack data painted].
  - unfold wellSized. rewrite (length_paint _ _ q). apply HI.
  - constructor; [done | apply HI].
  - intros p [-> | Hp]%elem_of_cons; [done | by apply (inv_region HI)].
  - intros p Hp.
    destruct (decide (p = q)) as [-> | Hne].
    + rewrite decide_True by by left.
      apply (pixelAt_paint_same w h); [apply HI | done..].
    + rewrite (pixelAt_paint_other w h) by done.
      rewrite (inv_pixels HI p Hp).
      destruct (decide (p ∈ painted s)) as [Hin | Hout].
      * rewrite decide_True by by right. reflexivity.
      * rewrite decide_False; [done|].
        intros [?|?]%elem_of_cons; done.
  - intros p r [-> | Hp]%elem_of_cons Hadj.
    + right; left.
      destruct Hadj as [-> | [-> | [-> | ->]]];
        rewrite !elem_of_cons; auto 6.
    + destruct (inv_frontier HI p r Hp Hadj) as [?|[Hin|?]]; auto.
      * left. by right.
      * rewrite Hst in Hin. apply elem_of_cons in Hin as [-> | Hin].
        -- left. by left.
        -- right; left. rewrite !elem_of_cons. auto 6.
  - destruct (inv_seed HI) as [?|Hin].
    + left. by right.
    + rewrite Hst in Hin. apply elem_of_cons in Hin as [<- | Hin].
      * left. by left.
      * right. rewrite !elem_of_cons. auto 6.
  - intros r Hr. rewrite !elem_of_cons in Hr.
    destruct Hr as [-> | [-> | [-> | [-> | Hr]]]].
    + right. exists q. split; [by left|]. unfold adjacent. auto.
    + right. exists q. split; [by left|]. unfold adjacent. auto.
    + right. exists q. split; [by left|]. unfold adjacent. auto.
    + right. exists q. split; [by left|]. unfold adjacent. auto.
    + destruct (inv_stack HI r) as [-> | (p & Hp & Hadj)].
      * rewrite Hst. by right.
      * by left.
      * right. exists p. split; [by right | done].
Qed.

(** Every iteration keeps the invariant and lowers the measure. *)
Lemma fillStep_inv s s' :
  Inv s -> fillStep w h target rgb s = Some s' ->
  Inv s' /\ (measure s' < measure s)%nat.
Proof.
  intros HI Hstep. unfold fillStep in Hstep.
  destruct (stack s) as [|[px py] rest] eqn:Hst; [done|].
  destruct ((px <? 0) || (px >=? w) || (py <? 0) || (py >=? h))
    eqn:Hout.
  { injection Hstep as <-. split.
    - eapply step_skip; eauto. intros [Hb _].
      apply outside_spec in Hb. congruence.
    - unfold measure. simpl. rewrite Hst. simpl. lia. }
  apply outside_spec in Hout.
  destruct (colorsMatch (getPixel (data s) w px py) target) eqn:Hm;
    simpl in Hstep; injection Hstep as <-.
  - apply colorsMatch_true in Hm.
    pose proof (step_paint s (px, py) rest HI Hst Hout Hm) as HI'.
    split; [exact HI'|].
    pose proof (painted_bound _ HI') as Hbound.
    unfold measure in *. simpl in *. rewrite Hst. simpl. lia.
  - apply colorsMatch_false in Hm. split.
    + eapply step_skip; eauto. intros [_ Hc]. by apply Hm.
    + unfold measure. simpl. rewrite Hst. simpl. lia.
Qed.

(** The loop ends within [measure s] iterations, in a state that
    satisfies the invariant and has an empty stack. *)
Lemma fillLoop_terminates fuel s :
  Inv s -> (measure s <= fuel)%nat ->
  exists s', fillLoop fuel w h target rgb s = Some s'
             /\ Inv s' /\ stack s' = [].
Proof.
  revert s. induction fuel as [|fuel IH]; intros s HI Hfuel.
  - simpl. destruct (fillStep w h target rgb s) as [s'|] eqn:Hstep.
    + apply fillStep_inv in Hstep as [_ Hlt]; [lia | done].
    + exists s. split; [done|]. split; [done|].
      unfold fillStep in Hstep. destruct (stack s) as [|[? ?] ?]; [done|].
      repeat case_match; done.
  - simpl. destruct (fillStep w h target rgb s) as [s'|] eqn:Hstep.
    + apply fillStep_inv in Hstep as [HI' Hlt]; [|done].
      apply IH; [done | lia].
    + exists s. split; [done|]. split; [done|].
      unfold fillStep in Hstep. destruct (stack s) as [|[? ?] ?]; [done|].
      repeat case_match; done.
Qed.

(** With the stack empty, everything in the region has been painted. *)
Lemma region_painted s p :
  Inv s -> stack s = [] -> region w h data0 seed p -> p ∈ painted s.
Proof.
  intros HI Hst Hreg. induction Hreg as [Hb | p q Hp IH Hadj Hb Hc].
  - destruct (inv_seed HI) as [?|Hin]; [done|].
    rewrite Hst in Hin. by apply not_elem_of_nil in Hin.
  - destruct (inv_frontier HI p q IH Hadj) as [?|[Hin|Hn]]; [done|..].
    + rewrite Hst in Hin. by apply not_elem_of_nil in Hin.
    + exfalso. apply Hn. split; [done|]. exact Hc.
Qed.

End Fill.

(** The loop of a fill whose seed has a colour other than the fill
    colour: its result, for every fuel from [4 * w * h + 1] on. *)
Lemma fillLoop_result w h data0 seed rgb :
  wellSized w h data0 -> inBounds w h seed -> byteRgb rgb ->
  pixelAt data0 w seed <> opaque rgb ->
  exists s,
    (forall fuel, (4 * (Z.to_nat w * Z.to_nat h) + 1 <= fuel)%nat ->
       fillLoop fuel w h (pixelAt data0 w seed) rgb
         {| stack := [seed]; data := data0; painted := [] |} = Some s)
    /\ Inv w h data0 seed rgb s /\ stack s = [].
Proof.
  intros Hsz Hseed Hrgb Hne.
  pose proof (Inv_init w h data0 seed rgb Hsz) as H0.
  destruct (fillLoop_terminates w h data0 seed rgb Hseed Hrgb Hne
              (4 * (Z.to_nat w * Z.to_nat h) + 1)%nat _ H0)
    as (s & Hrun & HI & Hst).
  { unfold measure, pixelCount. simpl. lia. }
  exists s. split; [|done].
  intros fuel Hfuel. eapply fillLoop_more_fuel; eauto.
Qed.

(** Read [pixelAt] at a coordinate pair as the call of [getPixel]. *)
Ltac at_seed H := unfold pixelAt in H; cbn [fst snd] in H.

(** What the loop of a fill does, on the buffer: from an in-bounds
    seed whose colour is not the opaque fill colour it terminates,
    passes through the four writes once for each pixel of the seed's
    region and for no other coordinate, and leaves the region in the
    opaque fill colour and every other pixel as it was. *)
Lemma floodFillData_region w h data0 sx sy fillColor rgb :
  wellSized w h data0 ->
  inBounds w h (sx, sy) ->
  hexToRgb fillColor = Some rgb ->
  pixelAt data0 w (sx, sy) <> opaque rgb ->
  exists data1 log,
    (forall fuel, (4 * (Z.to_nat w * Z.to_nat h) + 1 <= fuel)%nat ->
       floodFillData fuel w h data0 sx sy fillColor = Some (data1, log))
    /\ NoDup log
    /\ (forall p, p ∈ log <-> region w h data0 (sx, sy) p)
    /\ wellSized w h data1
    /\ (forall p, region w h data0 (sx, sy) p ->
          pixelAt data1 w p = opaque rgb)
    /\ (forall p, inBounds w h p -> ~ region w h data0 (sx, sy) p ->
          pixelAt data1 w p = pixelAt data0 w p).
Proof.
  intros Hsz Hseed Hhex Hne.
  pose proof (hexToRgb_range _ _ Hhex) as Hrgb.
  destruct (fillLoop_result w h data0 (sx, sy) rgb Hsz Hseed Hrgb Hne)
    as (s & Hrun & HI & Hst).
  assert (forall p, p ∈ painted s <-> region w h data0 (sx, sy) p) as Hlog.
  { intros p. split; [apply HI|].
    intros Hp. eapply region_painted; eauto. }
  exists (data s), (painted s). repeat split.
  - intros fuel Hfuel. unfold floodFillData. rewrite Hhex.
    apply colorsMatch_false in Hne. at_seed Hne.
    rewrite Hne. at_seed Hrun.
    by rewrite (Hrun fuel Hfuel).
  - apply HI.
  - apply Hlog.
  - apply Hlog.
  - apply HI.
  - intros p Hp.
    rewrite (inv_pixels HI p)
      by (eapply region_inBounds; eauto).
    rewrite decide_True; [done | by apply Hlog].
  - intros p Hb Hp. rewrite (inv_pixels HI p Hb).
    rewrite decide_False; [done | by rewrite Hlog].
Qed.

(** C1. A fill of the canvas seeded inside it, on a pixel whose colour
    is not the opaque fill colour, terminates and returns the engine
    with a new pixel buffer and nothing else changed. The loop has
    painted each pixel of the seed's 4-connected region of that colour
    exactly once and nothing else; in the canvas the region has the
    opaque fill colour and every other pixel is as it was. *)
Theorem floodFill_paints_region (e : BrushEngine.t) sx sy fillColor rgb :
  wellSized (Canvas.width (ctx e)) (Canvas.height (ctx e))
    (Canvas.pixels (ctx e)) ->
  inBounds (Canvas.width (ctx e)) (Canvas.height (ctx e)) (sx, sy) ->
  hexToRgb fillColor = Some rgb ->
  pixelAt (Canvas.pixels (ctx e)) (Canvas.width (ctx e)) (sx, sy)
  <> opaque rgb ->
  exists e1 log,
    (forall fuel,
       (4 * (Z.to_nat (Canvas.width (ctx e))
             * Z.to_nat (Canvas.height (ctx e))) + 1 <= fuel)%nat ->
       floodFill fuel sx sy fillColor e = Some e1
       /\ floodFillData fuel (Canvas.width (ctx e))
            (Canvas.height (ctx e)) (Canvas.pixels (ctx e))
            sx sy fillColor
          = Some (Canvas.pixels (ctx e1), log))
    /\ e1 = {| points := points e;
               ctx := Canvas.putImageData (Canvas.pixels (ctx e1))
                        (ctx e) |}
    /\ NoDup log
    /\ (forall p,
          p ∈ log
          <-> region (Canvas.width (ctx e)) (Canvas.height (ctx e))
                (Canvas.pixels (ctx e)) (sx, sy) p)
    /\ wellSized (Canvas.width (ctx e)) (Canvas.height (ctx e))
         (Canvas.pixels (ctx e1))
    /\ (forall p,
          region (Canvas.width (ctx e)) (Canvas.height (ctx e))
            (Canvas.pixels (ctx e)) (sx, sy) p ->
          pixelAt (Canvas.pixels (ctx e1)) (Canvas.width (ctx e)) p
          = opaque rgb)
    /\ (forall p,
          inBounds (Canvas.width (ctx e)) (Canvas.height (ctx e)) p ->
          ~ region (Canvas.width (ctx e)) (Canvas.height (ctx e))
              (Canvas.pixels (ctx e)) (sx, sy) p ->
          pixelAt (Canvas.pixels (ctx e1)) (Canvas.width (ctx e)) p
          = pixelAt (Canvas.pixels (ctx e)) (Canvas.width (ctx e)) p).
Proof.
  intros Hsz Hseed Hhex Hne.
  destruct (floodFillData_region _ _ _ sx sy fillColor rgb
              Hsz Hseed Hhex Hne)
    as (data1 & log & Hrun & Hnd & Hlog & Hsz1 & Hin & Hout).
  exists {| points := points e;
            ctx := Canvas.putImageData data1 (ctx e) |}, log.
  split; [|done].
  intros fuel Hfuel. unfold floodFill.
  by rewrite (Hrun fuel Hfuel).
Qed.

(** A seed outside the canvas: the loop pops it and stops. *)
Lemma fillLoop_outside w h target rgb d seed fuel :
  ~ inBounds w h seed -> (1 <= fuel)%nat ->
  fillLoop fuel w h target rgb
    {| stack := [seed]; data := d; painted := [] |}
  = Some {| stack := []; data := d; painted := [] |}.
Proof.
  intros Hout Hfuel. destruct seed as [px py].
  destruct fuel as [|fuel]; [lia|].
  simpl. unfold fillStep at 1. simpl.
  destruct ((px <? 0) || (px >=? w) || (py <? 0) || (py >=? h))
    eqn:Hb.
  - by destruct fuel.
  - apply outside_spec in Hb. contradiction.
Qed.

(** The buffer a fill leaves, and what a second fill with the same
    arguments does to it. *)
Lemma floodFillData_idempotent w h data0 sx sy fillColor rgb :
  wellSized w h data0 ->
  hexToRgb fillColor = Some rgb ->
  exists data1 log,
    (forall fuel, (4 * (Z.to_nat w * Z.to_nat h) + 1 <= fuel)%nat ->
       floodFillData fuel w h data0 sx sy fillColor = Some (data1, log)
       /\ floodFillData fuel w h data1 sx sy fillColor
          = Some (data1, []))
    /\ (pixelAt data0 w (sx, sy) = opaque rgb -> data1 = data0).
Proof.
  intros Hsz Hhex.
  pose proof (hexToRgb_range _ _ Hhex) as Hrgb.
  destruct (decide (pixelAt data0 w (sx, sy) = opaque rgb)) as [Heq | Hne].
  { exists data0, []. split; [|done].
    apply colorsMatch_true in Heq. at_seed Heq.
    intros fuel _. unfold floodFillData. by rewrite Hhex, Heq. }
  pose proof Hne as Hne'.
  apply colorsMatch_false in Hne'. at_seed Hne'.
  destruct (decide (inBounds w h (sx, sy))) as [Hseed | Hout].
  - destruct (fillLoop_result w h data0 (sx, sy) rgb Hsz Hseed Hrgb Hne)
      as (s & Hrun & HI & Hst).
    exists (data s), (painted s). split; [|done].
    assert (pixelAt (data s) w (sx, sy) = opaque rgb) as Hdone.
    { rewrite (inv_pixels HI _ Hseed).
      rewrite decide_True; [done|].
      eapply region_painted; eauto. by constructor. }
    apply colorsMatch_true in Hdone. at_seed Hdone.
    intros fuel Hfuel. unfold floodFillData. rewrite Hhex, Hne', Hdone.
    at_seed Hrun.
    by rewrite (Hrun fuel Hfuel).
  - exists data0, []. split; [|done].
    intros fuel Hfuel. unfold floodFillData. rewrite Hhex, Hne'.
    rewrite fillLoop_outside by (done || lia). done.
Qed.

(** C7. With a fill colour that parses, a second fill with the same
    arguments returns the raster of the first fill; and a fill whose
    seed pixel already has the opaque fill colour returns the raster
    unchanged. *)
Theorem floodFill_idempotent (e : BrushEngine.t) sx sy fillColor rgb :
  wellSized (Canvas.width (ctx e)) (Canvas.height (ctx e))
    (Canvas.pixels (ctx e)) ->
  hexToRgb fillColor = Some rgb ->
  exists e1,
    (forall fuel,
       (4 * (Z.to_nat (Canvas.width (ctx e))
             * Z.to_nat (Canvas.height (ctx e))) + 1 <= fuel)%nat ->
       floodFill fuel sx sy fillColor e = Some e1
       /\ floodFill fuel sx sy fillColor e1 = Some e1)
    /\ (pixelAt (Canvas.pixels (ctx e)) (Canvas.width (ctx e)) (sx, sy)
        = opaque rgb ->
        Canvas.pixels (ctx e1) = Canvas.pixels (ctx e)).
Proof.
  intros Hsz Hhex.
  destruct (floodFillData_idempotent _ _ _ sx sy _ _ Hsz Hhex)
    as (data1 & log & Hrun & Hnoop).
  exists {| points := points e;
            ctx := Canvas.putImageData data1 (ctx e) |}.
  split.
  - intros fuel Hfuel. destruct (Hrun fuel Hfuel) as [H1 H2].
    unfold floodFill. rewrite H1. split; [done|].
    cbn [ctx points Canvas.putImageData Canvas.width Canvas.height
         Canvas.pixels]. rewrite H2. reflexivity.
  - intros Heq. simpl. by apply Hnoop.
Qed.

(** The fill of the red region of [demo] from its top left pixel. *)
Example floodFill_demo :
  floodFillData 17 2 2 demo 0 0 "#00ff00"
  = Some ([0; 255; 0; 255;  0; 255; 0; 255;
           0; 0; 255; 255;  0; 255; 0; 255],
          [(1, 1); (1, 0); (0, 0)]).
Proof. reflexivity. Qed.

Lemma floodFill_paints_region_witness :
  exists e1 log,
    (forall fuel, (4 * (Z.to_nat 2 * Z.to_nat 2) + 1 <= fuel)%nat ->
       floodFill fuel 0 0 "#00ff00" demoEngine = Some e1
       /\ floodFillData fuel 2 2 demo 0 0 "#00ff00"
          = Some (Canvas.pixels (ctx e1), log))
    /\ e1 = {| points := points demoEngine;
               ctx := Canvas.putImageData (Canvas.pixels (ctx e1))
                        (ctx demoEngine) |}
    /\ NoDup log
    /\ (forall p, p ∈ log <-> region 2 2 demo (0, 0) p)
    /\ wellSized 2 2 (Canvas.pixels (ctx e1))
    /\ (forall p, region 2 2 demo (0, 0) p ->
          pixelAt (Canvas.pixels (ctx e1)) 2 p = opaque (0, 255, 0))
    /\ (forall p, inBounds 2 2 p -> ~ region 2 2 demo (0, 0) p ->
          pixelAt (Canvas.pixels (ctx e1)) 2 p = pixelAt demo 2 p).
Proof.
  apply (floodFill_paints_region demoEngine 0 0 "#00ff00" (0, 255, 0)).
  - reflexivity.
  - unfold inBounds. simpl. lia.
  - reflexivity.
  - vm_compute. discriminate.
Defined.

Lemma floodFill_idempotent_witness :
  exists e1,
    (forall fuel, (4 * (Z.to_nat 2 * Z.to_nat 2) + 1 <= fuel)%nat ->
       floodFill fuel 0 0 "#00ff00" demoEngine = Some e1
       /\ floodFill fuel 0 0 "#00ff00" e1 = Some e1)
    /\ (pixelAt demo 2 (0, 0) = opaque (0, 255, 0) ->
        Canvas.pixels (ctx e1) = demo).
Proof.
  apply (floodFill_idempotent demoEngine 0 0 "#00ff00" (0, 255, 0)).
  - reflexivity.
  - reflexivity.
Defined.

End FloodFillProofs.

(** ** Persistence before initialisation *)
Module StorageProofs.

Import StorageManager Editor.

(** C9. Each of [saveLayer], [getLayer], [deleteLayer], [copyLayer],
    [saveFrame] and [getAllFrames], called on a manager whose [init()]
    has not completed, throws "DB not initialized" and leaves the
    manager and its database as they were. *)
Theorem operations_fail_before_init
    (sm : StorageManager.t) (id sourceId destId : string) (blob : Blob)
    (frame : Frame.t) :
  db sm = false ->
  saveLayer id blob sm = (Throw "DB not initialized", sm)
  /\ getLayer id sm = (Throw "DB not initialized", sm)
  /\ deleteLayer id sm = (Throw "DB not initialized", sm)
  /\ copyLayer sourceId destId sm = (Throw "DB not initialized", sm)
  /\ saveFrame frame sm = (Throw "DB not initialized", sm)
  /\ getAllFrames sm = (Throw "DB not initialized", sm).
Proof.
  intros Hdb.
  unfold saveLayer, getLayer, deleteLayer, copyLayer, saveFrame,
    getAllFrames, bind, getLayer, notInitialized.
  rewrite Hdb. simpl. repeat split; reflexivity.
Qed.

Lemma operations_fail_before_init_witness :
  saveLayer "a-lineart" [Byte.x02] notOpened
    = (Throw "DB not initialized", notOpened)
  /\ getLayer "a-lineart" notOpened
    = (Throw "DB not initialized", notOpened)
  /\ deleteLayer "a-lineart" notOpened
    = (Throw "DB not initialized", notOpened)
  /\ copyLayer "a-lineart" "b-lineart" notOpened
    = (Throw "DB not initialized", notOpened)
  /\ saveFrame (App.createNewFrame uuidsA 0) notOpened
    = (Throw "DB not initialized", notOpened)
  /\ getAllFrames notOpened = (Throw "DB not initialized", notOpened).
Proof.
  apply (operations_fail_before_init notOpened "a-lineart" "a-lineart"
           "b-lineart" [Byte.x02] (App.createNewFrame uuidsA 0)).
  reflexivity.
Defined.

(** After [init()] the same calls go through. *)
Example saveLayer_after_init :
  layers (idb (snd ((bind init (fun _ => saveLayer "k" [Byte.x07]))
                      notOpened))) !! "k"
  = Some [Byte.x07].
Proof. reflexivity. Qed.

End StorageProofs.

(** ** Frame list *)
Module FrameProofs.

Import StorageManager App Editor.

Lemma keepsFrames_ret {A : Type} (a : A) : keepsFrames (ret a).
Proof. intros s. reflexivity. Qed.

Lemma keepsFrames_storage {A : Type} (op : M StorageManager.t A) :
  keepsFrames (storage op).
Proof.
  intros s. unfold storage. by destruct (op (storageManager s)).
Qed.

Lemma keepsFrames_setCurrentFrameIndex i :
  keepsFrames (setCurrentFrameIndex i).
Proof. intros s. unfold setCurrentFrameIndex. by case_decide. Qed.

Lemma keepsFrames_bind {A B : Type} (m : M App.t A) (k : A -> M App.t B) :
  keepsFrames m -> (forall a, keepsFrames (k a)) -> keepsFrames (bind m k).
Proof.
  intros Hm Hk s. unfold bind. specialize (Hm s).
  destruct (m s) as [[a | msg] s1]; simpl in *; [|done].
  by rewrite Hk.
Qed.

Create HintDb frames.

#[local] Hint Resolve keepsFrames_ret keepsFrames_storage
  keepsFrames_setCurrentFrameIndex : frames.

(** A frame-keeping step either throws, leaving the list as it was, or
    hands over to the rest of the handler. *)
Lemma frames_after_bind {A B : Type} (m : M App.t A)
    (k : A -> M App.t B) (s : App.t) :
  keepsFrames m ->
  frames (snd (bind m k s)) = frames s
  \/ exists a s1, frames s1 = frames s
       /\ snd (bind m k s) = snd (k a s1).
Proof.
  intros Hm. unfold bind. specialize (Hm s).
  destruct (m s) as [[a | msg] s1]; simpl in *; [|by left].
  right. by exists a, s1.
Qed.

Lemma frames_after_setFrames {B : Type} fs (k : M App.t B) s :
  keepsFrames k ->
  frames (snd (bind (setFrames fs) (fun _ => k) s)) = fs.
Proof. intros Hk. unfold bind, setFrames. by rewrite Hk. Qed.

Lemma frames_addFrame u s :
  frames (after (addFrame u) s)
  = frames s ++ [createNewFrame u (length (frames s))].
Proof.
  unfold after, addFrame. apply frames_after_setFrames.
  apply keepsFrames_bind; auto with frames.
Qed.

Lemma frames_duplicateFrame i u s :
  frames (after (duplicateFrame i u) s) = frames s
  \/ (is_Some (frames s !! i)
      /\ frames (after (duplicateFrame i u) s)
         = reindex (spliceInsert (i + 1) (createNewFrame u (i + 1))
                      (frames s))).
Proof.
  unfold after, duplicateFrame.
  destruct (frames s !! i) as [src|] eqn:Hsrc; [|by left].
  match goal with
  | |- context [bind (storage ?c) ?k s] =>
      destruct (frames_after_bind (storage c) k s) as [H | (a1 & s1 & E1 & H)];
        [auto with frames | by left | rewrite H; clear H]
  end.
  match goal with
  | |- context [bind (storage ?c) ?k s1] =>
      destruct (frames_after_bind (storage c) k s1) as [H | (a2 & s2 & E2 & H)];
        [auto with frames | left; congruence | rewrite H; clear H]
  end.
  match goal with
  | |- context [bind (storage ?c) ?k s2] =>
      destruct (frames_after_bind (storage c) k s2) as [H | (a3 & s3 & E3 & H)];
        [auto with frames | left; congruence | rewrite H; clear H]
  end.
  right. split; [done|].
  apply frames_after_setFrames.
  apply keepsFrames_bind; auto with frames.
Qed.

Lemma frames_deleteFrame i s :
  frames (after (deleteFrame i) s) = frames s
  \/ ((1 < length (frames s))%nat /\ is_Some (frames s !! i)
      /\ frames (after (deleteFrame i) s)
         = reindex (filterFrom (fun _ j => negb (j =? i)%nat) 0
                      (frames s))).
Proof.
  unfold after, deleteFrame.
  destruct (Nat.leb_spec (length (frames s)) 1) as [Hle | Hgt]; [by left|].
  destruct (frames s !! i) as [f|] eqn:Hf; [|by left].
  right. split; [done|]. split; [done|].
  apply frames_after_setFrames.
  repeat (apply keepsFrames_bind; [auto with frames | intros _]).
  case_match; auto with frames.
Qed.

Lemma indicesOk_reindex fs : indicesOk (reindex fs).
Proof.
  unfold indicesOk, reindex. rewrite fmap_imap, length_imap.
  rewrite (imap_ext _ (fun j _ => id (0 + j)%nat)) by done.
  by rewrite imap_seq, list_fmap_id.
Qed.

Lemma indicesOk_addFrame u s :
  indicesOk (frames s) -> indicesOk (frames (after (addFrame u) s)).
Proof.
  unfold indicesOk. intros Hok. rewrite frames_addFrame.
  rewrite fmap_app, length_app, Hok. simpl.
  by rewrite seq_app.
Qed.

Lemma indicesOk_runOp op s :
  indicesOk (frames s) -> indicesOk (frames (runOp op s)).
Proof.
  intros Hok. destruct op as [u | i u | i]; simpl.
  - by apply indicesOk_addFrame.
  - destruct (frames_duplicateFrame i u s) as [-> | [_ ->]];
      [done | apply indicesOk_reindex].
  - destruct (frames_deleteFrame i s) as [-> | (_ & _ & ->)];
      [done | apply indicesOk_reindex].
Qed.

(** C4. From a frame list whose index fields are 0, 1, ... in list
    order, every sequence of add, duplicate and delete operations
    leads to a frame list whose index fields are again 0, 1, ... up to
    its length less one, in list order. *)
Theorem frame_indices_contiguous (ops : list FrameOp) (s : App.t) :
  indicesOk (frames s) ->
  Frame.index <$> frames (runOps ops s)
  = seq 0 (length (frames (runOps ops s))).
Proof.
  revert s. induction ops as [|op ops IH]; intros s Hok; simpl.
  - exact Hok.
  - apply IH. by apply indicesOk_runOp.
Qed.

Lemma frame_indices_contiguous_witness :
  Frame.index <$>
    frames (runOps [AddFrame uuidsA; DuplicateFrame 0 uuidsB;
                    DeleteFrame 1] twoFrames)
  = seq 0 (length (frames (runOps [AddFrame uuidsA; DuplicateFrame 0 uuidsB;
                                   DeleteFrame 1] twoFrames))).
Proof.
  apply (frame_indices_contiguous
           [AddFrame uuidsA; DuplicateFrame 0 uuidsB; DeleteFrame 1]
           twoFrames).
  reflexivity.
Defined.

(** The filter of [deleteFrame] removes the element at [i]. *)
Lemma filterFrom_delete {A : Type} (i k : nat) (l : list A) :
  filterFrom (fun _ j => negb (j =? i)%nat) k l
  = if decide (k <= i)%nat then delete (i - k)%nat l else l.
Proof.
  revert k. induction l as [|a rest IH]; intros k; simpl.
  - by case_decide.
  - rewrite IH. destruct (Nat.eqb_spec k i) as [-> | Hne]; simpl.
    + rewrite decide_False by lia. rewrite decide_True by lia.
      by rewrite Nat.sub_diag.
    + destruct (decide (k <= i)%nat) as [Hle | Hgt].
      * rewrite decide_True by lia.
        replace (i - k)%nat with (S (i - S k)) by lia. reflexivity.
      * rewrite decide_False by lia. reflexivity.
Qed.

Lemma length_frames_runOp op s :
  (1 <= length (frames s))%nat ->
  (1 <= length (frames (runOp op s)))%nat.
Proof.
  intros Hlen. destruct op as [u | i u | i]; simpl.
  - rewrite frames_addFrame, length_app. simpl. lia.
  - destruct (frames_duplicateFrame i u s) as [-> | [_ ->]]; [done|].
    unfold reindex, spliceInsert.
    rewrite length_imap, length_app. simpl. lia.
  - destruct (frames_deleteFrame i s) as [-> | (Hgt & Hi & ->)]; [done|].
    unfold reindex. rewrite length_imap, filterFrom_delete.
    rewrite decide_True by lia. rewrite Nat.sub_0_r.
    rewrite length_delete by done. lia.
Qed.

Lemma length_frames_runOps ops s :
  (1 <= length (frames s))%nat ->
  (1 <= length (frames (runOps ops s)))%nat.
Proof.
  revert s. induction ops as [|op ops IH]; intros s Hlen; simpl; [done|].
  apply IH. by apply length_frames_runOp.
Qed.

(** C8. With exactly one frame, [deleteFrame] returns at once: the
    frame list, the current frame index, the history and the store are
    all as before. Hence no sequence of frame operations leaves the
    editor without a frame. *)
Theorem deleteFrame_single_rejected
    (s : App.t) (index : nat) (ops : list FrameOp) :
  length (frames s) = 1%nat ->
  deleteFrame index s = (Ok tt, s)
  /\ (1 <= length (frames (runOps ops s)))%nat.
Proof.
  intros Hlen. split.
  - unfold deleteFrame. rewrite Hlen. reflexivity.
  - apply length_frames_runOps. lia.
Qed.

Lemma deleteFrame_single_rejected_witness :
  deleteFrame 0 (after (addFrame uuidsA) blank)
  = (Ok tt, after (addFrame uuidsA) blank)
  /\ (1 <= length (frames (runOps [DeleteFrame 0; DeleteFrame 0]
                            (after (addFrame uuidsA) blank))))%nat.
Proof.
  apply (deleteFrame_single_rejected (after (addFrame uuidsA) blank) 0
           [DeleteFrame 0; DeleteFrame 0]).
  reflexivity.
Defined.

(** On [twoFrames], which has two frames, [deleteFrame(0)] returns
    normally and the record of the deleted frame is still in the
    [frames] collection: deleting does not destroy it. *)
Lemma deleteFrame_keeps_frame_record :
  length (frames twoFrames) = 2%nat
  /\ fst (deleteFrame 0 twoFrames) = Ok tt
  /\ storedFrame "frame-a" (after (deleteFrame 0) twoFrames)
     = Some (createNewFrame uuidsA 0)
  /\ ~ deleteDestroysRecords 0 twoFrames.
Proof.
  assert (storedFrame "frame-a" (after (deleteFrame 0) twoFrames)
          = Some (createNewFrame uuidsA 0)) as Hkept
    by (vm_compute; reflexivity).
  split; [reflexivity|]. split; [reflexivity|]. split; [exact Hkept|].
  intros Hdestroyed.
  destruct (Hdestroyed (createNewFrame uuidsA 0)) as [Hgone _];
    [reflexivity|].
  simpl in Hgone. change (Frame.id (createNewFrame uuidsA 0))
    with "frame-a"%string in Hgone.
  rewrite Hkept in Hgone. discriminate.
Qed.

(** C5, amended. With an initialised store and more than one frame,
    deleting a frame whose three layer ids are non-empty returns
    normally, removes the blobs of its three layers from the [layers]
    collection, and leaves the [frames] collection as it was. *)
Theorem deleteFrame_removes_layers (s : App.t) (index : nat) (f : Frame.t) :
  db (storageManager s) = true ->
  (1 < length (frames s))%nat ->
  frames s !! index = Some f ->
  Frame.layer f Background <> EmptyString ->
  Frame.layer f Lineart <> EmptyString ->
  Frame.layer f Color <> EmptyString ->
  fst (deleteFrame index s) = Ok tt
  /\ storedLayer (Frame.layer f Background) (after (deleteFrame index) s)
     = None
  /\ storedLayer (Frame.layer f Lineart) (after (deleteFrame index) s)
     = None
  /\ storedLayer (Frame.layer f Color) (after (deleteFrame index) s)
     = None
  /\ StorageManager.frames
       (idb (storageManager (after (deleteFrame index) s)))
     = StorageManager.frames (idb (storageManager s)).
Proof.
  intros Hdb Hlen Hf Hb Hl Hc.
  unfold after, storedLayer, deleteFrame.
  destruct (Nat.leb_spec (length (frames s)) 1) as [Hle | _]; [lia|].
  rewrite Hf.
  destruct s as [fs cur al pl us rs [dbf [ls frs]]]. simpl in Hdb.
  subst dbf.
  unfold bind, setFrames, storage, deleteLayer, setCurrentFrameIndex, ret.
  fields.
  rewrite !decide_False by done.
  fields.
  assert (forall (m : gmap string Blob) a b c,
            delete c (delete b (delete a m)) !! a = None
            /\ delete c (delete b (delete a m)) !! b = None
            /\ delete c (delete b (delete a m)) !! c = None) as Hdel.
  { intros m a b c. rewrite !lookup_delete_None. tauto. }
  destruct (Hdel ls (Frame.layer f Background) (Frame.layer f Lineart)
              (Frame.layer f Color)) as (D1 & D2 & D3).
  repeat case_match; simplify_eq; cbn; auto.
Qed.

Lemma deleteFrame_removes_layers_witness :
  fst (deleteFrame 0 twoFrames) = Ok tt
  /\ storedLayer "a-background" (after (deleteFrame 0) twoFrames) = None
  /\ storedLayer "a-lineart" (after (deleteFrame 0) twoFrames) = None
  /\ storedLayer "a-color" (after (deleteFrame 0) twoFrames) = None
  /\ StorageManager.frames
       (idb (storageManager (after (deleteFrame 0) twoFrames)))
     = StorageManager.frames (idb (storageManager twoFrames)).
Proof.
  apply (deleteFrame_removes_layers twoFrames 0 (createNewFrame uuidsA 0)).
  - reflexivity.
  - simpl. lia.
  - reflexivity.
  - simpl. discriminate.
  - simpl. discriminate.
  - simpl. discriminate.
Defined.

End FrameProofs.

(** ** Undo and redo *)
Module HistoryProofs.

Import StorageManager App Editor.

Lemma sliceInit_snoc {A : Type} (l : list A) (a : A) :
  sliceInit (l ++ [a]) = l.
Proof.
  unfold sliceInit. rewrite length_app. simpl.
  replace (length l + 1 - 1)%nat with (length l) by lia.
  apply take_app_length.
Qed.

Lemma putSnapshot_lookup id snapshot (m : gmap string Blob) :
  putSnapshot id snapshot m !! id = snapshot.
Proof.
  destruct snapshot; simpl; [apply lookup_insert_eq | apply lookup_delete_eq].
Qed.

(** Writing back what was stored, over any earlier write, gives the
    collection back. *)
Lemma putSnapshot_back id snapshot (m : gmap string Blob) :
  putSnapshot id (m !! id) (putSnapshot id snapshot m) = m.
Proof.
  destruct (m !! id) as [b|] eqn:Hm, snapshot as [b'|]; simpl.
  - rewrite insert_insert_eq. by apply insert_id.
  - rewrite insert_delete_eq. by apply insert_id.
  - rewrite delete_insert_eq. by apply delete_id.
  - rewrite delete_delete_eq. by apply delete_id.
Qed.

Lemma undo_restores s id prev undos :
  db (storageManager s) = true ->
  activeLayerId s = Some id -> id <> EmptyString ->
  undoStack s = undos ++ [prev] ->
  undo s = (Ok tt,
            restored s id prev undos (redoStack s ++ [storedLayer id s])).
Proof.
  intros Hdb Hid Hne Hst. unfold activeLayerId in Hid.
  destruct (frames s !! currentFrameIndex s) as [f|] eqn:Hf;
    [|discriminate].
  injection Hid as Hid.
  unfold undo. rewrite Hst, last_snoc, Hf, Hid.
  destruct s as [fs cur al pl us rs [dbf [ls frs]]].
  simpl in Hdb, Hst. subst dbf us.
  unfold bind, storage, getLayer, setRedoStack, setUndoStack, restoreLayer,
    storedLayer, restored.
  fields.
  rewrite sliceInit_snoc.
  destruct prev as [b|]; unfold storage, saveLayer, deleteLayer;
    fields;
    [|rewrite decide_False by done]; reflexivity.
Qed.

Lemma redo_restores s id next redos :
  db (storageManager s) = true ->
  activeLayerId s = Some id -> id <> EmptyString ->
  redoStack s = redos ++ [next] ->
  redo s = (Ok tt,
            restored s id next (undoStack s ++ [storedLayer id s]) redos).
Proof.
  intros Hdb Hid Hne Hst. unfold activeLayerId in Hid.
  destruct (frames s !! currentFrameIndex s) as [f|] eqn:Hf;
    [|discriminate].
  injection Hid as Hid.
  unfold redo. rewrite Hst, last_snoc, Hf, Hid.
  destruct s as [fs cur al pl us rs [dbf [ls frs]]].
  simpl in Hdb, Hst. subst dbf rs.
  unfold bind, storage, getLayer, setRedoStack, setUndoStack, restoreLayer,
    storedLayer, restored.
  fields.
  rewrite sliceInit_snoc.
  destruct next as [b|]; unfold storage, saveLayer, deleteLayer;
    fields;
    [|rewrite decide_False by done]; reflexivity.
Qed.

(** One [redo] takes back one [undo]. *)
Lemma redo_undo s :
  editable s -> undoStack s <> [] -> after redo (after undo s) = s.
Proof.
  intros (Hdb & id & Hid & Hne) Hst.
  destruct (undoStack s) as [|x xs] eqn:Hus using rev_ind; [done|].
  clear IHxs Hst. unfold after.
  rewrite (undo_restores s id x xs Hdb Hid Hne Hus). simpl.
  rewrite (redo_restores _ id (storedLayer id s) (redoStack s));
    [|done..].
  destruct s as [fs cur al pl us rs [dbf [ls frs]]].
  simpl in Hdb, Hus. subst dbf us.
  unfold restored, storedLayer.
  fields.
  rewrite putSnapshot_lookup, putSnapshot_back. reflexivity.
Qed.

Lemma editable_undo s : editable s -> editable (after undo s).
Proof.
  intros (Hdb & id & Hid & Hne).
  destruct (undoStack s) as [|x xs] eqn:Hus using rev_ind.
  - unfold after, undo. rewrite Hus. simpl. by split; [|exists id].
  - clear IHxs. unfold after.
    rewrite (undo_restores s id x xs Hdb Hid Hne Hus). simpl.
    split; [done|]. by exists id.
Qed.

Lemma length_undoStack_undo s :
  editable s ->
  length (undoStack (after undo s)) = (length (undoStack s) - 1)%nat.
Proof.
  intros (Hdb & id & Hid & Hne).
  destruct (undoStack s) as [|x xs] eqn:Hus using rev_ind.
  - unfold after, undo. rewrite Hus. simpl. by rewrite Hus.
  - clear IHxs. unfold after.
    rewrite (undo_restores s id x xs Hdb Hid Hne Hus). simpl.
    rewrite length_app. simpl. lia.
Qed.

Lemma times_snoc n (m : M App.t unit) s :
  times (S n) m s = after m (times n m s).
Proof.
  revert s. induction n as [|n IH]; intros s; [done|].
  change (times (S (S n)) m s) with (times (S n) m (after m s)).
  by rewrite IH.
Qed.

(** [k] undos followed by [k] redos give the state back, as long as
    the undo stack holds [k] snapshots. *)
Lemma redo_undo_times k s :
  editable s -> (k <= length (undoStack s))%nat ->
  times k redo (times k undo s) = s.
Proof.
  revert s. induction k as [|k IH]; intros s Hed Hlen; [done|].
  rewrite times_snoc.
  change (times (S k) undo s) with (times k undo (after undo s)).
  rewrite IH.
  - apply redo_undo; [done|]. destruct (undoStack s); simpl in *; [lia|done].
  - by apply editable_undo.
  - rewrite length_undoStack_undo by done. lia.
Qed.

(** A stroke pushes the stored blob on the undo stack, keeping at most
    twenty snapshots, empties the redo stack and stores its own blob. *)
Lemma mutation_state b s id :
  db (storageManager s) = true ->
  activeLayerId s = Some id -> isPlaying s = false ->
  mutation b s
  = restored s id (Some b)
      (sliceLast 19 (undoStack s) ++ [storedLayer id s]) [].
Proof.
  intros Hdb Hid Hpl. unfold activeLayerId in Hid.
  destruct (frames s !! currentFrameIndex s) as [f|] eqn:Hf;
    [|discriminate].
  injection Hid as Hid.
  unfold mutation, after, handlePointerDown. rewrite Hpl, Hf, Hid.
  destruct s as [fs cur al pl us rs [dbf [ls frs]]].
  simpl in Hdb, Hf, Hid. subst dbf.
  unfold bind, storage, getLayer, setRedoStack, setUndoStack,
    handlePointerUp, storedLayer, restored.
  fields.
  rewrite Hf, Hid. unfold storage, saveLayer.
  fields.
  reflexivity.
Qed.

Lemma mutations_state bs s id :
  db (storageManager s) = true ->
  activeLayerId s = Some id -> isPlaying s = false ->
  db (storageManager (mutations bs s)) = true
  /\ activeLayerId (mutations bs s) = Some id
  /\ (Nat.min (length bs + length (undoStack s)) 20
      <= length (undoStack (mutations bs s)))%nat
  /\ (forall b, last bs = Some b ->
        storedLayer id (mutations bs s) = Some b).
Proof.
  revert s. induction bs as [|b bs IH]; intros s Hdb Hid Hpl.
  - simpl. repeat split; [done | done | lia | done].
  - unfold mutations. simpl.
    change (fold_left (fun st b0 => mutation b0 st) bs (mutation b s))
      with (mutations bs (mutation b s)).
    rewrite (mutation_state b s id Hdb Hid Hpl).
    set (s1 := restored s id (Some b) _ _).
    destruct (IH s1) as (H1 & H2 & H3 & H4); [done..|].
    split; [done|]. split; [done|]. split.
    + etrans; [|exact H3]. subst s1. unfold restored, sliceLast.
      cbn [undoStack]. rewrite length_app, length_drop. simpl. lia.
    + intros b' Hlast. destruct bs as [|b2 bs].
      * simpl in Hlast. injection Hlast as <-. simpl.
        subst s1. unfold storedLayer, restored. simpl.
        apply lookup_insert_eq.
      * apply H4. exact Hlast.
Qed.

(** C2. After at most twenty strokes on the active layer of the current
    frame, as many undos followed by as many redos lead back to the
    state the last stroke left: the store, with the blob of that stroke
    under the layer's id, and both history stacks. *)
Theorem undo_redo_symmetry (s : App.t) (bs : list Blob) :
  editable s -> isPlaying s = false ->
  (length bs <= 20)%nat ->
  times (length bs) redo (times (length bs) undo (mutations bs s))
  = mutations bs s
  /\ forall id b, activeLayerId s = Some id -> last bs = Some b ->
       storedLayer id
         (times (length bs) redo
            (times (length bs) undo (mutations bs s)))
       = Some b.
Proof.
  intros (Hdb & id & Hid & Hne) Hpl Hlen.
  destruct (mutations_state bs s id Hdb Hid Hpl) as (H1 & H2 & H3 & H4).
  assert (times (length bs) redo
            (times (length bs) undo (mutations bs s))
          = mutations bs s) as Hback.
  { apply redo_undo_times.
    - split; [done|]. by exists id.
    - lia. }
  split; [exact Hback|].
  intros id' b Hid' Hlast. rewrite Hback.
  assert (id' = id) as -> by congruence.
  by apply H4.
Qed.

Lemma undo_redo_symmetry_witness :
  times 3 redo
    (times 3 undo
       (mutations [[Byte.x01]; [Byte.x02]; [Byte.x03]] oneFrame))
  = mutations [[Byte.x01]; [Byte.x02]; [Byte.x03]] oneFrame
  /\ forall id b, activeLayerId oneFrame = Some id ->
       last [[Byte.x01]; [Byte.x02]; [Byte.x03]] = Some b ->
       storedLayer id
         (times 3 redo
            (times 3 undo
               (mutations [[Byte.x01]; [Byte.x02]; [Byte.x03]] oneFrame)))
       = Some b.
Proof.
  apply (undo_redo_symmetry oneFrame
           [[Byte.x01]; [Byte.x02]; [Byte.x03]]).
  - split; [reflexivity|]. exists "a-lineart"%string.
    split; [reflexivity | discriminate].
  - reflexivity.
  - simpl. lia.
Defined.

(** Three strokes, then three undos: the layer is absent again and the
    redo stack holds the three blobs. *)
Example undo_three_times :
  let s := times 3 undo
             (mutations [[Byte.x01]; [Byte.x02]; [Byte.x03]] oneFrame) in
  storedLayer "a-lineart" s = None
  /\ undoStack s = []
  /\ redoStack s = [Some [Byte.x03]; Some [Byte.x02]; Some [Byte.x01]].
Proof. vm_compute. auto. Qed.

End HistoryProofs.

(** ** Rounding to the nearest double *)
Module NumberProofs.

Import JS.

Local Open Scope Q_scope.

Lemma Qred_inject_Z z : Qred (inject_Z z) = inject_Z z.
Proof.
  unfold inject_Z, Qred.
  pose proof (Z.ggcd_gcd z 1) as Hg.
  pose proof (Z.ggcd_correct_divisors z 1) as Hd.
  destruct (Z.ggcd z 1) as [g [a b]]. simpl in *.
  rewrite Z.gcd_1_r in Hg. subst g.
  destruct Hd as [Ha Hb].
  assert (a = z) as -> by lia. assert (b = 1%Z) as -> by lia.
  reflexivity.
Qed.

Lemma nearest_comp p q : p == q -> nearest p = nearest q.
Proof. intros H. unfold nearest. by rewrite (Qred_complete _ _ H). Qed.

Lemma nearest_zero q : q == 0 -> nearest q = Fin 0.
Proof. intros H. by rewrite (nearest_comp _ _ H). Qed.

Lemma nearest_not_NaN q : nearest q <> NaN.
Proof.
  unfold nearest. destruct (Qeq_bool (Qred q) 0); [done|].
  destruct (Qle_bool huge _); [|done].
  by destruct (Qle_bool 0 _).
Qed.

Lemma scale_up q k :
  (0 <= k)%Z -> scale q k == q * inject_Z (2 ^ k).
Proof.
  intros Hk. destruct k as [|p|p]; [|reflexivity|lia].
  unfold scale. change (inject_Z (2 ^ 0)) with 1. ring.
Qed.

Lemma scale_down q k :
  (k <= 0)%Z -> scale q k == q / inject_Z (2 ^ (- k)).
Proof.
  intros Hk. destruct k as [|p|p]; [|lia|reflexivity].
  unfold scale. change (inject_Z (2 ^ (- 0))) with 1. field.
Qed.

Lemma rne_integer x m : x == inject_Z m -> rne x = m.
Proof.
  intros H. unfold rne.
  assert (Qfloor x = m) as ->
    by (rewrite (Qfloor_comp _ _ H); apply Qfloor_Z).
  assert ((x - inject_Z m ?= 1 # 2) = Lt) as ->; [|done].
  apply Qlt_alt.
  assert (x - inject_Z m == 0) as -> by (rewrite H; ring).
  reflexivity.
Qed.

Lemma pow2_nonzero k : (0 <= k)%Z -> ~ inject_Z (2 ^ k) == 0.
Proof.
  intros Hk. change 0 with (inject_Z 0). rewrite inject_Z_injective.
  pose proof (Z.pow_pos_nonneg 2 k). lia.
Qed.

Lemma binade_integer z :
  z <> 0%Z -> binade (inject_Z z) = Z.log2 (Z.abs z).
Proof.
  intros Hz. unfold binade. cbn [inject_Z Qnum Qden].
  change (Z.log2 1) with 0%Z. rewrite Z.sub_0_r.
  assert (Qle_bool (scale 1 (Z.log2 (Z.abs z))) (Qabs (inject_Z z)) = true)
    as ->; [|done].
  apply Qle_bool_iff.
  rewrite scale_up by apply Z.log2_nonneg. rewrite Qmult_1_l.
  change (Qabs (inject_Z z)) with (inject_Z (Z.abs z)).
  rewrite <- Zle_Qle. apply Z.log2_spec. lia.
Qed.

(** An integer of at most 53 bits is a double. *)
Lemma toPrecision_integer z :
  z <> 0%Z -> (Z.abs z <= 2 ^ 53)%Z ->
  toPrecision (inject_Z z) == inject_Z z.
Proof.
  intros Hz Hb. unfold toPrecision, lastPlace.
  rewrite binade_integer by done.
  set (k := Z.log2 (Z.abs z)).
  assert (0 <= k)%Z as Hk0 by apply Z.log2_nonneg.
  assert (2 ^ k <= Z.abs z < 2 ^ (k + 1))%Z as Hspec.
  { replace (k + 1)%Z with (Z.succ k) by lia. apply Z.log2_spec. lia. }
  assert (k <= 53)%Z as Hk.
  { destruct (Z.le_gt_cases k 53) as [|Hgt]; [done|].
    assert (2 ^ 54 <= 2 ^ k)%Z by (apply Z.pow_le_mono_r; lia).
    assert (2 ^ 53 < 2 ^ 54)%Z by (apply Z.pow_lt_mono_r; lia). lia. }
  replace (Z.max (k - 52) (-1074)) with (k - 52)%Z by lia.
  destruct (Z.le_gt_cases k 52) as [Hle | Hgt].
  - (* the last place is a fraction of one: scaling gives an integer *)
    rewrite (rne_integer _ (z * 2 ^ (52 - k))).
    + rewrite scale_down by lia.
      replace (- (k - 52))%Z with (52 - k)%Z by lia.
      rewrite inject_Z_mult. field. apply pow2_nonzero. lia.
    + rewrite scale_up by lia.
      replace (- (k - 52))%Z with (52 - k)%Z by lia.
      by rewrite inject_Z_mult.
  - (* [z] is [2^53] or its opposite *)
    assert (k = 53%Z) as Hk53 by lia. rewrite Hk53 in *.
    assert (Z.abs z = 2 ^ 53)%Z as Habs by lia.
    change (53 - 52)%Z with 1%Z.
    assert (z = 2 * (z / 2))%Z as Hhalf.
    { destruct (Z.abs_spec z) as [[_ Hp] | [_ Hn]].
      - rewrite Hp in Habs. rewrite Habs. reflexivity.
      - assert (z = - 2 ^ 53)%Z as -> by lia. reflexivity. }
    rewrite (rne_integer _ (z / 2)).
    + rewrite scale_up by lia. change (inject_Z (2 ^ 1)) with (inject_Z 2).
      rewrite <- inject_Z_mult. rewrite Z.mul_comm, <- Hhalf. reflexivity.
    + rewrite scale_down by lia.
      change (2 ^ (- - (1)))%Z with 2%Z.
      rewrite Hhalf at 1. rewrite inject_Z_mult. field.
Qed.

Lemma huge_above z :
  (Z.abs z <= 2 ^ 53)%Z -> Qle_bool huge (Qabs (inject_Z z)) = false.
Proof.
  intros Hb. apply not_true_is_false. rewrite Qle_bool_iff.
  change (Qabs (inject_Z z)) with (inject_Z (Z.abs z)).
  unfold huge. rewrite <- Zle_Qle.
  assert (2 ^ 53 < 2 ^ 1024)%Z by (apply Z.pow_lt_mono_r; lia). lia.
Qed.

Lemma nearest_integer z :
  (Z.abs z <= 2 ^ 53)%Z ->
  exists r, nearest (inject_Z z) = Fin r /\ r == inject_Z z.
Proof.
  intros Hb. unfold nearest. rewrite Qred_inject_Z.
  destruct (Z.eq_dec z 0%Z) as [-> | Hz]; [by exists 0|].
  assert (Qeq_bool (inject_Z z) 0 = false) as ->.
  { apply not_true_is_false. rewrite Qeq_bool_iff.
    change 0 with (inject_Z 0). by rewrite inject_Z_injective. }
  assert (Qred (toPrecision (inject_Z z)) == inject_Z z) as Hr
    by (rewrite Qred_correct; by apply toPrecision_integer).
  assert (Qle_bool huge (Qabs (Qred (toPrecision (inject_Z z)))) = false)
    as ->.
  { rewrite <- (huge_above z Hb).
    apply eq_true_iff_eq. rewrite !Qle_bool_iff. by rewrite Hr. }
  eexists. split; [reflexivity | exact Hr].
Qed.

Lemma scale_nonneg q k : 0 <= q -> 0 <= scale q k.
Proof.
  intros Hq. destruct k as [|p|p]; [done| |].
  - rewrite scale_up by lia. apply Qmult_le_0_compat; [done|].
    change 0 with (inject_Z 0). rewrite <- Zle_Qle.
    apply Z.pow_nonneg. lia.
  - rewrite scale_down by lia. apply Qle_shift_div_l.
    + change 0 with (inject_Z 0). rewrite <- Zlt_Qlt.
      apply Z.pow_pos_nonneg; lia.
    + by rewrite Qmult_0_l.
Qed.

Lemma rne_nonneg x : 0 <= x -> (0 <= rne x)%Z.
Proof.
  intros Hx. unfold rne.
  assert (0 <= Qfloor x)%Z
    by (change 0%Z with (Qfloor 0); by apply Qfloor_resp_le).
  repeat case_match; lia.
Qed.

(** Rounding keeps a number that is not negative so. *)
Lemma nearest_nonneg q r : 0 <= q -> nearest q = Fin r -> 0 <= r.
Proof.
  intros Hq. unfold nearest.
  destruct (Qeq_bool (Qred q) 0); [by intros [= <-]|].
  destruct (Qle_bool huge _); [by destruct (Qle_bool 0 _)|].
  intros [= <-]. rewrite Qred_correct. unfold toPrecision.
  apply scale_nonneg. change 0 with (inject_Z 0). rewrite <- Zle_Qle.
  apply rne_nonneg, scale_nonneg. by rewrite Qred_correct.
Qed.

#[export] Instance Qtrunc_comp : Proper (Qeq ==> eq) Qtrunc.
Proof.
  intros p q Hpq. unfold Qtrunc. rewrite Hpq.
  destruct (q ?= 0); by rewrite Hpq.
Qed.

Lemma Qtrunc_nonneg q : 0 <= q -> Qtrunc q = Qfloor q.
Proof.
  intros Hq. unfold Qtrunc.
  destruct (q ?= 0) eqn:Hc; try reflexivity.
  apply Qlt_alt in Hc. exfalso. by apply (Qlt_not_le _ _ Hc).
Qed.

(** *** Rounding is monotone at the doubles. *)





Lemma scale_back q k : scale (scale q k) (- k) == q.
Proof.
  destruct k as [|p|p]; [reflexivity| |].
  - change (- Z.pos p)%Z with (Z.neg p). cbn [scale].
    field. apply pow2_nonzero. lia.
  - change (- Z.neg p)%Z with (Z.pos p). cbn [scale].
    field. apply pow2_nonzero. lia.
Qed.

Lemma scale_forth q k : scale (scale q (- k)) k == q.
Proof.
  rewrite <- (Z.opp_involutive k) at 2. apply scale_back.
Qed.









(** The doubles of the model agree with the literals of the source:
    [0.1], [1000 / 12], the largest double, the overflow beyond it,
    the smallest double and the underflow below it. *)
Example nearest_demo :
  nearest (1 # 10) = Fin (3602879701896397 # 36028797018963968)
  /\ div (ofZ 1000) (ofZ 12) = Fin (5864062014805333 # 70368744177664)
  /\ nearest (inject_Z (2 ^ 1024 - 2 ^ 970 - 1))
     = Fin (inject_Z (2 ^ 1024 - 2 ^ 971))
  /\ nearest (inject_Z (2 ^ 1024 - 2 ^ 970)) = PInf
  /\ nearest (scale 1 (-1074)) = Fin (scale 1 (-1074))
  /\ nearest (scale 1 (-1075)) = Fin 0
  /\ pow_half (ofZ 2) = Fin (6369051672525773 # 4503599627370496).
Proof. vm_compute. repeat split. Qed.

(** On doubles of every kind the operations of the model give what
    the standard library's specification of IEEE 754 binary64
    arithmetic gives. *)
Example model_agrees_with_IEEE :
  forallb (fun x => forallb (IEEE.agree x) IEEE.samples) IEEE.samples
  && forallb (fun p => IEEE.agree p.1 p.2) IEEE.extremes
  && forallb IEEE.agreeRoot (IEEE.samples ++ IEEE.extremes.*1)
  = true.
Proof. vm_compute. reflexivity. Qed.

End NumberProofs.

(** ** Playback *)
Module PlaybackProofs.

Import AnimationLoop Playback NumberProofs.

Local Open Scope Q_scope.

Lemma Qcompare_pos q : 0 < q -> (q ?= 0) = Gt.
Proof. intros Hq. by apply Qgt_alt. Qed.

Lemma Qdiv_nonneg a b : 0 <= a -> 0 < b -> 0 <= a / b.
Proof.
  intros Ha Hb. apply Qle_shift_div_l; [done|]. by rewrite Qmult_0_l.
Qed.

(** The remainder of non-negative integers, computed on rationals. *)
Lemma rem_integers (a n : Z) :
  (0 <= a)%Z -> (0 < n)%Z ->
  inject_Z a - inject_Z n * inject_Z (JS.Qtrunc (inject_Z a / inject_Z n))
  == inject_Z (a mod n).
Proof.
  intros Ha Hn.
  rewrite Qtrunc_nonneg.
  - rewrite <- Zdiv_Qdiv. rewrite <- inject_Z_mult.
    unfold Qminus. rewrite <- inject_Z_opp, <- inject_Z_plus.
    rewrite Z.mod_eq by lia. reflexivity.
  - apply Qdiv_nonneg.
    + change 0 with (inject_Z 0). by rewrite <- Zle_Qle.
    + change 0 with (inject_Z 0). by rewrite <- Zlt_Qlt.
Qed.

(** The sum of two integers that stays within 53 bits is exact, and so
    is its remainder. *)
Lemma index_wraps (current n total : Z) :
  (0 <= current)%Z -> (0 <= n)%Z -> (0 <= total)%Z ->
  (current + n <= 2 ^ 53)%Z ->
  JS.eqv (JS.rem (JS.add (JS.ofZ current) (JS.Fin (inject_Z n)))
            (JS.ofZ total))
    (if (total =? 0)%Z then JS.NaN
     else JS.ofZ ((current + n) mod total)).
Proof.
  intros Hc Hn Ht Hb. unfold JS.ofZ. cbn [JS.add].
  rewrite (nearest_comp _ (inject_Z (current + n)))
    by (by rewrite inject_Z_plus).
  destruct (nearest_integer (current + n)) as (r & -> & Hr); [lia|].
  destruct (Z.eqb_spec total 0) as [-> | Hne]; [done|].
  cbn [JS.rem].
  assert ((inject_Z total ?= 0) = Gt) as ->.
  { apply Qcompare_pos. change 0 with (inject_Z 0).
    rewrite <- Zlt_Qlt. lia. }
  rewrite (nearest_comp _ (inject_Z ((current + n) mod total))).
  - destruct (nearest_integer ((current + n) mod total))
      as (r' & -> & Hr'); [|done].
    pose proof (Z.mod_pos_bound (current + n) total).
    pose proof (Z.mod_le (current + n) total). lia.
  - rewrite (Qtrunc_comp (r / inject_Z total)
               (inject_Z (current + n) / inject_Z total))
      by (by rewrite Hr).
    rewrite <- (rem_integers (current + n) total) by lia.
    by rewrite Hr.
Qed.

(** C3. A tick of a playing loop whose fields are finite, with a
    positive frame interval, a frame count and a frame index that are
    integers and not negative. The time since the baseline is the
    double [elapsed]. When it has reached the interval: the index
    advances by the floor of the quotient of [elapsed] and the
    interval, a double division, and wraps modulo the frame count
    (the sum is exact within 53 bits; with no frames the remainder is
    NaN); the baseline becomes the time of the tick less [elapsed]
    modulo the interval; and [onFrame] is called once, with the new
    index. When it has not: nothing changes and [onFrame] is not
    called. *)
Theorem loop_tick (a : AnimationLoop.t) (now last interval elapsed : Q)
    (current total : Z) :
  isPlaying a = true ->
  lastTime a = JS.Fin last ->
  frameInterval a = JS.Fin interval ->
  currentFrame a = JS.ofZ current ->
  totalFrames a = JS.ofZ total ->
  0 < interval -> (0 <= current)%Z -> (0 <= total)%Z ->
  JS.sub (JS.Fin now) (JS.Fin last) = JS.Fin elapsed ->
  (interval <= elapsed ->
     forall quotient,
       JS.div (JS.Fin elapsed) (JS.Fin interval) = JS.Fin quotient ->
       (current + Qfloor quotient <= 2 ^ 53)%Z ->
       JS.eqv (currentFrame (fst (loop (JS.Fin now) a)))
         (if (total =? 0)%Z then JS.NaN
          else JS.ofZ ((current + Qfloor quotient) mod total))
       /\ lastTime (fst (loop (JS.Fin now) a))
          = JS.sub (JS.Fin now) (JS.nearest (Qmod elapsed interval))
       /\ onFrame (snd (loop (JS.Fin now) a))
          = [currentFrame (fst (loop (JS.Fin now) a))]
       /\ requested (snd (loop (JS.Fin now) a)) = 1%nat
       /\ isPlaying (fst (loop (JS.Fin now) a)) = true
       /\ frameInterval (fst (loop (JS.Fin now) a)) = frameInterval a
       /\ totalFrames (fst (loop (JS.Fin now) a)) = totalFrames a)
  /\ (elapsed < interval ->
        loop (JS.Fin now) a = (a, {| onFrame := []; requested := 1 |})).
Proof.
  intros Hpl Hlast Hiv Hcur Htot Hpos Hc Ht Hel.
  unfold loop. rewrite Hpl, Hlast, Hiv, Hcur, Htot, Hel.
  cbn [negb JS.ge].
  split.
  - intros Hge quotient Hq Hb.
    assert (Qle_bool interval elapsed = true) as ->
      by by apply Qle_bool_iff.
    assert (0 <= elapsed / interval) as Hratio.
    { apply Qdiv_nonneg; [|done].
      eapply Qle_trans; [apply Qlt_le_weak; exact Hpos | exact Hge]. }
    assert (0 <= Qfloor quotient)%Z as Hn.
    { change 0%Z with (Qfloor 0). apply Qfloor_resp_le.
      revert Hq. cbn [JS.div]. rewrite (Qcompare_pos interval Hpos).
      by apply nearest_nonneg. }
    rewrite Hq.
    cbn [fst snd currentFrame lastTime onFrame requested isPlaying
         frameInterval totalFrames JS.floor].
    split; [by apply index_wraps|].
    split; [|done].
    cbn [JS.rem]. rewrite (Qcompare_pos interval Hpos).
    by rewrite Qtrunc_nonneg.
  - intros Hlt.
    assert (Qle_bool interval elapsed = false) as ->.
    { apply not_true_is_false. rewrite Qle_bool_iff.
      by apply Qlt_not_le. }
    reflexivity.
Qed.

Lemma loop_tick_witness :
  ((5864062014805333 # 70368744177664) <= 200 ->
     forall quotient,
       JS.div (JS.Fin 200) (JS.Fin (5864062014805333 # 70368744177664))
       = JS.Fin quotient ->
       (0 + Qfloor quotient <= 2 ^ 53)%Z ->
       JS.eqv (currentFrame (fst (loop (JS.Fin 1200) fiveFrames)))
         (if (5 =? 0)%Z then JS.NaN
          else JS.ofZ ((0 + Qfloor quotient) mod 5))
       /\ lastTime (fst (loop (JS.Fin 1200) fiveFrames))
          = JS.sub (JS.Fin 1200)
              (JS.nearest
                 (Qmod 200 (5864062014805333 # 70368744177664)))
       /\ onFrame (snd (loop (JS.Fin 1200) fiveFrames))
          = [currentFrame (fst (loop (JS.Fin 1200) fiveFrames))]
       /\ requested (snd (loop (JS.Fin 1200) fiveFrames)) = 1%nat
       /\ isPlaying (fst (loop (JS.Fin 1200) fiveFrames)) = true
       /\ frameInterval (fst (loop (JS.Fin 1200) fiveFrames))
          = frameInterval fiveFrames
       /\ totalFrames (fst (loop (JS.Fin 1200) fiveFrames))
          = totalFrames fiveFrames)
  /\ (200 < (5864062014805333 # 70368744177664) ->
        loop (JS.Fin 1200) fiveFrames
        = (fiveFrames, {| onFrame := []; requested := 1 |})).
Proof.
  apply (loop_tick fiveFrames 1200 1000
           (5864062014805333 # 70368744177664) 200 0 5).
  - reflexivity.
  - reflexivity.
  - vm_compute. reflexivity.
  - reflexivity.
  - reflexivity.
  - reflexivity.
  - lia.
  - lia.
  - vm_compute. reflexivity.
Defined.

(** A tick 200 ms after the start, at 12 frames per second: two frames
    on, the baseline a rounded 33 1/3 ms before the tick, one
    notification. *)
Example loop_late_tick :
  let r := loop (JS.Fin 1200) fiveFrames in
  currentFrame (fst r) = JS.ofZ 2
  /\ lastTime (fst r) = JS.Fin (5131054262954667 # 4398046511104)
  /\ lastTime (fst r) = JS.nearest (3500 # 3)
  /\ length (onFrame (snd r)) = 1%nat.
Proof. vm_compute. auto. Qed.

(** The next tick, at 2000 ms: the time since the baseline is a little
    less than ten intervals, their quotient rounds to 10, and the loop
    advances ten frames where the exact quotient has the floor 9. *)
Example loop_rounded_quotient :
  let a := fst (loop (JS.Fin 1200) fiveFrames) in
  let elapsed := 3665038759253333 # 4398046511104 in
  let interval := 5864062014805333 # 70368744177664 in
  JS.sub (JS.Fin 2000) (lastTime a) = JS.Fin elapsed
  /\ frameInterval a = JS.Fin interval
  /\ Qfloor (elapsed / interval) = 9%Z
  /\ JS.div (JS.Fin elapsed) (JS.Fin interval) = JS.ofZ 10
  /\ currentFrame (fst (loop (JS.Fin 2000) a)) = JS.ofZ ((2 + 10) mod 5).
Proof. vm_compute. auto. Qed.

(** A tick 50 ms after the start changes nothing. *)
Example loop_early_tick :
  loop (JS.Fin 1050) fiveFrames
  = (fiveFrames, {| onFrame := []; requested := 1 |}).
Proof. vm_compute. reflexivity. Qed.

(** After [stop()] a tick does nothing and requests no further tick. *)
Example loop_stopped :
  loop (JS.Fin 1200) (stop fiveFrames)
  = (stop fiveFrames, {| onFrame := []; requested := 0 |}).
Proof. reflexivity. Qed.

End PlaybackProofs.

(** ** Strokes *)
Module StrokeProofs.

Import BrushEngine Stroke.

Lemma strokes_setLineWidth w c :
  Canvas.strokes (Canvas.setLineWidth w c) = Canvas.strokes c.
Proof.
  unfold Canvas.setLineWidth. destruct w as [q| | |]; try reflexivity.
  by destruct (q ?= 0)%Q.
Qed.

Lemma path_setLineWidth w c :
  Canvas.path (Canvas.setLineWidth w c) = Canvas.path c.
Proof.
  unfold Canvas.setLineWidth. destruct w as [q| | |]; try reflexivity.
  by destruct (q ?= 0)%Q.
Qed.

Lemma strokes_setStrokeStyle v c :
  Canvas.strokes (Canvas.setStrokeStyle v c) = Canvas.strokes c.
Proof.
  unfold Canvas.setStrokeStyle. by destruct (Canvas.parsesColor _ v).
Qed.

Lemma path_setStrokeStyle v c :
  Canvas.path (Canvas.setStrokeStyle v c) = Canvas.path c.
Proof.
  unfold Canvas.setStrokeStyle. by destruct (Canvas.parsesColor _ v).
Qed.

Lemma splineStep_strokes settings p0 p1 p2 p3 c i :
  Canvas.strokes (splineStep settings p0 p1 p2 p3 c i) = Canvas.strokes c.
Proof.
  unfold splineStep. destruct (splinePoint p0 p1 p2 p3 i) as [cx cy].
  destruct (i =? 0)%nat; simpl; apply strokes_setLineWidth.
Qed.

Lemma splineStep_path settings p0 p1 p2 p3 c i :
  Canvas.path (splineStep settings p0 p1 p2 p3 c i)
  = Canvas.path c ++ [splineCmd p0 p1 p2 p3 i].
Proof.
  unfold splineStep, splineCmd.
  destruct (splinePoint p0 p1 p2 p3 i) as [cx cy].
  destruct (i =? 0)%nat; simpl; by rewrite path_setLineWidth.
Qed.

(** The loop of [drawSpline] extends the path by one command for each
    iteration and strokes nothing. *)
Lemma spline_loop settings p0 p1 p2 p3 (l : list nat) c :
  Canvas.strokes (fold_left (splineStep settings p0 p1 p2 p3) l c)
  = Canvas.strokes c
  /\ Canvas.path (fold_left (splineStep settings p0 p1 p2 p3) l c)
     = Canvas.path c ++ map (splineCmd p0 p1 p2 p3) l.
Proof.
  revert c. induction l as [|i l IH]; intros c; simpl.
  - by rewrite app_nil_r.
  - destruct (IH (splineStep settings p0 p1 p2 p3 c i)) as [-> ->].
    rewrite splineStep_strokes, splineStep_path, <- app_assoc.
    by split.
Qed.

(** [drawSpline] calls [stroke()] once, on the path of the eleven
    curve points. *)
Lemma drawSpline_strokes_once settings e p0 p1 p2 p3 :
  drop (length (points e) - 4) (points e) = [p0; p1; p2; p3] ->
  exists call,
    Canvas.strokes (ctx (drawSpline settings e))
    = Canvas.strokes (ctx e) ++ [call]
    /\ Canvas.strokePath call
       = map (splineCmd p0 p1 p2 p3) (seq 0 (S steps)).
Proof.
  intros Hpts. unfold drawSpline. rewrite Hpts.
  match goal with
  | |- context [fold_left ?f ?l ?c] =>
      destruct (spline_loop settings p0 p1 p2 p3 l c) as [Hs Hp]
  end.
  eexists. split.
  - cbn [ctx Canvas.stroke Canvas.strokes].
    rewrite Hs, strokes_setStrokeStyle. reflexivity.
  - cbn [Canvas.strokePath]. rewrite Hp, path_setStrokeStyle. reflexivity.
Qed.

(** C6, on the code. The fourth sample of a stroke whose pressure rises
    from 1/4 to 3/4 between the second and the third sample, with a
    brush of size 8: [stroke()] is called once, for the whole path of
    eleven points, with the width 6 that the last iteration set; the
    width 2.4 (the double nearest to 12/5) that the loop computed for
    the first sub-segment is not the width of any drawn segment. *)
Theorem drawSpline_single_width :
  let e := addPoint (sample 3 0 (3 # 4)) (brush 8)
             (engineWith threeSamples) in
  exists call,
    Canvas.strokes (ctx e) = [call]
    /\ length (Canvas.strokePath call) = 11%nat
    /\ JS.eqv (Canvas.lineWidth (Canvas.strokeState call)) (JS.Fin 6)
    /\ JS.eqv (splineWidth (brush 8) (sample 1 0 (1 # 4))
                 (sample 2 0 (3 # 4)) 1)
         (JS.nearest (12 # 5)).
Proof.
  eexists. split; [vm_compute; reflexivity|].
  split; [reflexivity|]. split; vm_compute; reflexivity.
Qed.

(** The knots of [restingSamples]: the second and the third are
    equal. *)
Lemma resting_knots :
  knots (sample 0 0 (1 # 2)) (sample 1 0 (1 # 2)) (sample 1 0 (1 # 2))
    (sample 2 0 (1 # 2))
  = (JS.Fin 0, JS.Fin 1, JS.Fin 1, JS.Fin 2).
Proof. vm_compute. reflexivity. Qed.

(** Between equal knots the blend divides zero by zero, or works on a
    parameter that is NaN already. *)
Lemma blend_equal_knots t a b :
  t = JS.Fin 1 \/ t = JS.NaN ->
  blend (JS.Fin 1) (JS.Fin 1) t a b = JS.NaN.
Proof.
  intros [-> | ->]; unfold blend.
  - assert (JS.sub (JS.Fin 1) (JS.Fin 1) = JS.Fin 0) as ->
      by (vm_compute; reflexivity).
    reflexivity.
  - reflexivity.
Qed.

(** A quotient of finite numbers is a number, or an infinity when it
    leaves the doubles. *)
Lemma div_cases (p q : Q) :
  ~ (q == 0)%Q ->
  (exists f, JS.div (JS.Fin p) (JS.Fin q) = JS.Fin f)
  \/ JS.div (JS.Fin p) (JS.Fin q) = JS.PInf
  \/ JS.div (JS.Fin p) (JS.Fin q) = JS.NInf.
Proof.
  intros Hq. cbn [JS.div].
  assert (JS.div (JS.Fin p) (JS.Fin q) = JS.nearest (p / q)) as Hd.
  { cbn [JS.div]. destruct (q ?= 0)%Q eqn:Hc; try reflexivity.
    by apply Qeq_alt in Hc. }
  cbn [JS.div] in Hd. rewrite Hd.
  pose proof (NumberProofs.nearest_not_NaN (p / q)) as Hn.
  destruct (JS.nearest (p / q)) as [f| | |]; eauto. done.
Qed.

(** The curve parameter of every iteration over [restingSamples] is
    the knot 1, or NaN when [i / steps] leaves the doubles. *)
Lemma resting_parameter (i : nat) :
  let frac := JS.div (JS.ofZ (Z.of_nat i)) (JS.ofZ (Z.of_nat steps)) in
  let t := JS.add (JS.Fin 1)
             (JS.mul frac (JS.sub (JS.Fin 1) (JS.Fin 1))) in
  t = JS.Fin 1 \/ t = JS.NaN.
Proof.
  intros frac t. subst t.
  assert (JS.sub (JS.Fin 1) (JS.Fin 1) = JS.Fin 0) as ->
    by (vm_compute; reflexivity).
  destruct (div_cases (inject_Z (Z.of_nat i))
              (inject_Z (Z.of_nat steps))) as [[f Hf] | [Hf | Hf]];
    [done | | |]; subst frac; unfold JS.ofZ; rewrite Hf.
  - left. cbn [JS.mul].
    rewrite (NumberProofs.nearest_zero (f * 0)) by ring.
    vm_compute. reflexivity.
  - right. reflexivity.
  - right. reflexivity.
Qed.

(** Every curve point of [restingSamples] is (NaN, NaN). *)
Lemma splinePoint_resting (i : nat) :
  splinePoint (sample 0 0 (1 # 2)) (sample 1 0 (1 # 2))
    (sample 1 0 (1 # 2)) (sample 2 0 (1 # 2)) i
  = (JS.NaN, JS.NaN).
Proof.
  unfold splinePoint. rewrite resting_knots.
  pose proof (resting_parameter i) as Ht. cbv zeta in Ht |- *.
  by rewrite !(blend_equal_knots _ _ _ Ht).
Qed.

(** C10. There is a stroke whose four latest samples have finite
    coordinates, the second and third of them at the same place, for
    which the second and third knots are equal, the divisor of the
    blend between them is zero, every curve point that [drawSpline]
    evaluates is (NaN, NaN), and the path it strokes consists of these
    eleven points: nothing guards the coincident samples. *)
Theorem coincident_samples_yield_NaN :
  exists p0 p1 p2 p3 : Point.t,
    finiteXY p0 /\ finiteXY p1 /\ finiteXY p2 /\ finiteXY p3
    /\ Point.x p1 = Point.x p2 /\ Point.y p1 = Point.y p2
    /\ (let '(_, t1, t2, _) := knots p0 p1 p2 p3 in
        JS.eqv t1 t2 /\ JS.eqv (JS.sub t2 t1) (JS.Fin 0))
    /\ (forall i, splinePoint p0 p1 p2 p3 i = (JS.NaN, JS.NaN))
    /\ forall settings e,
         drop (length (points e) - 4) (points e) = [p0; p1; p2; p3] ->
         exists call,
           Canvas.strokes (ctx (drawSpline settings e))
           = Canvas.strokes (ctx e) ++ [call]
           /\ length (Canvas.strokePath call) = 11%nat
           /\ Forall (fun c => target c = (JS.NaN, JS.NaN))
                (Canvas.strokePath call).
Proof.
  exists (sample 0 0 (1 # 2)), (sample 1 0 (1 # 2)),
    (sample 1 0 (1 # 2)), (sample 2 0 (1 # 2)).
  assert (forall px py pr, finiteXY (sample px py pr)) as Hfin
    by (intros px py pr; by exists px, py).
  do 4 (split; [apply Hfin|]).
  do 2 (split; [reflexivity|]).
  split; [rewrite resting_knots; vm_compute; split; reflexivity|].
  split; [apply splinePoint_resting|].
  intros settings e Hpts.
  destruct (drawSpline_strokes_once settings e _ _ _ _ Hpts)
    as (call & Hcall & Hpath).
  exists call. split; [done|]. rewrite Hpath. split.
  - by rewrite length_map, length_seq.
  - apply Forall_forall. intros c Hc.
    apply list_elem_of_In, in_map_iff in Hc as [i [<- _]].
    unfold splineCmd. rewrite splinePoint_resting.
    by destruct (i =? 0)%nat.
Qed.

(** Rounding shows in the curve: between the samples (3, 0) and
    (19, 0), with the neighbours (2, 0) and (100, 0), the knots are
    0, 1, 5 and 14, and the first curve point lies one last place
    beside the sample it stands for; the last one is on its sample. *)
Example spline_start_rounded :
  let p0 := sample 2 0 (1 # 2) in
  let p1 := sample 3 0 (1 # 2) in
  let p2 := sample 19 0 (1 # 2) in
  let p3 := sample 100 0 (1 # 2) in
  knots p0 p1 p2 p3 = (JS.Fin 0, JS.Fin 1, JS.Fin 5, JS.Fin 14)
  /\ splinePoint p0 p1 p2 p3 0
     = (JS.Fin (6755399441055745 # 2251799813685248), JS.Fin 0)
  /\ splinePoint p0 p1 p2 p3 10 = (JS.Fin 19, JS.Fin 0).
Proof. vm_compute. auto. Qed.

(** The stroke of [restingSamples], evaluated. *)
Example drawSpline_resting :
  map target
    (Canvas.path (ctx (drawSpline (brush 8) (engineWith restingSamples))))
  = repeat (JS.NaN, JS.NaN) 11.
Proof. vm_compute. reflexivity. Qed.

End StrokeProofs.

(** ** The store after initialisation *)
Module StoreProofs.

Import StorageManager Store.

Local Open Scope action_scope.

(** Reduce the projections of the manager and its database. *)
Ltac store_fields :=
  cbn [db idb layers frames negb fst snd].

(** A stored blob is read back, a later write under the same id
    replaces it, and a write under another id does not disturb it. *)
Theorem saveLayer_getLayer (sm : StorageManager.t) (id id' : string)
    (blob blob' : Blob) :
  db sm = true ->
  fst ((saveLayer id blob ;;; getLayer id) sm) = Ok (Some blob)
  /\ fst ((saveLayer id blob ;;; saveLayer id' blob' ;;; getLayer id) sm)
     = Ok (Some (if decide (id' = id) then blob' else blob)).
Proof.
  intros Hdb. unfold bind, saveLayer, getLayer. rewrite Hdb.
  store_fields. split.
  - by rewrite lookup_insert_eq.
  - rewrite lookup_insert. case_decide; [done|].
    by rewrite lookup_insert_eq.
Qed.

Lemma saveLayer_getLayer_witness :
  fst ((saveLayer "a" [Byte.x01] ;;; getLayer "a") opened)
  = Ok (Some [Byte.x01])
  /\ fst ((saveLayer "a" [Byte.x01] ;;; saveLayer "b" [Byte.x02] ;;;
           getLayer "a") opened)
     = Ok (Some (if decide ("b" = "a") then [Byte.x02] else [Byte.x01])).
Proof.
  apply (saveLayer_getLayer opened "a" "b" [Byte.x01] [Byte.x02]).
  reflexivity.
Defined.

(** [deleteLayer] removes the blob of a non-empty id and only that
    one; with the empty id, or an id that holds nothing, it returns
    without changing the manager, even when a blob is stored under the
    empty key. *)
Theorem deleteLayer_effect (sm : StorageManager.t) (id : string) :
  db sm = true ->
  (id <> EmptyString ->
     fst ((deleteLayer id ;;; getLayer id) sm) = Ok None)
  /\ (forall id', id' <> id ->
        fst ((deleteLayer id ;;; getLayer id') sm) = fst (getLayer id' sm))
  /\ frames (idb (snd (deleteLayer id sm))) = frames (idb sm)
  /\ deleteLayer EmptyString sm = (Ok tt, sm)
  /\ (layers (idb sm) !! id = None -> deleteLayer id sm = (Ok tt, sm)).
Proof.
  intros Hdb. destruct sm as [dbf [ls frs]]. simpl in Hdb. subst dbf.
  unfold bind, deleteLayer, getLayer. store_fields.
  repeat split.
  - intros Hne. rewrite decide_False by done. store_fields.
    by rewrite lookup_delete_eq.
  - intros id' Hne. case_decide; store_fields; [done|].
    by rewrite lookup_delete_ne.
  - by case_decide.
  - intros Hnone. case_decide; [done|]. by rewrite delete_id.
Qed.

Lemma deleteLayer_effect_witness :
  ("a"%string <> EmptyString ->
     fst ((deleteLayer "a" ;;; getLayer "a") withLayer) = Ok None)
  /\ (forall id', id' <> "a"%string ->
        fst ((deleteLayer "a" ;;; getLayer id') withLayer)
        = fst (getLayer id' withLayer))
  /\ frames (idb (snd (deleteLayer "a" withLayer)))
     = frames (idb withLayer)
  /\ deleteLayer EmptyString withLayer = (Ok tt, withLayer)
  /\ (layers (idb withLayer) !! "a" = None ->
      deleteLayer "a" withLayer = (Ok tt, withLayer)).
Proof.
  apply (deleteLayer_effect withLayer "a"). reflexivity.
Defined.

(** The blob under the empty key survives [deleteLayer("")]. *)
Example deleteLayer_empty_key :
  fst ((deleteLayer EmptyString ;;; getLayer EmptyString) withEmptyKey)
  = Ok (Some [Byte.x09]).
Proof. reflexivity. Qed.

(** [copyLayer] writes the source's blob under the destination and
    touches nothing else; when the source holds nothing it changes
    nothing, so a blob already under the destination stays. *)
Theorem copyLayer_effect (sm : StorageManager.t) (sourceId destId : string) :
  db sm = true ->
  (forall blob, layers (idb sm) !! sourceId = Some blob ->
     snd (copyLayer sourceId destId sm)
     = {| db := true;
          idb := {| layers := <[destId := blob]> (layers (idb sm));
                    frames := frames (idb sm) |} |}
     /\ fst ((copyLayer sourceId destId ;;; getLayer destId) sm)
        = Ok (Some blob))
  /\ (layers (idb sm) !! sourceId = None ->
      copyLayer sourceId destId sm = (Ok tt, sm)).
Proof.
  intros Hdb. destruct sm as [dbf [ls frs]]. simpl in Hdb. subst dbf.
  unfold copyLayer, bind, getLayer, saveLayer, ret. store_fields.
  split.
  - intros blob Hsrc. rewrite Hsrc. store_fields.
    by rewrite lookup_insert_eq.
  - intros Hsrc. by rewrite Hsrc.
Qed.

Lemma copyLayer_effect_witness :
  (forall blob, layers (idb withLayer) !! "a" = Some blob ->
     snd (copyLayer "a" "copy" withLayer)
     = {| db := true;
          idb := {| layers := <["copy" := blob]> (layers (idb withLayer));
                    frames := frames (idb withLayer) |} |}
     /\ fst ((copyLayer "a" "copy" ;;; getLayer "copy") withLayer)
        = Ok (Some blob))
  /\ (layers (idb withLayer) !! "a" = None ->
      copyLayer "a" "copy" withLayer = (Ok tt, withLayer)).
Proof.
  apply (copyLayer_effect withLayer "a" "copy"). reflexivity.
Defined.

(** A copy from an id that holds nothing leaves the destination's
    blob in place. *)
Example copyLayer_absent_source :
  fst ((copyLayer "missing" "a" ;;; getLayer "a") withLayer)
  = Ok (Some [Byte.x01]).
Proof. reflexivity. Qed.

#[local] Instance byId_total : Total byId.
Proof.
  intros a b. unfold byId.
  destruct (String.leb_total (Frame.id a) (Frame.id b)) as [-> | ->];
    [by left | by right].
Qed.

Lemma ids_of_keyed (l : list (string * Frame.t)) :
  (forall k f, (k, f) ∈ l -> Frame.id f = k) ->
  Frame.id <$> (snd <$> l) = fst <$> l.
Proof.
  induction l as [|[k f] l IH]; intros Hk; [done|]. simpl.
  rewrite (Hk k f) by by left.
  f_equal. apply IH. intros k' f' Hin. apply Hk. by right.
Qed.

(** What [getAllFrames] lists: the stored records, one for each id, in
    the order of their ids. *)
Lemma listing (sm : StorageManager.t) :
  db sm = true -> keyed sm ->
  exists l, getAllFrames sm = (Ok l, sm)
    /\ (forall g, g ∈ l <-> frames (idb sm) !! Frame.id g = Some g)
    /\ NoDup (Frame.id <$> l)
    /\ Sorted byId l.
Proof.
  intros Hdb Hkeyed. unfold getAllFrames. rewrite Hdb. store_fields.
  eexists. split; [reflexivity|].
  set (m := frames (idb sm)) in *.
  split; [|split].
  - intros g. rewrite merge_sort_Permutation, list_elem_of_fmap. split.
    + intros ([k f] & -> & Hin). simpl.
      apply elem_of_map_to_list in Hin.
      by rewrite (Hkeyed k f Hin).
    + intros Hg. exists (Frame.id g, g). split; [done|].
      by apply elem_of_map_to_list.
  - rewrite merge_sort_Permutation, ids_of_keyed.
    + apply NoDup_fst_map_to_list.
    + intros k f Hin. apply elem_of_map_to_list in Hin. by apply Hkeyed.
  - apply (Sorted_merge_sort byId).
Qed.

Lemma keyed_saveFrame sm f : keyed sm -> keyed (snd (saveFrame f sm)).
Proof.
  intros Hkeyed k g. unfold saveFrame.
  destruct (db sm); store_fields; [|apply Hkeyed].
  rewrite lookup_insert. case_decide; [|apply Hkeyed].
  by intros [= <-].
Qed.

(** Frame records are kept one for each id: after [saveFrame(f)],
    [getAllFrames] lists [f] and the records listed before whose id is
    not that of [f], each id once, in the order of the ids. *)
Theorem saveFrame_getAllFrames (sm : StorageManager.t) (f : Frame.t) :
  db sm = true -> keyed sm ->
  exists before after,
    getAllFrames sm = (Ok before, sm)
    /\ fst ((saveFrame f ;;; getAllFrames) sm) = Ok after
    /\ (forall g, g ∈ after <->
          g = f \/ (g ∈ before /\ Frame.id g <> Frame.id f))
    /\ NoDup (Frame.id <$> after)
    /\ Sorted byId after
    /\ keyed (snd (saveFrame f sm)).
Proof.
  intros Hdb Hkeyed.
  destruct (listing sm Hdb Hkeyed) as (before & Hb & Hbin & _ & _).
  assert (db (snd (saveFrame f sm)) = true) as Hdb'
    by (unfold saveFrame; by rewrite Hdb).
  destruct (listing _ Hdb' (keyed_saveFrame sm f Hkeyed))
    as (after & Ha & Hain & Hnd & Hsorted).
  exists before, after. split; [done|]. split.
  { unfold bind.
    assert (saveFrame f sm = (Ok tt, snd (saveFrame f sm))) as ->
      by (unfold saveFrame; by rewrite Hdb).
    by rewrite Ha. }
  split; [|by auto using keyed_saveFrame].
  intros g. rewrite Hain, Hbin. unfold saveFrame. rewrite Hdb.
  store_fields. rewrite lookup_insert. case_decide as Hid.
  - split; [intros [= ->]; by left | intros [-> | [_ Hne]]; [done|]].
    by rewrite Hid in Hne.
  - split; [intros Hg; right; split; [done | congruence]|].
    intros [-> | [Hg _]]; [done | exact Hg].
Qed.

Lemma saveFrame_getAllFrames_witness :
  exists before after,
    getAllFrames (snd (saveFrame (record "f" 0) opened))
    = (Ok before, snd (saveFrame (record "f" 0) opened))
    /\ fst ((saveFrame (record "f" 3) ;;; getAllFrames)
              (snd (saveFrame (record "f" 0) opened)))
       = Ok after
    /\ (forall g, g ∈ after <->
          g = record "f" 3
          \/ (g ∈ before /\ Frame.id g <> Frame.id (record "f" 3)))
    /\ NoDup (Frame.id <$> after)
    /\ Sorted byId after
    /\ keyed (snd (saveFrame (record "f" 3)
                     (snd (saveFrame (record "f" 0) opened)))).
Proof.
  apply (saveFrame_getAllFrames
           (snd (saveFrame (record "f" 0) opened)) (record "f" 3)).
  - reflexivity.
  - apply keyed_saveFrame. intros k f Hf. vm_compute in Hf. discriminate.
Defined.

(** Saving a record under an id that is taken replaces the record. *)
Example saveFrame_replaces :
  fst ((saveFrame (record "f" 0) ;;; saveFrame (record "g" 1) ;;;
        saveFrame (record "f" 3) ;;; getAllFrames) opened)
  = Ok [record "f" 3; record "g" 1].
Proof. vm_compute. reflexivity. Qed.

End StoreProofs.

(** ** Colour strings and fills that change nothing *)
Module ColourProofs.

Import BrushEngine Raster Colour FloodFillProofs.

Local Open Scope Z_scope.

Lemma hexDigit_hexChar upper n :
  0 <= n < 16 -> hexDigit (hexChar upper n) = Some n.
Proof.
  intros Hn. unfold hexDigit, hexChar.
  rewrite N_ascii_embedding by (repeat case_match; lia).
  rewrite Z2N.id by (repeat case_match; lia).
  destruct (Z.ltb_spec n 10), upper;
    repeat match goal with
           | |- context [(?a <=? ?b)] => destruct (Z.leb_spec a b)
           end; simpl; try lia; f_equal; lia.
Qed.

Lemma hexPair_hexChar upper1 upper2 v :
  0 <= v <= 255 ->
  hexPair (hexChar upper1 (v / 16)) (hexChar upper2 (v mod 16)) = Some v.
Proof.
  intros Hv. unfold hexPair.
  rewrite !hexDigit_hexChar.
  - f_equal. rewrite (Z.div_mod v 16) at 3 by lia. reflexivity.
  - apply Z.mod_pos_bound. lia.
  - split; [apply Z.div_pos; lia | apply Z.div_lt_upper_bound; lia].
Qed.

(** Six characters are matched as three pairs of digits. *)
Lemma hexToRgb_plain c1 c2 c3 c4 c5 c6 :
  hexToRgb (String c1 (String c2 (String c3 (String c4
              (String c5 (String c6 EmptyString))))))
  = match hexPair c1 c2, hexPair c3 c4, hexPair c5 c6 with
    | Some r, Some g, Some b => Some (r, g, b)
    | _, _, _ => None
    end.
Proof.
  unfold hexToRgb.
  destruct c1 as [[] [] [] [] [] [] [] []]; reflexivity.
Qed.

(** A character of the class is the digit of its value, in one of the
    two cases. *)
Lemma hexChar_hexDigit c n :
  hexDigit c = Some n -> 0 <= n < 16 /\ exists upper, c = hexChar upper n.
Proof.
  intros H.
  destruct c as [[] [] [] [] [] [] [] []]; vm_compute in H;
    try discriminate; injection H as <-;
    (split; [lia|]); first [by exists true | by exists false].
Qed.

Lemma hexChar_hexPair c1 c2 v :
  hexPair c1 c2 = Some v ->
  exists upper1 upper2,
    c1 = hexChar upper1 (v / 16) /\ c2 = hexChar upper2 (v mod 16).
Proof.
  unfold hexPair.
  destruct (hexDigit c1) as [h|] eqn:H1; [|done].
  destruct (hexDigit c2) as [l|] eqn:H2; [|done].
  intros [= <-].
  apply hexChar_hexDigit in H1 as [Hh [u1 ->]].
  apply hexChar_hexDigit in H2 as [Hl [u2 ->]].
  exists u1, u2.
  replace ((16 * h + l) / 16) with h
    by (apply (Z.div_unique _ 16 h l); lia).
  replace ((16 * h + l) mod 16) with l
    by (apply (Z.mod_unique _ 16 h l); lia).
  done.
Qed.

(** The body of a string that parses: six characters. *)
Lemma hexToRgb_body s rgb :
  hexToRgb s = Some rgb ->
  exists hash c1 c2 c3 c4 c5 c6,
    s = (let body := String c1 (String c2 (String c3 (String c4
                       (String c5 (String c6 EmptyString))))) in
         if hash : bool then String "#"%char body else body)
    /\ hexPair c1 c2 = Some rgb.1.1
    /\ hexPair c3 c4 = Some rgb.1.2
    /\ hexPair c5 c6 = Some rgb.2.
Proof.
  intros Hs. unfold hexToRgb in Hs.
  set (body := match s with
               | String "#"%char rest => rest
               | _ => s
               end) in *.
  assert (s = body \/ s = String "#"%char body) as Hshape.
  { subst body. destruct s as [|c rest]; [by left|].
    destruct c as [[] [] [] [] [] [] [] []]; auto. }
  destruct body as [|c1 [|c2 [|c3 [|c4 [|c5 [|c6 [|c7 rest]]]]]]];
    try discriminate.
  destruct (hexPair c1 c2) as [r|] eqn:Hr; [|done].
  destruct (hexPair c3 c4) as [g|] eqn:Hg; [|done].
  destruct (hexPair c5 c6) as [b|] eqn:Hb; [|done].
  injection Hs as <-.
  destruct Hshape as [-> | ->].
  - by exists false, c1, c2, c3, c4, c5, c6.
  - by exists true, c1, c2, c3, c4, c5, c6.
Qed.

(** The strings that parse to a colour are its spellings: six
    hexadecimal digits, each of them in upper or in lower case, with or
    without a leading [#]. *)
Theorem hexToRgb_formatHex (rgb : Z * Z * Z) (s : string) :
  byteRgb rgb ->
  hexToRgb s = Some rgb
  <-> exists hash upper, s = formatHex hash upper rgb.
Proof.
  intros Hrgb. split.
  - intros Hs.
    destruct (hexToRgb_body s rgb Hs)
      as (hash & c1 & c2 & c3 & c4 & c5 & c6 & -> & Hr & Hg & Hb).
    destruct rgb as [[r g] b]. cbn [fst snd] in *.
    apply hexChar_hexPair in Hr as (u0 & u1 & -> & ->).
    apply hexChar_hexPair in Hg as (u2 & u3 & -> & ->).
    apply hexChar_hexPair in Hb as (u4 & u5 & -> & ->).
    exists hash, (fun i => nth i [u0; u1; u2; u3; u4; u5] false).
    reflexivity.
  - intros (hash & upper & ->).
    destruct rgb as [[r g] b]. destruct Hrgb as (Hr & Hg & Hb).
    unfold formatHex, hexByte. destruct hash.
    + unfold hexToRgb. by rewrite !hexPair_hexChar.
    + rewrite hexToRgb_plain. by rewrite !hexPair_hexChar.
Qed.

Lemma hexToRgb_formatHex_witness :
  hexToRgb "#aB12cD" = Some (171, 18, 205)
  <-> exists hash upper,
        "#aB12cD"%string = formatHex hash upper (171, 18, 205).
Proof.
  apply (hexToRgb_formatHex (171, 18, 205) "#aB12cD").
  unfold byteRgb. lia.
Defined.

(** Spellings of one colour. *)
Example formatHex_demo :
  formatHex true (fun _ => false) (26, 178, 195) = "#1ab2c3"%string
  /\ formatHex false (fun _ => true) (26, 178, 195) = "1AB2C3"%string
  /\ formatHex true (fun i => Nat.odd i) (171, 18, 205)
     = "#aB12cD"%string.
Proof. repeat split; reflexivity. Qed.

(** Only six hexadecimal digits, with or without one leading [#], are
    accepted: no shorthand such as [#fff], no colour names. *)
Theorem hexToRgb_shape (s : string) (rgb : Z * Z * Z) :
  hexToRgb s = Some rgb ->
  byteRgb rgb
  /\ exists body,
       (s = body \/ s = String "#"%char body)
       /\ String.length body = 6%nat.
Proof.
  intros Hs. split; [by apply (hexToRgb_range s)|].
  unfold hexToRgb in Hs.
  set (body := match s with
               | String "#"%char rest => rest
               | _ => s
               end) in *.
  exists body. split.
  - subst body. destruct s as [|c rest]; [by left|].
    destruct c as [[] [] [] [] [] [] [] []]; auto.
  - destruct body as [|c1 [|c2 [|c3 [|c4 [|c5 [|c6 [|c7 rest]]]]]]];
      try discriminate. reflexivity.
Qed.

Lemma hexToRgb_shape_witness :
  byteRgb (26, 178, 195)
  /\ exists body,
       ("#1aB2c3"%string = body \/ "#1aB2c3"%string = String "#"%char body)
       /\ String.length body = 6%nat.
Proof.
  apply (hexToRgb_shape "#1aB2c3" (26, 178, 195)). reflexivity.
Defined.

(** The three-digit shorthand does not parse. *)
Example hexToRgb_shorthand : hexToRgb "#fff" = None.
Proof. reflexivity. Qed.

(** A fill whose colour does not parse, or whose seed lies outside the
    canvas, paints nothing and puts back the pixels it read, whatever
    the offset of the seed happens to address. *)
Theorem floodFill_inert (e : BrushEngine.t) (sx sy : Z)
    (fillColor : string) (fuel : nat) :
  hexToRgb fillColor = None
  \/ ~ inBounds (Canvas.width (ctx e)) (Canvas.height (ctx e)) (sx, sy) ->
  (1 <= fuel)%nat ->
  floodFillData fuel (Canvas.width (ctx e)) (Canvas.height (ctx e))
    (Canvas.pixels (ctx e)) sx sy fillColor
  = Some (Canvas.pixels (ctx e), [])
  /\ exists e', floodFill fuel sx sy fillColor e = Some e'
       /\ Canvas.pixels (ctx e') = Canvas.pixels (ctx e)
       /\ Canvas.strokes (ctx e') = Canvas.strokes (ctx e)
       /\ points e' = points e.
Proof.
  intros Hcase Hfuel.
  assert (floodFillData fuel (Canvas.width (ctx e))
            (Canvas.height (ctx e)) (Canvas.pixels (ctx e)) sx sy
            fillColor
          = Some (Canvas.pixels (ctx e), [])) as Hdata.
  { unfold floodFillData.
    destruct (hexToRgb fillColor) as [rgb|] eqn:Hhex; [|done].
    destruct Hcase as [? | Hout]; [done|].
    case_match; [done|].
    by rewrite fillLoop_outside. }
  split; [exact Hdata|].
  unfold floodFill. rewrite Hdata. eexists. split; [reflexivity|].
  by simpl.
Qed.

Lemma floodFill_inert_witness :
  floodFillData 1 (Canvas.width (ctx demoEngine))
    (Canvas.height (ctx demoEngine)) (Canvas.pixels (ctx demoEngine))
    (-1) 1 "#00ff00"
  = Some (Canvas.pixels (ctx demoEngine), [])
  /\ exists e', floodFill 1 (-1) 1 "#00ff00" demoEngine = Some e'
       /\ Canvas.pixels (ctx e') = Canvas.pixels (ctx demoEngine)
       /\ Canvas.strokes (ctx e') = Canvas.strokes (ctx demoEngine)
       /\ points e' = points demoEngine.
Proof.
  apply (floodFill_inert demoEngine (-1) 1 "#00ff00" 1).
  - right. unfold inBounds. simpl. lia.
  - lia.
Defined.

(** A fill started at a sample that is not finite. An infinite
    coordinate fails the bounds test, and so does a coordinate outside
    the canvas next to a NaN: the canvas is left as it is. A NaN next
    to a coordinate inside the canvas passes the test, and the fill
    does not return. *)
Example startStroke_astray :
  let sampleAt px py :=
    {| Point.x := px; Point.y := py; Point.pressure := JS.Fin (1 # 2);
       Point.tiltX := JS.ofZ 0; Point.tiltY := JS.ofZ 0;
       Point.timestamp := JS.ofZ 0 |} in
  let fill :=
    {| BrushSettings.tool := Fill; BrushSettings.size := JS.ofZ 8;
       BrushSettings.color := "#00ff00";
       BrushSettings.opacity := JS.ofZ 1;
       BrushSettings.smoothing := JS.Fin (1 # 2) |} in
  forall fuel,
    startStroke fuel (sampleAt JS.PInf (JS.ofZ 0)) fill demoEngine
    = Some {| points := [sampleAt JS.PInf (JS.ofZ 0)];
              ctx := ctx demoEngine |}
    /\ startStroke fuel (sampleAt JS.NaN (JS.ofZ 5)) fill demoEngine
       = Some {| points := [sampleAt JS.NaN (JS.ofZ 5)];
                 ctx := ctx demoEngine |}
    /\ startStroke fuel (sampleAt JS.NaN (JS.ofZ 1)) fill demoEngine
       = None
    /\ startStroke fuel (sampleAt JS.NaN JS.NaN) fill demoEngine = None.
Proof. intros sampleAt fill fuel. repeat split; reflexivity. Qed.

End ColourProofs.

(** ** What a sample adds to the canvas *)
Module SampleProofs.

Import BrushEngine Stroke StrokeProofs.








Lemma restore_saved c st rest :
  Canvas.saved c = st :: rest ->
  Canvas.state (Canvas.restore c) = st
  /\ Canvas.saved (Canvas.restore c) = rest
  /\ Canvas.strokes (Canvas.restore c) = Canvas.strokes c
  /\ Canvas.pixels (Canvas.restore c) = Canvas.pixels c.
Proof. intros Hs. unfold Canvas.restore. by rewrite Hs. Qed.

(** The engine between [ctx.save()] and the drawing routine. *)
Lemma addPoint_unfold point settings e :
  BrushSettings.tool settings = Brush
  \/ BrushSettings.tool settings = Eraser ->
  exists c1,
    Canvas.saved c1 = Canvas.state (ctx e) :: Canvas.saved (ctx e)
    /\ Canvas.pixels c1 = Canvas.pixels (ctx e)
    /\ Canvas.host c1 = Canvas.host (ctx e)
    /\ Canvas.strokes c1 = Canvas.strokes (ctx e)
    /\ Canvas.strokeStyle (Canvas.state c1)
       = Canvas.strokeStyle (Canvas.state (ctx e))
    /\ Canvas.globalCompositeOperation (Canvas.state c1)
       = (if decide (BrushSettings.tool settings = Eraser)
          then "destination-out"%string
          else Canvas.globalCompositeOperation (Canvas.state (ctx e)))
    /\ addPoint point settings e
       = let e1 := {| points := points e ++ [point]; ctx := c1 |} in
         let e2 := if (length (points e1) <? 4)%nat
                   then drawSimpleLine settings e1
                   else drawSpline settings e1 in
         {| points := points e2; ctx := Canvas.restore (ctx e2) |}.
Proof.
  intros [Htool | Htool]; unfold addPoint; rewrite Htool.
  - rewrite decide_False by done. eexists.
    split; [|split; [|split; [|split; [|split; [|split;
      [|reflexivity]]]]]]; done.
  - rewrite decide_True by done. eexists.
    split; [|split; [|split; [|split; [|split; [|split;
      [|reflexivity]]]]]]; done.
Qed.



(** A sample is not drawn when the tool is the fill or the select tool,
    which ignore it, or when the engine holds no sample yet, in which
    case the brush and the eraser record it: no [stroke()] call is
    made, and the drawing state and the saved states are as before. *)
Theorem addPoint_without_stroke (point : Point.t)
    (settings : BrushSettings.t) (e : BrushEngine.t) :
  BrushSettings.tool settings = Fill
  \/ BrushSettings.tool settings = Select
  \/ points e = [] ->
  Canvas.strokes (ctx (addPoint point settings e)) = Canvas.strokes (ctx e)
  /\ Canvas.state (ctx (addPoint point settings e)) = Canvas.state (ctx e)
  /\ Canvas.saved (ctx (addPoint point settings e)) = Canvas.saved (ctx e)
  /\ points (addPoint point settings e)
     = match BrushSettings.tool settings with
       | Fill | Select => points e
       | _ => [point]
       end.
Proof.
  intros Hcase.
  destruct (BrushSettings.tool settings) eqn:Htool;
    try (unfold addPoint; by rewrite Htool).
  - destruct Hcase as [? | [? | Hpts]]; [done.. |].
    destruct (addPoint_unfold point settings e (or_introl Htool))
      as (c1 & Hsaved & Hpix & Hhost & Hstrokes & Hstyle1 & Hgco & ->).
    rewrite Hpts. cbn zeta. cbn [points app length Nat.ltb Nat.leb].
    unfold drawSimpleLine.
    cbn [points app length Nat.ltb Nat.leb ctx].
    destruct (restore_saved _ _ _ Hsaved) as (Hst & Hsv & Hstr & _).
    by rewrite Hst, Hsv, Hstr.
  - destruct Hcase as [? | [? | Hpts]]; [done.. |].
    destruct (addPoint_unfold point settings e (or_intror Htool))
      as (c1 & Hsaved & Hpix & Hhost & Hstrokes & Hstyle1 & Hgco & ->).
    rewrite Hpts. cbn zeta. cbn [points app length Nat.ltb Nat.leb].
    unfold drawSimpleLine.
    cbn [points app length Nat.ltb Nat.leb ctx].
    destruct (restore_saved _ _ _ Hsaved) as (Hst & Hsv & Hstr & _).
    by rewrite Hst, Hsv, Hstr.
Qed.

Lemma addPoint_without_stroke_witness :
  Canvas.strokes (ctx (addPoint (sample 1 1 (1 # 2)) (brush 8)
                         (engineWith [])))
  = Canvas.strokes (ctx (engineWith []))
  /\ Canvas.state (ctx (addPoint (sample 1 1 (1 # 2)) (brush 8)
                          (engineWith [])))
     = Canvas.state (ctx (engineWith []))
  /\ Canvas.saved (ctx (addPoint (sample 1 1 (1 # 2)) (brush 8)
                          (engineWith [])))
     = Canvas.saved (ctx (engineWith []))
  /\ points (addPoint (sample 1 1 (1 # 2)) (brush 8) (engineWith []))
     = match BrushSettings.tool (brush 8) with
       | Fill | Select => points (engineWith [])
       | _ => [sample 1 1 (1 # 2)]
       end.
Proof.
  apply (addPoint_without_stroke (sample 1 1 (1 # 2)) (brush 8)
           (engineWith [])).
  right. right. reflexivity.
Defined.

End SampleProofs.

(** ** Playback over many ticks *)
Module TimingProofs.

Import AnimationLoop Playback NumberProofs PlaybackProofs.

Local Open Scope Q_scope.











(** After [stop()], whatever the fields hold, ticks do nothing: the
    loop stays as it is, [onFrame] is not called, and no tick asks for
    another one, so the chain of animation frames ends. *)
Theorem ticks_after_stop (a : AnimationLoop.t) (nows : list JS.number) :
  ticks nows (stop a) = (stop a, [])
  /\ forall now, snd (loop now (stop a))
                 = {| onFrame := []; requested := 0 |}.
Proof.
  split; [|done].
  induction nows as [|now rest IH]; [done|].
  change (ticks (now :: rest) (stop a))
    with (let '(a2, calls) := ticks rest (stop a) in (a2, [] ++ calls)).
  by rewrite IH.
Qed.

(** One second of playback at 12 frames per second over five frames,
    with four irregular ticks: two of them report a frame, and the
    baseline ends a rounded interval before the last tick, which the
    rounded quotient counted as passed. *)
Example playback_one_second :
  let r := ticks (map JS.Fin [1050; 1200; 1210; 2000]) fiveFrames in
  currentFrame (fst r) = JS.ofZ 2
  /\ lastTime (fst r) = JS.Fin (8429589146282667 # 4398046511104)
  /\ snd r = [JS.ofZ 2; JS.ofZ 2].
Proof. vm_compute. auto. Qed.

(** At 15 frames per second the interval is a rounded 66 2/3 ms, a
    little above the exact one: a tick one second after the start
    finds fourteen whole intervals passed, not fifteen. *)
Example playback_fifteen :
  let a :=
    fst (start (JS.ofZ 0) (JS.ofZ 0)
           (setTotalFrames (JS.ofZ 100) (setFPS (JS.ofZ 15) create))) in
  frameInterval a = JS.Fin (4691249611844267 # 70368744177664)
  /\ (1000 # 15 < 4691249611844267 # 70368744177664)
  /\ onFrame (snd (loop (JS.ofZ 1000) a)) = [JS.ofZ 14].
Proof. vm_compute. auto. Qed.

End TimingProofs.

(** ** History over a session *)
Module SessionProofs.

Import StorageManager App Editor Session HistoryProofs.

Lemma withHistory_same s :
  withHistory s (undoStack s) (redoStack s) (storageManager s) = s.
Proof. by destruct s. Qed.

Lemma storedLayer_at (s : App.t) id :
  storedLayer id s = layers (idb (storageManager s)) !! id.
Proof. reflexivity. Qed.

(** What [undo] does: nothing, or one snapshot moves from the undo
    stack to the store while the stored blob goes on the redo stack. *)
Lemma undo_cases s :
  after undo s = s
  \/ exists id undos prev,
       activeLayerId s = Some id
       /\ undoStack s = undos ++ [prev]
       /\ db (storageManager s) = true
       /\ after undo s
          = withHistory s undos (redoStack s ++ [storedLayer id s])
              (writeBack id prev (storageManager s)).
Proof.
  unfold after, undo.
  destruct (last (undoStack s)) as [prev|] eqn:Hlast; [|by left].
  apply last_Some in Hlast as [undos Hundos].
  destruct (frames s !! currentFrameIndex s) as [f|] eqn:Hf; [|by left].
  destruct s as [fs cur al pl us rs [dbf [ls frs]]].
  simpl in Hundos, Hf. subst us. destruct dbf.
  - right. exists (Frame.layer f al), undos, prev.
    split; [unfold activeLayerId; simpl; by rewrite Hf|].
    split; [done|]. split; [done|].
    unfold bind, storage, getLayer, setRedoStack, setUndoStack,
      restoreLayer, storedLayer, withHistory, writeBack.
    fields. rewrite sliceInit_snoc.
    destruct prev as [b|]; unfold storage, saveLayer, deleteLayer;
      fields; [done|]. by case_decide.
  - left. unfold bind, storage, getLayer. by fields.
Qed.

Lemma redo_cases s :
  after redo s = s
  \/ exists id redos next,
       activeLayerId s = Some id
       /\ redoStack s = redos ++ [next]
       /\ db (storageManager s) = true
       /\ after redo s
          = withHistory s (undoStack s ++ [storedLayer id s]) redos
              (writeBack id next (storageManager s)).
Proof.
  unfold after, redo.
  destruct (last (redoStack s)) as [next|] eqn:Hlast; [|by left].
  apply last_Some in Hlast as [redos Hredos].
  destruct (frames s !! currentFrameIndex s) as [f|] eqn:Hf; [|by left].
  destruct s as [fs cur al pl us rs [dbf [ls frs]]].
  simpl in Hredos, Hf. subst rs. destruct dbf.
  - right. exists (Frame.layer f al), redos, next.
    split; [unfold activeLayerId; simpl; by rewrite Hf|].
    split; [done|]. split; [done|].
    unfold bind, storage, getLayer, setRedoStack, setUndoStack,
      restoreLayer, storedLayer, withHistory, writeBack.
    fields. rewrite sliceInit_snoc.
    destruct next as [b|]; unfold storage, saveLayer, deleteLayer;
      fields; [done|]. by case_decide.
  - left. unfold bind, storage, getLayer. by fields.
Qed.

(** What the pointer going down does to the history: nothing, or the
    stored blob is pushed on the undo stack, of which the nineteen
    latest snapshots are kept, and the redo stack is emptied. *)
Lemma handlePointerDown_cases s :
  after handlePointerDown s = s
  \/ exists id,
       activeLayerId s = Some id
       /\ isPlaying s = false
       /\ db (storageManager s) = true
       /\ after handlePointerDown s
          = withHistory s
              (sliceLast 19 (undoStack s) ++ [storedLayer id s]) []
              (storageManager s).
Proof.
  unfold after, handlePointerDown.
  destruct (isPlaying s) eqn:Hpl; [by left|].
  destruct (frames s !! currentFrameIndex s) as [f|] eqn:Hf; [|by left].
  destruct s as [fs cur al pl us rs [dbf [ls frs]]].
  simpl in Hpl, Hf. subst pl. destruct dbf.
  - right. exists (Frame.layer f al).
    split; [unfold activeLayerId; simpl; by rewrite Hf|].
    split; [done|]. split; [done|].
    unfold bind, storage, getLayer, setRedoStack, setUndoStack,
      storedLayer, withHistory. by fields.
  - left. unfold bind, storage, getLayer. by fields.
Qed.

(** What the pointer going up does: nothing, or the blob is stored
    under the id of the active layer. *)
Lemma handlePointerUp_cases blob s :
  after (handlePointerUp blob) s = s
  \/ exists id b,
       activeLayerId s = Some id /\ blob = Some b
       /\ after (handlePointerUp blob) s
          = withHistory s (undoStack s) (redoStack s)
              (writeBack id (Some b) (storageManager s)).
Proof.
  unfold after, handlePointerUp.
  destruct blob as [b|]; [|by left].
  destruct (frames s !! currentFrameIndex s) as [f|] eqn:Hf; [|by left].
  right. exists (Frame.layer f (activeLayer s)), b.
  split; [unfold activeLayerId; by rewrite Hf|]. split; [done|].
  unfold storage, withHistory, writeBack.
  by destruct (saveLayer _ _ _).
Qed.

(** A write under [id] leaves every other layer, the [frames]
    collection and the connection as they are. *)
Lemma writeBack_other id snapshot sm id' :
  id' <> id ->
  layers (idb (writeBack id snapshot sm)) !! id' = layers (idb sm) !! id'.
Proof.
  intros Hne. unfold writeBack.
  destruct snapshot as [b|]; unfold saveLayer, deleteLayer;
    destruct (db sm); simpl; try done.
  - by rewrite lookup_insert_ne.
  - case_decide; simpl; [done|]. by rewrite lookup_delete_ne.
Qed.

Lemma writeBack_frames id snapshot sm :
  StorageManager.frames (idb (writeBack id snapshot sm))
  = StorageManager.frames (idb sm)
  /\ db (writeBack id snapshot sm) = db sm.
Proof.
  unfold writeBack.
  destruct snapshot as [b|]; unfold saveLayer, deleteLayer;
    destruct (db sm) eqn:Hdb; simpl; try done.
  by case_decide.
Qed.

Lemma tame_ret {A : Type} (a : A) : tame (ret a).
Proof. intros s. by left. Qed.

Lemma tame_storage {A : Type} (op : M StorageManager.t A) :
  tame (storage op).
Proof.
  intros s. left. unfold storage. by destruct (op (storageManager s)).
Qed.

Lemma tame_setFrames fs : tame (setFrames fs).
Proof. intros s. by right. Qed.

Lemma tame_setCurrentFrameIndex i : tame (setCurrentFrameIndex i).
Proof.
  intros s. unfold setCurrentFrameIndex. case_decide; [by left | by right].
Qed.

Lemma tame_setActiveLayer l : tame (setActiveLayer l).
Proof.
  intros s. unfold setActiveLayer. case_decide; [by left | by right].
Qed.

Lemma tame_bind {A B : Type} (m : M App.t A) (k : A -> M App.t B) :
  tame m -> (forall a, tame (k a)) -> tame (bind m k).
Proof.
  intros Hm Hk s. unfold bind. specialize (Hm s).
  destruct (m s) as [[a | msg] s1]; simpl in *; [|done].
  destruct (Hk a s1) as [[-> ->] | [-> ->]]; [done | by right].
Qed.

Create HintDb tame.

#[local] Hint Resolve tame_ret tame_storage tame_setFrames
  tame_setCurrentFrameIndex tame_setActiveLayer : tame.

Lemma tame_addFrame u : tame (addFrame u).
Proof.
  intros s. unfold addFrame.
  apply (tame_bind (setFrames _)); [auto with tame|]. intros _.
  apply tame_bind; auto with tame.
Qed.

Lemma tame_duplicateFrame i u : tame (duplicateFrame i u).
Proof.
  intros s. unfold duplicateFrame.
  destruct (frames s !! i); [|apply tame_ret].
  repeat (apply tame_bind; [auto with tame | intros _]).
  auto with tame.
Qed.

Lemma tame_deleteFrame i : tame (deleteFrame i).
Proof.
  intros s. unfold deleteFrame.
  destruct (length (frames s) <=? 1)%nat; [apply tame_ret|].
  destruct (frames s !! i); [|apply tame_ret].
  repeat (apply tame_bind; [auto with tame | intros _]).
  case_match; auto with tame.
Qed.

Lemma snapshots_tame {A : Type} (m : M App.t A) s :
  tame m -> (snapshots s <= 20)%nat -> (snapshots (after m s) <= 20)%nat.
Proof.
  intros Hm Hs. unfold snapshots, after in *.
  destruct (Hm s) as [[-> ->] | [-> ->]]; simpl; lia.
Qed.

Lemma snapshots_runEvent ev s :
  (snapshots s <= 20)%nat -> (snapshots (runEvent ev s) <= 20)%nat.
Proof.
  intros Hs. destruct ev as [b | | | l | i | [u | i u | i]]; simpl.
  - unfold mutation.
    assert (snapshots (after handlePointerDown s) <= 20)%nat as Hdown.
    { destruct (handlePointerDown_cases s) as [-> | (id & _ & _ & _ & ->)];
        [done|].
      unfold snapshots, withHistory, sliceLast. simpl.
      rewrite length_app, length_drop. simpl. lia. }
    destruct (handlePointerUp_cases (Some b) (after handlePointerDown s))
      as [-> | (id & b' & _ & _ & ->)]; done.
  - destruct (undo_cases s) as [-> | (id & u & p & _ & Hu & _ & ->)];
      [done|].
    unfold snapshots in *. rewrite Hu in Hs. simpl.
    rewrite length_app in *. simpl in *. lia.
  - destruct (redo_cases s) as [-> | (id & r & n & _ & Hr & _ & ->)];
      [done|].
    unfold snapshots in *. rewrite Hr in Hs. simpl.
    rewrite length_app in *. simpl in *. lia.
  - apply snapshots_tame; auto with tame.
  - apply snapshots_tame; auto with tame.
  - apply snapshots_tame; [apply tame_addFrame | done].
  - apply snapshots_tame; [apply tame_duplicateFrame | done].
  - apply snapshots_tame; [apply tame_deleteFrame | done].
Qed.

(** The history never holds more than twenty snapshots: whatever the
    user does, in whatever state of the store, the undo and the redo
    stack together stay within twenty entries once they are. *)
Theorem history_bounded (evs : list Event) (s : App.t) :
  (snapshots s <= 20)%nat ->
  (length (undoStack (runEvents evs s))
   + length (redoStack (runEvents evs s)) <= 20)%nat.
Proof.
  revert s. induction evs as [|ev evs IH]; intros s Hs; [done|].
  apply IH. by apply snapshots_runEvent.
Qed.

Lemma history_bounded_witness :
  (length (undoStack
     (runEvents (repeat (Stroke [Byte.x01]) 25 ++ [Undo; Undo; Redo])
        oneFrame))
   + length (redoStack
       (runEvents (repeat (Stroke [Byte.x01]) 25 ++ [Undo; Undo; Redo])
          oneFrame)) <= 20)%nat.
Proof.
  apply (history_bounded
           (repeat (Stroke [Byte.x01]) 25 ++ [Undo; Undo; Redo]) oneFrame).
  vm_compute. lia.
Defined.

(** After twenty-five strokes, two undos and one redo, the stacks hold
    nineteen and one snapshot. *)
Example history_after_many_strokes :
  let s := runEvents (repeat (Stroke [Byte.x01]) 25 ++ [Undo; Undo; Redo])
             oneFrame in
  length (undoStack s) = 19%nat /\ length (redoStack s) = 1%nat.
Proof. vm_compute. auto. Qed.

Lemma untouched_withHistory id' s id snapshot undos redos :
  id' <> id ->
  untouched id' s
    (withHistory s undos redos (writeBack id snapshot (storageManager s))).
Proof.
  intros Hne. unfold untouched, storedLayer, withHistory. simpl.
  rewrite writeBack_other by done.
  by rewrite (proj1 (writeBack_frames id snapshot (storageManager s))).
Qed.

Lemma untouched_refl id' s : untouched id' s s.
Proof. by repeat split. Qed.

Lemma untouched_runEvent ev s id' :
  isEdit ev -> activeLayerId s <> Some id' ->
  untouched id' s (runEvent ev s).
Proof.
  intros Hev Hid. destruct ev as [b | | | l | i | op]; try done; simpl.
  - unfold mutation.
    assert (untouched id' s (after handlePointerDown s)
            /\ activeLayerId (after handlePointerDown s)
               = activeLayerId s) as [Hdown Hact].
    { destruct (handlePointerDown_cases s) as [-> | (id & _ & _ & _ & ->)];
        [split; [apply untouched_refl | done]|].
      split; [|done]. unfold untouched, storedLayer, withHistory.
      by simpl. }
    destruct (handlePointerUp_cases (Some b) (after handlePointerDown s))
      as [-> | (id & b' & Hid' & _ & ->)]; [done|].
    rewrite Hact in Hid'.
    assert (id' <> id) as Hne by congruence.
    destruct Hdown as (H1 & H2 & H3 & H4 & H5).
    destruct (untouched_withHistory id' (after handlePointerDown s) id
                (Some b') (undoStack (after handlePointerDown s))
                (redoStack (after handlePointerDown s)) Hne)
      as (G1 & G2 & G3 & G4 & G5).
    unfold untouched. by rewrite G1, G2, G3, G4, G5.
  - destruct (undo_cases s) as [-> | (id & u & p & Hid' & _ & _ & ->)];
      [apply untouched_refl|].
    apply untouched_withHistory. congruence.
  - destruct (redo_cases s) as [-> | (id & r & n & Hid' & _ & _ & ->)];
      [apply untouched_refl|].
    apply untouched_withHistory. congruence.
Qed.

Lemma activeLayerId_untouched id' s s' :
  untouched id' s s' -> activeLayerId s' = activeLayerId s.
Proof.
  intros (_ & _ & Hf & Hc & Ha). unfold activeLayerId.
  by rewrite Hf, Hc, Ha.
Qed.

(** Strokes, undos and redos work on the active layer of the current
    frame only: the blob of every other layer, the [frames]
    collection, the frame list, the current frame and the active layer
    are after any number of them what they were before. *)
Theorem edits_touch_active_layer_only (evs : list Event) (s : App.t)
    (id' : string) :
  Forall isEdit evs ->
  activeLayerId s <> Some id' ->
  storedLayer id' (runEvents evs s) = storedLayer id' s
  /\ StorageManager.frames (idb (storageManager (runEvents evs s)))
     = StorageManager.frames (idb (storageManager s))
  /\ frames (runEvents evs s) = frames s
  /\ currentFrameIndex (runEvents evs s) = currentFrameIndex s
  /\ activeLayer (runEvents evs s) = activeLayer s.
Proof.
  revert s. induction evs as [|ev evs IH]; intros s Hevs Hid; [done|].
  apply Forall_cons in Hevs as [Hev Hevs].
  pose proof (untouched_runEvent ev s id' Hev Hid) as Hstep.
  pose proof (activeLayerId_untouched _ _ _ Hstep) as Hact.
  destruct Hstep as (H1 & H2 & H3 & H4 & H5).
  destruct (IH (runEvent ev s) Hevs) as (G1 & G2 & G3 & G4 & G5);
    [by rewrite Hact|].
  change (runEvents (ev :: evs) s) with (runEvents evs (runEvent ev s)).
  by rewrite G1, G2, G3, G4, G5.
Qed.

Lemma edits_touch_active_layer_only_witness :
  storedLayer "a-lineart"
    (runEvents [Stroke [Byte.x05]; Stroke [Byte.x06]; Undo; Undo; Redo]
       (after (setActiveLayer Color) twoFrames))
  = storedLayer "a-lineart" (after (setActiveLayer Color) twoFrames)
  /\ StorageManager.frames
       (idb (storageManager
          (runEvents [Stroke [Byte.x05]; Stroke [Byte.x06]; Undo; Undo; Redo]
             (after (setActiveLayer Color) twoFrames))))
     = StorageManager.frames
         (idb (storageManager (after (setActiveLayer Color) twoFrames)))
  /\ frames
       (runEvents [Stroke [Byte.x05]; Stroke [Byte.x06]; Undo; Undo; Redo]
          (after (setActiveLayer Color) twoFrames))
     = frames (after (setActiveLayer Color) twoFrames)
  /\ currentFrameIndex
       (runEvents [Stroke [Byte.x05]; Stroke [Byte.x06]; Undo; Undo; Redo]
          (after (setActiveLayer Color) twoFrames))
     = currentFrameIndex (after (setActiveLayer Color) twoFrames)
  /\ activeLayer
       (runEvents [Stroke [Byte.x05]; Stroke [Byte.x06]; Undo; Undo; Redo]
          (after (setActiveLayer Color) twoFrames))
     = activeLayer (after (setActiveLayer Color) twoFrames).
Proof.
  apply (edits_touch_active_layer_only
           [Stroke [Byte.x05]; Stroke [Byte.x06]; Undo; Undo; Redo]
           (after (setActiveLayer Color) twoFrames) "a-lineart").
  - repeat constructor.
  - vm_compute. discriminate.
Defined.

(** One [undo] takes back one [redo]. *)
Theorem undo_redo_inverse (s : App.t) :
  editable s -> redoStack s <> [] -> after undo (after redo s) = s.
Proof.
  intros (Hdb & id & Hid & Hne) Hst.
  destruct (redoStack s) as [|x xs] eqn:Hrs using rev_ind; [done|].
  clear IHxs Hst. unfold after.
  rewrite (redo_restores s id x xs Hdb Hid Hne Hrs). simpl.
  rewrite (undo_restores _ id (storedLayer id s) (undoStack s));
    [|done..].
  destruct s as [fs cur al pl us rs [dbf [ls frs]]].
  simpl in Hdb, Hrs. subst dbf rs.
  unfold restored, storedLayer. fields.
  rewrite putSnapshot_lookup, putSnapshot_back. reflexivity.
Qed.

Lemma undo_redo_inverse_witness :
  after undo
    (after redo (after undo (mutation [Byte.x02] (mutation [Byte.x01]
                                                   oneFrame))))
  = after undo (mutation [Byte.x02] (mutation [Byte.x01] oneFrame)).
Proof.
  apply (undo_redo_inverse
           (after undo (mutation [Byte.x02] (mutation [Byte.x01]
                                               oneFrame)))).
  - split; [reflexivity|]. exists "a-lineart"%string.
    split; [reflexivity | discriminate].
  - vm_compute. discriminate.
Defined.

(** While the editor is playing, the pointer going down takes no
    snapshot, but the pointer going up still stores its blob under the
    active layer: the blob it replaces is on neither history stack. *)
Theorem stroke_while_playing (s : App.t) (id : string) (blob : Blob) :
  isPlaying s = true ->
  db (storageManager s) = true ->
  activeLayerId s = Some id ->
  undoStack (mutation blob s) = undoStack s
  /\ redoStack (mutation blob s) = redoStack s
  /\ storedLayer id (mutation blob s) = Some blob.
Proof.
  intros Hpl Hdb Hid. unfold mutation.
  assert (after handlePointerDown s = s) as ->
    by (unfold after, handlePointerDown; by rewrite Hpl).
  unfold activeLayerId in Hid.
  destruct (frames s !! currentFrameIndex s) as [f|] eqn:Hf; [|done].
  injection Hid as Hid.
  unfold after, handlePointerUp. rewrite Hf, Hid.
  unfold storage, saveLayer, storedLayer. rewrite Hdb. simpl.
  by rewrite lookup_insert_eq.
Qed.

Lemma stroke_while_playing_witness :
  undoStack (mutation [Byte.x07]
               (togglePlayback (mutation [Byte.x01] oneFrame)))
  = undoStack (togglePlayback (mutation [Byte.x01] oneFrame))
  /\ redoStack (mutation [Byte.x07]
                  (togglePlayback (mutation [Byte.x01] oneFrame)))
     = redoStack (togglePlayback (mutation [Byte.x01] oneFrame))
  /\ storedLayer "a-lineart"
       (mutation [Byte.x07] (togglePlayback (mutation [Byte.x01] oneFrame)))
     = Some [Byte.x07].
Proof.
  apply (stroke_while_playing
           (togglePlayback (mutation [Byte.x01] oneFrame)) "a-lineart"
           [Byte.x07]).
  - reflexivity.
  - reflexivity.
  - reflexivity.
Defined.

End SessionProofs.

(** ** Frame operations on an initialised store *)
Module TimelineProofs.

Import StorageManager App Editor Session FrameProofs.

Lemma addFrame_settled u s :
  db (storageManager s) = true ->
  addFrame u s
  = (Ok tt,
     settled s (frames s ++ [createNewFrame u (length (frames s))])
       (length (frames s))
       (layers (idb (storageManager s)))
       (<[frameId u := createNewFrame u (length (frames s))]>
          (StorageManager.frames (idb (storageManager s))))).
Proof.
  intros Hdb. destruct s as [fs cur al pl us rs [dbf [ls frs]]].
  simpl in Hdb. subst dbf.
  unfold addFrame, bind, setFrames, storage, saveFrame,
    setCurrentFrameIndex, settled. fields.
  rewrite length_app. simpl.
  replace (length fs + 1 - 1)%nat with (length fs) by lia.
  case_decide; [subst cur|]; reflexivity.
Qed.

Lemma duplicateFrame_settled i u s src :
  db (storageManager s) = true ->
  frames s !! i = Some src ->
  duplicateFrame i u s
  = (Ok tt,
     settled s
       (reindex (spliceInsert (i + 1) (createNewFrame u (i + 1))
                   (frames s)))
       (i + 1)
       (copied (Frame.layer src Color) (colorId u)
          (copied (Frame.layer src Lineart) (lineartId u)
             (copied (Frame.layer src Background) (backgroundId u)
                (layers (idb (storageManager s))))))
       (<[frameId u := createNewFrame u (i + 1)]>
          (StorageManager.frames (idb (storageManager s))))).
Proof.
  intros Hdb Hsrc. unfold duplicateFrame. rewrite Hsrc.
  destruct s as [fs cur al pl us rs [dbf [ls frs]]].
  simpl in Hdb. subst dbf.
  unfold bind, storage, copyLayer, bind, getLayer, saveLayer, ret,
    setFrames, saveFrame, setCurrentFrameIndex, settled, copied.
  fields. cbn [Frame.layer createNewFrame Frame.layers Frame.background
    Frame.lineart Frame.color Frame.id].
  destruct (ls !! Frame.background (Frame.layers src)) as [b1|]; fields;
    match goal with
    | |- context [?m !! Frame.lineart (Frame.layers src)] =>
        destruct (m !! Frame.lineart (Frame.layers src)) as [b2|]
    end; fields;
    match goal with
    | |- context [?m !! Frame.color (Frame.layers src)] =>
        destruct (m !! Frame.color (Frame.layers src)) as [b3|]
    end; fields;
    (case_decide as Hc; [rewrite <- Hc|]; reflexivity).
Qed.

Lemma deleteFrame_settled i s f :
  db (storageManager s) = true ->
  (1 < length (frames s))%nat ->
  frames s !! i = Some f ->
  deleteFrame i s
  = (Ok tt,
     settled s (reindex (delete i (frames s)))
       (if (length (frames s) - 1 <=? currentFrameIndex s)%nat
        then length (frames s) - 2 else currentFrameIndex s)%nat
       (layers (idb
          (writeBack (Frame.layer f Color) None
             (writeBack (Frame.layer f Lineart) None
                (writeBack (Frame.layer f Background) None
                   (storageManager s))))))
       (StorageManager.frames (idb (storageManager s)))).
Proof.
  intros Hdb Hlen Hf. unfold deleteFrame.
  destruct (Nat.leb_spec (length (frames s)) 1) as [|_]; [lia|].
  rewrite Hf, filterFrom_delete. rewrite decide_True by lia.
  rewrite Nat.sub_0_r.
  assert (length (reindex (delete i (frames s)))
          = (length (frames s) - 1)%nat) as Hl.
  { unfold reindex. rewrite length_imap, length_delete by done. lia. }
  rewrite Hl.
  destruct s as [fs cur al pl us rs [dbf [ls frs]]].
  simpl in Hdb, Hlen, Hf. subst dbf.
  unfold settled, writeBack, bind, setFrames, storage, deleteLayer,
    setCurrentFrameIndex, ret. fields.
  repeat (case_decide; fields).
  all: destruct (Nat.leb_spec (length fs - 1) cur); fields.
  all: first
    [ reflexivity
    | replace (Nat.max 0 (length fs - 1 - 1)) with (length fs - 2)%nat
        by lia;
      case_decide as Hc; [rewrite <- Hc|]; reflexivity ].
Qed.

Lemma db_settled s fs cur ls frs :
  db (storageManager (settled s fs cur ls frs)) = true.
Proof. reflexivity. Qed.

(** A frame operation keeps the current frame inside the list. *)
Lemma current_runOp op s :
  db (storageManager s) = true ->
  (currentFrameIndex s < length (frames s))%nat ->
  db (storageManager (runOp op s)) = true
  /\ (currentFrameIndex (runOp op s) < length (frames (runOp op s)))%nat.
Proof.
  intros Hdb Hcur. destruct op as [u | i u | i]; simpl; unfold after.
  - rewrite addFrame_settled by done. simpl.
    rewrite length_app. simpl. split; [done | lia].
  - destruct (frames s !! i) as [src|] eqn:Hsrc.
    + rewrite (duplicateFrame_settled i u s src) by done. simpl.
      split; [done|]. apply lookup_lt_Some in Hsrc.
      unfold reindex, spliceInsert.
      rewrite length_imap, length_app. simpl.
      rewrite length_take, length_drop. lia.
    + unfold duplicateFrame. by rewrite Hsrc.
  - destruct (Nat.leb_spec (length (frames s)) 1) as [Hle | Hgt].
    { unfold deleteFrame.
      destruct (Nat.leb_spec (length (frames s)) 1); [done | lia]. }
    destruct (frames s !! i) as [f|] eqn:Hf.
    + rewrite (deleteFrame_settled i s f) by done. simpl.
      split; [done|]. unfold reindex.
      rewrite length_imap, length_delete by done.
      destruct (Nat.leb_spec (length (frames s) - 1)
                  (currentFrameIndex s)); lia.
    + unfold deleteFrame.
      destruct (Nat.leb_spec (length (frames s)) 1); [lia|].
      by rewrite Hf.
Qed.

(** On an initialised store the current frame always exists: if it
    does before a sequence of add, duplicate and delete operations, it
    does after it. *)
Theorem current_frame_exists (ops : list FrameOp) (s : App.t) :
  db (storageManager s) = true ->
  is_Some (frames s !! currentFrameIndex s) ->
  is_Some (frames (runOps ops s) !! currentFrameIndex (runOps ops s)).
Proof.
  intros Hdb Hcur. apply lookup_lt_is_Some in Hcur.
  apply lookup_lt_is_Some.
  revert s Hdb Hcur. induction ops as [|op ops IH]; intros s Hdb Hcur;
    [done|].
  destruct (current_runOp op s Hdb Hcur) as [Hdb' Hcur'].
  by apply IH.
Qed.

Lemma current_frame_exists_witness :
  is_Some
    (frames (runOps [DeleteFrame 1; DuplicateFrame 0 uuidsC;
                     DeleteFrame 1; DeleteFrame 0; DeleteFrame 0]
               (after (setCurrentFrameIndex 1) twoFrames))
     !! currentFrameIndex
          (runOps [DeleteFrame 1; DuplicateFrame 0 uuidsC;
                   DeleteFrame 1; DeleteFrame 0; DeleteFrame 0]
             (after (setCurrentFrameIndex 1) twoFrames))).
Proof.
  apply (current_frame_exists
           [DeleteFrame 1; DuplicateFrame 0 uuidsC;
            DeleteFrame 1; DeleteFrame 0; DeleteFrame 0]
           (after (setCurrentFrameIndex 1) twoFrames)).
  - reflexivity.
  - vm_compute. eexists. reflexivity.
Defined.

Lemma reindex_ids fs : Frame.id <$> reindex fs = Frame.id <$> fs.
Proof.
  unfold reindex. rewrite fmap_imap.
  apply (imap_const Frame.id).
Qed.

Lemma reindex_layers fs : Frame.layers <$> reindex fs = Frame.layers <$> fs.
Proof.
  unfold reindex. rewrite fmap_imap.
  apply (imap_const Frame.layers).
Qed.

Lemma fmap_spliceInsert {A B : Type} (g : A -> B) i a (l : list A) :
  g <$> spliceInsert i a l = spliceInsert i (g a) (g <$> l).
Proof.
  unfold spliceInsert. by rewrite fmap_app, fmap_cons, fmap_take, fmap_drop.
Qed.

(** Duplicating the frame at [index] on an initialised store puts a
    new frame right after it, makes it the current frame and shifts the
    later frames by one place: ids and layer references keep their
    order around the new frame, and the frame at [index + 1] is the new
    one with that index. *)
Theorem duplicateFrame_inserts (index : nat) (u : UUIDs) (s : App.t) :
  db (storageManager s) = true ->
  is_Some (frames s !! index) ->
  Frame.id <$> frames (after (duplicateFrame index u) s)
  = take (index + 1) (Frame.id <$> frames s)
    ++ frameId u :: drop (index + 1) (Frame.id <$> frames s)
  /\ Frame.layers <$> frames (after (duplicateFrame index u) s)
     = take (index + 1) (Frame.layers <$> frames s)
       ++ Frame.layers (createNewFrame u 0)
          :: drop (index + 1) (Frame.layers <$> frames s)
  /\ frames (after (duplicateFrame index u) s) !! (index + 1)%nat
     = Some (createNewFrame u (index + 1))
  /\ currentFrameIndex (after (duplicateFrame index u) s) = (index + 1)%nat.
Proof.
  intros Hdb [src Hsrc]. unfold after.
  rewrite (duplicateFrame_settled index u s src) by done. simpl.
  rewrite reindex_ids, reindex_layers, !fmap_spliceInsert.
  split; [done|]. split; [done|]. split; [|done].
  apply lookup_lt_Some in Hsrc.
  unfold reindex. rewrite list_lookup_imap. unfold spliceInsert.
  rewrite lookup_app_r by (rewrite length_take; lia).
  rewrite length_take.
  replace (index + 1 - (index + 1) `min` length (frames s))%nat
    with 0%nat by lia.
  reflexivity.
Qed.

Lemma duplicateFrame_inserts_witness :
  Frame.id <$> frames (after (duplicateFrame 0 uuidsC) twoFrames)
  = take (0 + 1) (Frame.id <$> frames twoFrames)
    ++ frameId uuidsC :: drop (0 + 1) (Frame.id <$> frames twoFrames)
  /\ Frame.layers <$> frames (after (duplicateFrame 0 uuidsC) twoFrames)
     = take (0 + 1) (Frame.layers <$> frames twoFrames)
       ++ Frame.layers (createNewFrame uuidsC 0)
          :: drop (0 + 1) (Frame.layers <$> frames twoFrames)
  /\ frames (after (duplicateFrame 0 uuidsC) twoFrames) !! (0 + 1)%nat
     = Some (createNewFrame uuidsC (0 + 1))
  /\ currentFrameIndex (after (duplicateFrame 0 uuidsC) twoFrames)
     = (0 + 1)%nat.
Proof.
  apply (duplicateFrame_inserts 0 uuidsC twoFrames).
  - reflexivity.
  - eexists. reflexivity.
Defined.

Lemma lookup_copied (a b k : string) (m : gmap string Blob) :
  copied a b m !! k
  = if decide (k = b) then from_option Some (m !! b) (m !! a) else m !! k.
Proof.
  unfold copied. destruct (m !! a) as [x|] eqn:Ha; simpl.
  - rewrite lookup_insert. repeat case_decide; congruence.
  - case_decide; congruence.
Qed.

Lemma NoDup_three {A : Type} (a b c : A) :
  NoDup [a; b; c] -> a <> b /\ a <> c /\ b <> c.
Proof.
  intros H. inversion H as [|? ? Ha H']; subst.
  inversion H' as [|? ? Hb _]; subst.
  repeat split; intros ->; [apply Ha | apply Ha | apply Hb];
    repeat constructor.
Qed.

Lemma not_elem_of_three {A : Type} (x a b c : A) :
  x ∉ [a; b; c] -> x <> a /\ x <> b /\ x <> c.
Proof.
  intros H. repeat split; intros ->; apply H; repeat constructor.
Qed.

(** Duplicating a frame copies its three layer blobs: with unused layer
    ids for the new frame, each layer of the new frame holds what the
    same layer of the source holds (nothing, if the source layer was
    never saved), and every other stored layer is as before. *)
Theorem duplicateFrame_copies_layers
    (index : nat) (u : UUIDs) (s : App.t) (src : Frame.t) :
  db (storageManager s) = true ->
  frames s !! index = Some src ->
  freshLayers u src (layers (idb (storageManager s))) ->
  (forall ty,
     storedLayer (Frame.layer (createNewFrame u (index + 1)) ty)
       (after (duplicateFrame index u) s)
     = storedLayer (Frame.layer src ty) s)
  /\ (forall id, id ∉ [backgroundId u; lineartId u; colorId u] ->
        storedLayer id (after (duplicateFrame index u) s)
        = storedLayer id s).
Proof.
  intros Hdb Hsrc (Hb & Hl & Hc & Hnd & Hsrcs). unfold after, storedLayer.
  rewrite (duplicateFrame_settled index u s src) by done. simpl.
  set (m := layers (idb (storageManager s))) in *.
  destruct (NoDup_three _ _ _ Hnd) as (? & ? & ?).
  assert (forall ty, Frame.layer src ty <> backgroundId u
                     /\ Frame.layer src ty <> lineartId u
                     /\ Frame.layer src ty <> colorId u) as Hs.
  { intros ty. apply not_elem_of_three.
    rewrite !Forall_cons in Hsrcs. destruct Hsrcs as (? & ? & ? & _).
    by destruct ty. }
  destruct (Hs Background) as (? & ? & ?), (Hs Lineart) as (? & ? & ?),
    (Hs Color) as (? & ? & ?).
  simpl in *.
  split.
  - intros ty. rewrite !lookup_copied.
    destruct ty; simpl; repeat case_decide; try congruence;
      rewrite ?lookup_copied; repeat case_decide; try congruence;
      rewrite ?Hb, ?Hl, ?Hc;
      match goal with |- from_option _ _ ?x = _ => by destruct x end.
  - intros id Hid. rewrite !not_elem_of_cons in Hid.
    destruct Hid as (? & ? & ? & _).
    rewrite !lookup_copied. by repeat case_decide.
Qed.

Lemma duplicateFrame_copies_layers_witness :
  (forall ty,
     storedLayer (Frame.layer (createNewFrame uuidsC (0 + 1)) ty)
       (after (duplicateFrame 0 uuidsC) twoFrames)
     = storedLayer (Frame.layer (createNewFrame uuidsA 0) ty) twoFrames)
  /\ (forall id,
        id ∉ [backgroundId uuidsC; lineartId uuidsC; colorId uuidsC] ->
        storedLayer id (after (duplicateFrame 0 uuidsC) twoFrames)
        = storedLayer id twoFrames).
Proof.
  apply (duplicateFrame_copies_layers 0 uuidsC twoFrames
           (createNewFrame uuidsA 0)).
  - reflexivity.
  - reflexivity.
  - unfold freshLayers. repeat split; try reflexivity.
    + apply (bool_decide_unpack _). vm_compute. exact I.
    + apply (bool_decide_unpack _). vm_compute. exact I.
Defined.

(** Deleting the frame at [index] on an initialised store, with more
    than one frame, takes that frame out of the list and keeps the order
    of the others; the current index stays where it is unless it would
    point past the end, in which case it moves to the last frame. *)
Theorem deleteFrame_removes_frame (index : nat) (s : App.t) :
  db (storageManager s) = true ->
  (1 < length (frames s))%nat ->
  is_Some (frames s !! index) ->
  Frame.id <$> frames (after (deleteFrame index) s)
  = delete index (Frame.id <$> frames s)
  /\ Frame.layers <$> frames (after (deleteFrame index) s)
     = delete index (Frame.layers <$> frames s)
  /\ currentFrameIndex (after (deleteFrame index) s)
     = Nat.min (currentFrameIndex s) (length (frames s) - 2).
Proof.
  intros Hdb Hlen [f Hf]. unfold after.
  rewrite (deleteFrame_settled index s f) by done. simpl.
  rewrite reindex_ids, reindex_layers, !list_fmap_delete.
  split; [done|]. split; [done|].
  destruct (Nat.leb_spec (length (frames s) - 1) (currentFrameIndex s));
    lia.
Qed.

Lemma deleteFrame_removes_frame_witness :
  Frame.id <$> frames (after (deleteFrame 1)
                         (after (setCurrentFrameIndex 1) twoFrames))
  = delete 1 (Frame.id <$> frames (after (setCurrentFrameIndex 1) twoFrames))
  /\ Frame.layers <$> frames (after (deleteFrame 1)
                                (after (setCurrentFrameIndex 1) twoFrames))
     = delete 1 (Frame.layers
                   <$> frames (after (setCurrentFrameIndex 1) twoFrames))
  /\ currentFrameIndex (after (deleteFrame 1)
                          (after (setCurrentFrameIndex 1) twoFrames))
     = Nat.min (currentFrameIndex (after (setCurrentFrameIndex 1) twoFrames))
         (length (frames (after (setCurrentFrameIndex 1) twoFrames)) - 2).
Proof.
  apply (deleteFrame_removes_frame 1
           (after (setCurrentFrameIndex 1) twoFrames)).
  - reflexivity.
  - vm_compute. lia.
  - eexists. reflexivity.
Defined.

(** ** Mounting the editor *)

Local Abbreviation byIndex :=
  (fun a b : Frame.t => (Frame.index a <= Frame.index b)%nat).

Lemma insertByIndex_perm f l : insertByIndex f l ≡ₚ f :: l.
Proof.
  induction l as [|g l IH]; simpl; [done|].
  destruct (Frame.index f <=? Frame.index g)%nat; [done|].
  rewrite IH. apply perm_swap.
Qed.

Lemma sortByIndex_perm l : sortByIndex l ≡ₚ l.
Proof.
  unfold sortByIndex. induction l as [|f l IH]; simpl; [done|].
  by rewrite insertByIndex_perm, IH.
Qed.

Lemma insertByIndex_sorted f l :
  StronglySorted byIndex l -> StronglySorted byIndex (insertByIndex f l).
Proof.
  induction 1 as [|g l Hl IH Hg]; simpl.
  - repeat constructor.
  - destruct (Nat.leb_spec (Frame.index f) (Frame.index g)).
    + constructor; [by constructor|].
      constructor; [done|].
      eapply Forall_impl; [exact Hg|]. simpl. intros; lia.
    + constructor; [done|].
      rewrite insertByIndex_perm. constructor; [simpl; lia | done].
Qed.

Lemma sortByIndex_sorted l : StronglySorted byIndex (sortByIndex l).
Proof.
  unfold sortByIndex. induction l as [|f l IH]; simpl; [constructor|].
  by apply insertByIndex_sorted.
Qed.

Lemma sorted_indices l :
  StronglySorted byIndex l -> Sorted le (Frame.index <$> l).
Proof.
  induction 1 as [|f l Hl IH Hf]; simpl; constructor; [done|].
  destruct l as [|g l]; simpl; constructor.
  by apply Forall_cons in Hf as [? _].
Qed.

Lemma indices_sorted fs a :
  Frame.index <$> fs = seq a (length fs) -> StronglySorted byIndex fs.
Proof.
  revert a. induction fs as [|f fs IH]; intros a H; [constructor|].
  simpl in H. injection H as Hf Hfs. constructor; [by eapply IH|].
  apply Forall_forall. intros x Hx.
  assert (Frame.index x ∈ seq (S a) (length fs)) as Hin
    by (rewrite <- Hfs; by apply list_elem_of_fmap_2).
  apply elem_of_seq in Hin. lia.
Qed.

Lemma index_at fs k z :
  indicesOk fs -> fs !! k = Some z -> Frame.index z = k.
Proof.
  intros Hok Hz.
  assert ((Frame.index <$> fs) !! k = Some (Frame.index z)) as H
    by by rewrite list_lookup_fmap, Hz.
  rewrite Hok in H. apply lookup_seq in H. lia.
Qed.

Lemma indices_inj fs x y :
  indicesOk fs -> x ∈ fs -> y ∈ fs -> Frame.index x = Frame.index y ->
  x = y.
Proof.
  intros Hok [i Hi]%list_elem_of_lookup [j Hj]%list_elem_of_lookup Heq.
  rewrite (index_at fs i x), (index_at fs j y) in Heq by done.
  congruence.
Qed.

(** The state the mount effect ends in. *)
Lemma init_settled u s :
  init u s
  = (Ok tt,
     if decide (StorageManager.frames (idb (storageManager s)) = ∅)
     then settled s [createNewFrame u 0] (currentFrameIndex s)
            (layers (idb (storageManager s)))
            {[ frameId u := createNewFrame u 0 ]}
     else settled s
            (sortByIndex
               (merge_sort Store.byId
                  (snd <$> map_to_list
                             (StorageManager.frames
                                (idb (storageManager s))))))
            (currentFrameIndex s)
            (layers (idb (storageManager s)))
            (StorageManager.frames (idb (storageManager s)))).
Proof.
  destruct s as [fs cur al pl us rs [dbf [ls frs]]].
  unfold init, bind, storage, StorageManager.init, getAllFrames, setFrames,
    saveFrame, settled. fields.
  assert (length (merge_sort
                    (fun a b =>
                       Is_true (String.leb (Frame.id a) (Frame.id b)))
                    (snd <$> map_to_list frs))
          = length (map_to_list frs)) as Hlen
    by by rewrite merge_sort_Permutation, length_fmap.
  case_decide as Hempty.
  - subst frs. rewrite map_to_list_empty. simpl. fields.
    by rewrite insert_empty.
  - destruct (Nat.eqb_spec
                (length (merge_sort
                   (fun a b =>
                      Is_true (String.leb (Frame.id a) (Frame.id b)))
                   (snd <$> map_to_list frs))) 0) as [Hz | Hnz].
    + rewrite Hlen in Hz. apply nil_length_inv in Hz.
      by apply map_to_list_empty_iff in Hz.
    + reflexivity.
Qed.

(** What the mount effect loads from a store that holds frames. *)
Lemma init_stored u s :
  Store.keyed (storageManager s) ->
  StorageManager.frames (idb (storageManager s)) <> ∅ ->
  exists l,
    after (init u) s
    = settled s l (currentFrameIndex s) (layers (idb (storageManager s)))
        (StorageManager.frames (idb (storageManager s)))
    /\ StronglySorted byIndex l
    /\ l ≡ₚ snd <$> map_to_list
                      (StorageManager.frames (idb (storageManager s)))
    /\ (forall f,
          f ∈ l
          <-> StorageManager.frames (idb (storageManager s)) !! Frame.id f
              = Some f)
    /\ NoDup (Frame.id <$> l).
Proof.
  intros Hkeyed Hne. unfold after. rewrite init_settled.
  rewrite decide_False by done. simpl.
  eexists. split; [reflexivity|].
  split; [apply sortByIndex_sorted|].
  assert (sortByIndex
            (merge_sort Store.byId
               (snd <$> map_to_list
                          (StorageManager.frames (idb (storageManager s)))))
          ≡ₚ snd <$> map_to_list
                       (StorageManager.frames (idb (storageManager s))))
    as Hperm by by rewrite sortByIndex_perm, merge_sort_Permutation.
  split; [done|]. split.
  - intros f. rewrite Hperm, list_elem_of_fmap. split.
    + intros ([k g] & -> & Hin). simpl.
      apply elem_of_map_to_list in Hin.
      by rewrite (Hkeyed k g Hin).
    + intros Hf. exists (Frame.id f, f). split; [done|].
      by apply elem_of_map_to_list.
  - rewrite Hperm, StoreProofs.ids_of_keyed.
    + apply NoDup_fst_map_to_list.
    + intros k f Hin. apply elem_of_map_to_list in Hin. by apply Hkeyed.
Qed.

(** After the mount effect the store is initialised and the editor
    shows exactly the stored frame records, each once, ordered by their
    [index], and there is at least one: in an empty store the effect
    first saves a new frame with index 0; a store that holds frames is
    left as it is. *)
Theorem init_loads (u : UUIDs) (s : App.t) :
  Store.keyed (storageManager s) ->
  let s' := after (init u) s in
  db (storageManager s') = true
  /\ frames s' <> []
  /\ Sorted le (Frame.index <$> frames s')
  /\ NoDup (Frame.id <$> frames s')
  /\ (forall f, f ∈ frames s' <-> storedFrame (Frame.id f) s' = Some f)
  /\ StorageManager.frames (idb (storageManager s'))
     = (if decide (StorageManager.frames (idb (storageManager s)) = ∅)
        then {[ frameId u := createNewFrame u 0 ]}
        else StorageManager.frames (idb (storageManager s)))
  /\ layers (idb (storageManager s')) = layers (idb (storageManager s)).
Proof.
  intros Hkeyed s'. subst s'. unfold storedFrame.
  destruct (decide (StorageManager.frames (idb (storageManager s)) = ∅))
    as [Hempty | Hne].
  - unfold after. rewrite init_settled, decide_True by done. simpl.
    split; [done|]. split; [done|].
    split; [repeat constructor|].
    split; [apply NoDup_singleton|].
    split; [|done].
    intros f. rewrite list_elem_of_singleton, lookup_singleton_Some.
    split; [by intros -> | by intros [_ <-]].
  - destruct (init_stored u s Hkeyed Hne)
      as (l & -> & Hsorted & Hperm & Hmem & Hnd). simpl.
    split; [done|]. split.
    { intros ->. apply Permutation_nil_l in Hperm.
      symmetry in Hperm. apply fmap_nil_inv in Hperm.
      by apply map_to_list_empty_iff in Hperm. }
    split; [by apply sorted_indices|].
    done.
Qed.

Lemma init_loads_witness :
  let s' := after (init uuidsC) (reopened twoFrames) in
  db (storageManager s') = true
  /\ frames s' <> []
  /\ Sorted le (Frame.index <$> frames s')
  /\ NoDup (Frame.id <$> frames s')
  /\ (forall f, f ∈ frames s' <-> storedFrame (Frame.id f) s' = Some f)
  /\ StorageManager.frames (idb (storageManager s'))
     = (if decide (StorageManager.frames
                     (idb (storageManager (reopened twoFrames))) = ∅)
        then {[ frameId uuidsC := createNewFrame uuidsC 0 ]}
        else StorageManager.frames
               (idb (storageManager (reopened twoFrames))))
  /\ layers (idb (storageManager s'))
     = layers (idb (storageManager (reopened twoFrames))).
Proof.
  apply (init_loads uuidsC (reopened twoFrames)).
  change (map_Forall (fun k f => Frame.id f = k)
            (StorageManager.frames
               (idb (storageManager (reopened twoFrames))))).
  apply (bool_decide_unpack _). vm_compute. exact I.
Defined.

(** ** Loading the page again *)

Lemma keyed_list_to_map fs sm :
  StorageManager.frames (idb sm)
  = list_to_map ((fun f => (Frame.id f, f)) <$> fs) ->
  Store.keyed sm.
Proof.
  intros H k f Hf. rewrite H in Hf.
  apply elem_of_list_to_map_2, list_elem_of_fmap in Hf.
  by destruct Hf as (g & [= -> ->] & _).
Qed.

Lemma values_list_to_map (fs : list Frame.t) :
  NoDup (Frame.id <$> fs) ->
  snd <$> map_to_list
            (list_to_map ((fun f => (Frame.id f, f)) <$> fs)
             : gmap string Frame.t)
  ≡ₚ fs.
Proof.
  intros Hnd. rewrite map_to_list_to_map.
  - rewrite <- list_fmap_compose. by rewrite list_fmap_id.
  - by rewrite <- list_fmap_compose.
Qed.

(** The mount effect over a store that holds exactly the frames [fs],
    with contiguous indices, shows [fs]. *)
Lemma reload_frames u s0 fs :
  StorageManager.frames (idb (storageManager s0))
  = list_to_map ((fun f => (Frame.id f, f)) <$> fs) ->
  NoDup (Frame.id <$> fs) -> indicesOk fs -> fs <> [] ->
  frames (after (init u) s0) = fs.
Proof.
  intros Hst Hnd Hok Hne.
  destruct (init_stored u s0) as (l & -> & Hsorted & Hperm & _).
  - by eapply keyed_list_to_map.
  - rewrite Hst. destruct fs as [|f fs]; [done|]. simpl.
    apply insert_non_empty.
  - simpl. rewrite Hst, values_list_to_map in Hperm by done.
    apply (StronglySorted_unique_strong byIndex);
      [|done|by eapply indices_sorted|done].
    intros x y Hx Hy ? ?. rewrite Hperm in Hx.
    apply (indices_inj fs); [done..|lia].
Qed.

(** A session of added frames keeps the list and the store in step. *)
Lemma adding_inSync us s :
  db (storageManager s) = true -> inSync s -> indicesOk (frames s) ->
  NoDup ((Frame.id <$> frames s) ++ (frameId <$> us)) ->
  inSync (fold_left (fun st u => after (addFrame u) st) us s)
  /\ indicesOk (frames (fold_left (fun st u => after (addFrame u) st) us s))
  /\ (length (frames s)
      <= length (frames
                   (fold_left (fun st u => after (addFrame u) st) us s)))%nat.
Proof.
  revert s. induction us as [|u us IH]; intros s Hdb [Hst Hnd] Hok Hfresh;
    simpl; [done|].
  apply NoDup_app in Hfresh as (_ & Hnew & Hus).
  apply NoDup_cons in Hus as [Hu Hus].
  assert (frameId u ∉ Frame.id <$> frames s) as Hfs.
  { intros Hin. apply (Hnew _ Hin). by left. }
  destruct (IH (after (addFrame u) s)) as (? & ? & Hlen).
  - unfold after. by rewrite addFrame_settled.
  - unfold after, inSync. rewrite addFrame_settled by done. simpl.
    rewrite !fmap_app. simpl. split.
    + rewrite list_to_map_snoc, Hst; [done|].
      by rewrite <- list_fmap_compose.
    + apply NoDup_app. split; [done|]. split; [|apply NoDup_singleton].
      intros x Hx ->%list_elem_of_singleton. done.
  - by apply indicesOk_addFrame.
  - unfold after. rewrite addFrame_settled by done. simpl.
    rewrite fmap_app. simpl. rewrite <- app_assoc. simpl.
    apply NoDup_app. split; [done|]. split; [|by apply NoDup_cons].
    intros x Hx. by apply Hnew.
  - split; [done|]. split; [done|].
    revert Hlen. unfold after. rewrite addFrame_settled by done. simpl.
    rewrite length_app. simpl. lia.
Qed.

Lemma init_unmounted u0 :
  after (init u0) unmounted
  = settled unmounted [createNewFrame u0 0] 0 ∅
      {[ frameId u0 := createNewFrame u0 0 ]}.
Proof. unfold after. rewrite init_settled. by rewrite decide_True. Qed.

(** Frames that were added come back as they are when the page is
    loaded again: after the editor is mounted on an empty database and
    frames with distinct ids are added, a new mount over the same
    database shows the same frame list. *)
Theorem adding_session_reloads (u0 : UUIDs) (us : list UUIDs) (u : UUIDs) :
  NoDup (frameId <$> u0 :: us) ->
  frames (after (init u) (reopened (addingSession u0 us)))
  = frames (addingSession u0 us).
Proof.
  intros Hnd. unfold addingSession. rewrite init_unmounted.
  destruct (adding_inSync us
              (settled unmounted [createNewFrame u0 0] 0 ∅
                 {[ frameId u0 := createNewFrame u0 0 ]}))
    as ([Hst Hids] & Hok & Hlen); try done.
  - split; [|apply NoDup_singleton]. simpl. by rewrite insert_empty.
  - apply reload_frames; [done..|].
    intros Hnil. rewrite Hnil in Hlen. simpl in Hlen. lia.
Qed.

Lemma adding_session_reloads_witness :
  frames (after (init uuidsC) (reopened (addingSession uuidsA [uuidsB])))
  = frames (addingSession uuidsA [uuidsB]).
Proof.
  apply (adding_session_reloads uuidsA [uuidsB] uuidsC).
  apply (bool_decide_unpack _). vm_compute. exact I.
Defined.

(** A deleted frame comes back when the page is loaded again.  When
    the store and the list agree and [deleteFrame] removes a frame from
    the list, the frame records in the store stay as they are, so a new
    mount over the same database shows the frame list from before the
    deletion. *)
Theorem deleted_frame_returns (index : nat) (u : UUIDs) (s : App.t) :
  db (storageManager s) = true ->
  inSync s -> indicesOk (frames s) ->
  (1 < length (frames s))%nat ->
  is_Some (frames s !! index) ->
  length (frames (after (deleteFrame index) s))
  = (length (frames s) - 1)%nat
  /\ frames (after (init u) (reopened (after (deleteFrame index) s)))
     = frames s.
Proof.
  intros Hdb [Hst Hnd] Hok Hlen [f Hf]. split.
  - unfold after. rewrite (deleteFrame_settled index s f) by done. simpl.
    unfold reindex. rewrite length_imap, length_delete by done. lia.
  - apply reload_frames; [|done..|by destruct (frames s)].
    unfold after. by rewrite (deleteFrame_settled index s f).
Qed.

Lemma deleted_frame_returns_witness :
  length (frames (after (deleteFrame 0) twoFrames))
  = (length (frames twoFrames) - 1)%nat
  /\ frames (after (init uuidsC) (reopened (after (deleteFrame 0) twoFrames)))
     = frames twoFrames.
Proof.
  apply (deleted_frame_returns 0 uuidsC twoFrames).
  - reflexivity.
  - split; [vm_compute; reflexivity|].
    apply (bool_decide_unpack _). vm_compute. exact I.
  - reflexivity.
  - vm_compute. lia.
  - eexists. reflexivity.
Defined.

(** After a frame that is not the last one is duplicated, the stored
    records no longer have contiguous indices: the record of the new
    frame and the record of the frame that followed the source both
    carry the index after the source's, because the shifted frames are
    not saved again.  A new mount over the same database shows both
    frames with that index. *)
Theorem duplicate_reload_collides
    (index : nat) (u u' : UUIDs) (s : App.t) (next : Frame.t) :
  db (storageManager s) = true ->
  inSync s -> indicesOk (frames s) ->
  frames s !! (index + 1)%nat = Some next ->
  frameId u ∉ Frame.id <$> frames s ->
  let s' := after (init u') (reopened (after (duplicateFrame index u) s)) in
  createNewFrame u (index + 1) ∈ frames s'
  /\ next ∈ frames s'
  /\ Frame.index next = (index + 1)%nat
  /\ ~ indicesOk (frames s').
Proof.
  intros Hdb [Hst Hnd] Hok Hnext Hfresh s'. subst s'.
  destruct (frames s !! index) as [src|] eqn:Hsrc.
  2:{ apply lookup_ge_None in Hsrc. apply lookup_lt_Some in Hnext. lia. }
  assert (Frame.id next ∈ Frame.id <$> frames s) as Hin
    by by eapply list_elem_of_fmap_2, list_elem_of_lookup_2.
  assert (Frame.id next <> frameId u) as Hne
    by by intros Heq; rewrite Heq in Hin.
  assert (StorageManager.frames
            (idb (storageManager
                    (reopened (after (duplicateFrame index u) s))))
          = <[frameId u := createNewFrame u (index + 1)]>
              (StorageManager.frames (idb (storageManager s)))) as Hrec.
  { unfold after. by rewrite (duplicateFrame_settled index u s src). }
  destruct (init_stored u'
              (reopened (after (duplicateFrame index u) s)))
    as (l & -> & _ & _ & Hmem & _).
  - intros k f. rewrite Hrec, lookup_insert. case_decide.
    + by intros [= <-].
    + apply (keyed_list_to_map (frames s)), Hst.
  - rewrite Hrec. apply insert_non_empty.
  - simpl. rewrite Hrec in Hmem.
    assert (createNewFrame u (index + 1) ∈ l) as Hnew.
    { apply Hmem. simpl. by rewrite lookup_insert_eq. }
    assert (next ∈ l) as Hold.
    { apply Hmem. rewrite lookup_insert_ne by done. rewrite Hst.
      apply elem_of_list_to_map_1; [by rewrite <- list_fmap_compose|].
      apply list_elem_of_fmap. exists next. split; [done|].
      by eapply list_elem_of_lookup_2. }
    assert (Frame.index next = (index + 1)%nat) as Hidx
      by by eapply index_at.
    split; [done|]. split; [done|]. split; [done|].
    intros Hok'. apply Hne.
    by rewrite (indices_inj l next (createNewFrame u (index + 1))).
Qed.

Lemma duplicate_reload_collides_witness :
  let s' := after (init uuidsA)
              (reopened (after (duplicateFrame 0 uuidsC) twoFrames)) in
  createNewFrame uuidsC (0 + 1) ∈ frames s'
  /\ createNewFrame uuidsB 1 ∈ frames s'
  /\ Frame.index (createNewFrame uuidsB 1) = (0 + 1)%nat
  /\ ~ indicesOk (frames s').
Proof.
  apply (duplicate_reload_collides 0 uuidsC uuidsA twoFrames
           (createNewFrame uuidsB 1)).
  - reflexivity.
  - split; [vm_compute; reflexivity|].
    apply (bool_decide_unpack _). vm_compute. exact I.
  - reflexivity.
  - reflexivity.
  - apply (bool_decide_unpack _). vm_compute. exact I.
Defined.

End TimelineProofs.
